(** * booby: declarative models, fields and plain (de)serialisation

    A shallow embedding of the vendored [booby] library
    ([booby/base.py], [booby/fields.py], [booby/models.py]) and the
    properties of its schema registry, field write paths, bulk update and
    plain round trip.

    Python objects are modelled as follows.
    - Values are [None], booleans, integers, strings, datetimes, lists,
      tuples, dicts and references to model instances.  Floats are not
      represented.
    - Model instances live in a store ([heap]) and are referred to by
      address, so that aliasing and in-place mutation are visible.  Lists
      and dicts are never mutated in place by the library and are plain
      values.
    - A dict is an association list in iteration order; assigning a key
      replaces the entry in place or appends a new one.
    - An instance's [_data] dict is keyed in the source by the [Field]
      descriptor object, and [getattr] and [setattr] reach a descriptor
      through the resolution order of the type of the instance.  Here
      [_data] is keyed by the attribute name, and the accessors of an
      instance go through the entry of [_fields].  The two agree on the
      classes singled out by [ordinary] below: there every name of
      [_fields] resolves to the field recorded under it, every field that
      attribute lookup reaches is in [_fields], the fields are pairwise
      different objects, and no class attribute has the name of a member
      of [Model].  A statement that depends on which descriptor an
      access reaches is made for such classes.
    - A call binds its keywords to the parameters first: a keyword [cls]
      or [self] given to a model class clashes with the first parameter
      of [__new__] or of [__init__] and raises [TypeError].
    - Exceptions are results; a computation on the store returns its
      outcome together with the store it leaves behind.
    - Recursion that follows the object graph is bounded by a fuel
      argument; [OutOfFuel] is the outcome of a call chain deeper than the
      fuel. *)

From Stdlib Require Import ZArith Ascii String.
From stdpp Require Import gmap strings list fin_maps.

Set Warnings "-register-all".
Open Scope string_scope.
Open Scope Z_scope.
Open Scope list_scope.

(** ** Values *)

Abbreviation addr := nat (only parsing).

Inductive val :=
| VNone
| VBool (b : bool)
| VInt (z : Z)
| VStr (s : string)
| VDateTime (t : Z)
| VList (l : list val)
| VTuple (l : list val)
| VDict (d : list (val * val))
| VObj (a : addr).

(** Python truth value.  [Model] defines neither [__nonzero__] nor
    [__len__], so every instance is true. *)
Definition truthy (v : val) : bool :=
  match v with
  | VNone => false
  | VBool b => b
  | VInt z => negb (z =? 0)
  | VStr s => negb (String.eqb s EmptyString)
  | VDateTime _ => true
  | VList l | VTuple l => negb (Nat.eqb (List.length l) 0)
  | VDict d => negb (Nat.eqb (List.length d) 0)
  | VObj _ => true
  end.

Definition is_dict (v : val) : bool :=
  match v with VDict _ => true | _ => false end.

Definition is_list_or_tuple (v : val) : bool :=
  match v with VList _ | VTuple _ => true | _ => false end.

(** ** Exceptions and outcomes *)

Inductive exn :=
| FieldError (model : string) (name : val)
| BoobyError (msg : string)
| TypeError
| AttributeError
| ValueError
| KeyError
| SystemError.

Inductive outcome (A : Type) :=
| Ok (a : A)
| Raise (e : exn)
| OutOfFuel.
Arguments Ok {A} a.
Arguments Raise {A} e.
Arguments OutOfFuel {A}.

(** The names the specification gives to the two [BoobyError]s raised by
    [fields.py]. *)
Definition ConfigurationError : exn :=
  BoobyError "In list field there must be only one model validator".
Definition ConversionError : exn :=
  BoobyError "Should contain only integer values.".

(** ** Validators

    [booby.validators] supplies the validator classes; an instance is its
    class together with its constructor arguments.  [Custom] stands for a
    caller-supplied validator object that is not an instance of a builtin
    class. *)

Module builtin_validators.
Inductive validator :=
| Required
| In (choices : val)
| String
| Integer
| Float
| Boolean
| Email
| DateTime
| Min (bound : val)
| Max (bound : val)
| Model (model : string)
| List (inner : list validator)
| Dict
| Custom (name : string).
End builtin_validators.
Abbreviation validator := builtin_validators.validator.

(** ** Fields ([base.py], [fields.py]) *)

Inductive fkind :=
| KField
| KString
| KInteger
| KFloat
| KBoolean
| KEmail
| KEmbedded (model : string)
| KList (model : option string)
| KDateTime (format : val)
| KDict (key_model value_model : option string)
        (key_validators value_validators : list validator).

(** A Field object: its class ([kind]), its attributes, and a number
    [fid] that stands for its identity, so that two objects with the same
    attributes can be told apart.  The constructors leave it at 0; a class
    body that creates two objects with the same attributes numbers them
    with [tagged]. *)
Record Field := mkField {
  kind : fkind;
  options : gmap string val;
  default : val;
  validators : list validator;
  fid : nat
}.

Definition tagged (n : nat) (f : Field) : Field :=
  {| kind := kind f; options := options f; default := default f;
     validators := validators f; fid := n |}.

(** [kwargs.get(name)] *)
Definition kwargs_get (kwargs : gmap string val) (name : string) : val :=
  match kwargs !! name with Some v => v | None => VNone end.

(** [Field.__init__(self, *validators, **kwargs)]; [k] is the class being
    instantiated. *)
Definition Field_init (k : fkind) (validators : list validator)
    (kwargs : gmap string val) : Field :=
  let required := if truthy (kwargs_get kwargs "required") then [builtin_validators.Required] else [] in
  let choices := kwargs_get kwargs "choices" in
  let membership := if truthy choices then [builtin_validators.In choices] else [] in
  {| kind := k;
     options := kwargs;
     default := kwargs_get kwargs "default";
     validators := (required ++ membership) ++ validators;
     fid := 0%nat |}.

Definition StringField (args : list validator) (kwargs : gmap string val) : Field :=
  Field_init KString (builtin_validators.String :: args) kwargs.

(** The trailing [self.validators.append(...)] of [IntegerField] and
    [FloatField]. *)
Definition append_bounds (f : Field) (kwargs : gmap string val) : Field :=
  let min_value := kwargs_get kwargs "min_value" in
  let max_value := kwargs_get kwargs "max_value" in
  let with_min := if truthy min_value then [builtin_validators.Min min_value] else [] in
  let with_max := if truthy max_value then [builtin_validators.Max max_value] else [] in
  {| kind := kind f; options := options f; default := default f;
     validators := (validators f ++ with_min) ++ with_max; fid := fid f |}.

Definition IntegerField (args : list validator) (kwargs : gmap string val) : Field :=
  append_bounds (Field_init KInteger (builtin_validators.Integer :: args) kwargs) kwargs.

Definition FloatField (args : list validator) (kwargs : gmap string val) : Field :=
  append_bounds (Field_init KFloat (builtin_validators.Float :: args) kwargs) kwargs.

Definition BooleanField (args : list validator) (kwargs : gmap string val) : Field :=
  Field_init KBoolean (builtin_validators.Boolean :: args) kwargs.

Definition EmailField (args : list validator) (kwargs : gmap string val) : Field :=
  Field_init KEmail (builtin_validators.Email :: args) kwargs.

Definition EmbeddedField (model : string) (args : list validator)
    (kwargs : gmap string val) : Field :=
  Field_init (KEmbedded model) (builtin_validators.Model model :: args) kwargs.

Definition DateTimeField (args : list validator) (kwargs : gmap string val) : Field :=
  let format := match kwargs !! "format" with
                | Some v => v
                | None => VStr "%Y-%m-%d %H:%M:%S"
                end in
  Field_init (KDateTime format) (builtin_validators.DateTime :: args) kwargs.

(** One entry of the element specification handed to [ListField] or
    [DictField]: a model class, a validator object, or anything else. *)
Inductive spec_item :=
| SClass (model : string)
| SValidator (v : validator)
| SOther.

(** The [validators] / [key] / [value] argument as the caller passes it. *)
Inductive spec_arg :=
| ANone
| AOne (item : spec_item)
| AMany (items : list spec_item).

Definition ensure_iterable (value : spec_arg) : list spec_item :=
  match value with
  | ANone => []
  | AOne item => [item]
  | AMany items => items
  end.

(** The loop of [fetch_model], with its three accumulators. *)
Fixpoint fetch_model_loop (validators : list spec_item) (model : option string)
    (model_validators inner_validators : list validator)
    : outcome (option string * list validator * list validator) :=
  match validators with
  | [] => Ok (model, model_validators, inner_validators)
  | SClass m :: rest =>
      match model with
      | Some _ => Raise ConfigurationError
      | None => fetch_model_loop rest (Some m) (model_validators ++ [builtin_validators.Model m]) inner_validators
      end
  | SValidator (builtin_validators.Model m) :: rest =>
      match model with
      | Some _ => Raise ConfigurationError
      | None => fetch_model_loop rest (Some m) (model_validators ++ [builtin_validators.Model m]) inner_validators
      end
  | SValidator (builtin_validators.Custom _) :: rest =>
      fetch_model_loop rest model model_validators inner_validators
  | SValidator v :: rest =>
      fetch_model_loop rest model model_validators (inner_validators ++ [v])
  | SOther :: rest =>
      fetch_model_loop rest model model_validators inner_validators
  end.

Definition fetch_model (validators : list spec_item) :=
  fetch_model_loop validators None [] [].

Definition ListField (validators : spec_arg) (args : list validator)
    (kwargs : gmap string val) : outcome Field :=
  match fetch_model (ensure_iterable validators) with
  | Ok (model, validators, inner_validators) =>
      let validators := match validators with [] => inner_validators | _ => validators end in
      Ok (Field_init (KList model) [builtin_validators.List validators] kwargs)
  | Raise e => Raise e
  | OutOfFuel => OutOfFuel
  end.

Definition DictField (key value : spec_arg) (args : list validator)
    (kwargs : gmap string val) : outcome Field :=
  match fetch_model (ensure_iterable key) with
  | Ok (key_model, key_validators, _) =>
      match fetch_model (ensure_iterable value) with
      | Ok (value_model, value_validators, _) =>
          Ok (Field_init (KDict key_model value_model key_validators value_validators)
                (builtin_validators.Dict :: args) kwargs)
      | Raise e => Raise e
      | OutOfFuel => OutOfFuel
      end
  | Raise e => Raise e
  | OutOfFuel => OutOfFuel
  end.

(** ** Model classes and the metaclass ([base.py]) *)

(** An entry of a class body. *)
Inductive attr :=
| AField (f : Field)
| AOther (v : val).

(** A class object: its name, its direct bases, its own [__dict__] (the
    [_fields] entry kept apart) and the [_fields] mapping. *)
Inductive ModelClass := mkClass {
  c_name : string;
  c_bases : list ModelClass;
  c_dict : list (string * attr);
  c_fields : gmap string Field
}.

(** [for k, v in d.iteritems(): if isinstance(v, Field): fields[k] = v] *)
Definition collect_fields (d : list (string * attr)) (fields : gmap string Field)
    : gmap string Field :=
  foldl (λ acc kv, match kv.2 with
                   | AField f => <[kv.1 := f]> acc
                   | AOther _ => acc
                   end) fields d.

(** [ModelMeta.__new__(cls, name, bases, attrs)].  [attrs['_fields']] is
    overwritten first, so a class-body entry of that name is lost. *)
Definition ModelMeta_new (name : string) (bases : list ModelClass)
    (attrs : list (string * attr)) : ModelClass :=
  let attrs := filter (λ kv, kv.1 ≠ "_fields") attrs in
  let from_bases := foldl (λ acc base, collect_fields (c_dict base) acc) ∅ bases in
  mkClass name bases attrs (collect_fields attrs from_bases).

(** The names of a class and of all its ancestors. *)
Fixpoint class_names (c : ModelClass) : list string :=
  match c with
  | mkClass name bases _ _ =>
      name :: (fix go (bs : list ModelClass) : list string :=
                 match bs with
                 | [] => []
                 | b :: bs' => class_names b ++ go bs'
                 end) bases
  end.

(** The schema as the specification words it: the fields declared on the
    type united with the schema of every ancestor, the descendant winning
    on a name collision. *)
Fixpoint spec_schema (c : ModelClass) : gmap string Field :=
  match c with
  | mkClass _ bases d _ =>
      collect_fields d ∅ ∪
      (fix go (bs : list ModelClass) : gmap string Field :=
         match bs with
         | [] => ∅
         | b :: bs' => go bs' ∪ spec_schema b
         end) bases
  end.

(** ** Attribute lookup on a class

    [getattr] and [setattr] on an instance look the name up in the
    [__dict__] of the classes of the method resolution order of its type.
    Classes are told apart by their names.  [Model] and [object], which
    close every resolution order, are left out. *)

Definition same_class (a b : ModelClass) : bool :=
  String.eqb (c_name a) (c_name b).

(** [c] occurs in the tail of one of the sequences. *)
Definition in_a_tail (c : ModelClass) (seqs : list (list ModelClass)) : bool :=
  existsb (λ s, existsb (same_class c) (tail s)) seqs.

(** The head of the first sequence whose head is in no tail. *)
Fixpoint next_head (seqs all : list (list ModelClass)) : option ModelClass :=
  match seqs with
  | [] => None
  | [] :: rest => next_head rest all
  | (c :: _) :: rest => if in_a_tail c all then next_head rest all else Some c
  end.

Definition drop_head (c : ModelClass) (s : list ModelClass) : list ModelClass :=
  match s with
  | c' :: s' => if same_class c c' then s' else s
  | [] => []
  end.

Definition is_empty {A} (s : list A) : bool :=
  match s with [] => true | _ => false end.

(** The merge of the C3 linearisation, at most [fuel] classes long;
    [None] where there is no consistent order ([type.__new__] raises
    [TypeError]). *)
Fixpoint merge (fuel : nat) (seqs : list (list ModelClass)) : option (list ModelClass) :=
  if forallb is_empty seqs then Some []
  else match fuel with
       | O => None
       | S fuel' =>
           match next_head seqs seqs with
           | None => None
           | Some c => (λ l, c :: l) <$> merge fuel' (map (drop_head c) seqs)
           end
       end.

(** [cls.__mro__]: the class, then the merge of the orders of its bases
    and of the list of the bases. *)
Fixpoint mro (c : ModelClass) : option (list ModelClass) :=
  match c with
  | mkClass _ bases _ _ =>
      match (fix go (bs : list ModelClass) : option (list (list ModelClass)) :=
               match bs with
               | [] => Some []
               | b :: bs' =>
                   match mro b, go bs' with
                   | Some l, Some ls => Some (l :: ls)
                   | _, _ => None
                   end
               end) bases with
      | Some seqs =>
          (λ l, c :: l) <$> merge (List.length (concat (seqs ++ [bases]))) (seqs ++ [bases])
      | None => None
      end
  end.

(** [d.get(name)] on a class [__dict__]; of two entries of a name the
    later one counts. *)
Fixpoint dict_get (d : list (string * attr)) (name : string) : option attr :=
  match d with
  | [] => None
  | (k, a) :: d' =>
      match dict_get d' name with
      | Some a' => Some a'
      | None => if String.eqb k name then Some a else None
      end
  end.

(** The class attribute that attribute lookup on an instance of [cls]
    finds under [name]: the entry of the first class of the resolution
    order that has one. *)
Definition type_lookup (cls : ModelClass) (name : string) : option attr :=
  match mro cls with
  | Some l =>
      (fix go (l : list ModelClass) : option attr :=
         match l with
         | [] => None
         | c :: l' =>
             match dict_get (c_dict c) name with
             | Some a => Some a
             | None => go l'
             end
         end) l
  | None => None
  end.

(** ** The store *)

Record obj := mkObj {
  o_class : ModelClass;
  _data : gmap string val
}.

Abbreviation heap := (list obj).

(** What the library takes from its environment: the model classes by
    name, and [strftime] / [strptime] of the datetime library
    ([strptime] is [None] where Python raises [ValueError]). *)
Record env := mkEnv {
  classes : gmap string ModelClass;
  strftime : Z → string → string;
  strptime : string → string → option Z
}.

Definition M (A : Type) : Type := heap → outcome A * heap.

Definition ret {A} (a : A) : M A := λ h, (Ok a, h).
Definition raise {A} (e : exn) : M A := λ h, (Raise e, h).
Definition out_of_fuel {A} : M A := λ h, (OutOfFuel, h).
Definition bind {A B} (c : M A) (k : A → M B) : M B :=
  λ h, match c h with
       | (Ok a, h') => k a h'
       | (Raise e, h') => (Raise e, h')
       | (OutOfFuel, h') => (OutOfFuel, h')
       end.
(** A computation that only reads the store. *)
Definition reading {A} (f : heap → outcome A) : M A := λ h, (f h, h).

Notation "x <- c ;; k" := (bind c (λ x, k))
  (at level 100, c at next level, right associativity).

Fixpoint for_ {A} (l : list A) (body : A → M unit) : M unit :=
  match l with
  | [] => ret tt
  | x :: l' => _ <- body x ;; for_ l' body
  end.

Fixpoint mapM {A B} (f : A → M B) (l : list A) : M (list B) :=
  match l with
  | [] => ret []
  | x :: l' => y <- f x ;; ys <- mapM f l' ;; ret (y :: ys)
  end.

(** Allocation of a new instance: [object.__new__] with [_data = {}]. *)
Definition alloc (cls : ModelClass) : M addr :=
  λ h, (Ok (List.length h), h ++ [mkObj cls ∅]).

(** [instance._data[self] = value] *)
Definition store (instance : addr) (name : string) (value : val) : M unit :=
  λ h, match h !! instance with
       | Some o => (Ok tt, <[instance := mkObj (o_class o) (<[name := value]> (_data o))]> h)
       | None => (Raise SystemError, h)
       end.

(** The same sequencing for computations that only read the store. *)
Definition bindo {A B} (c : outcome A) (k : A → outcome B) : outcome B :=
  match c with
  | Ok a => k a
  | Raise e => Raise e
  | OutOfFuel => OutOfFuel
  end.

Notation "x <~ c ;; k" := (bindo c (λ x, k))
  (at level 100, c at next level, right associativity).

Fixpoint mapO {A B} (f : A → outcome B) (l : list A) : outcome (list B) :=
  match l with
  | [] => Ok []
  | x :: l' => y <~ f x ;; ys <~ mapO f l' ;; Ok (y :: ys)
  end.

(** ** Python builtins used by the library *)

Definition is_space (c : ascii) : bool :=
  let n := nat_of_ascii c in
  (Nat.eqb n 32 || (Nat.leb 9 n && Nat.leb n 13))%bool.

Definition digit_of (c : ascii) : option Z :=
  let n := Z.of_nat (nat_of_ascii c) in
  if ((48 <=? n) && (n <=? 57))%bool then Some (n - 48) else None.

Fixpoint lstrip (s : string) : string :=
  match s with
  | String c r => if is_space c then lstrip r else s
  | EmptyString => s
  end.

Fixpoint all_space (s : string) : bool :=
  match s with
  | String c r => (is_space c && all_space r)%bool
  | EmptyString => true
  end.

Fixpoint read_digits (acc : Z) (seen : bool) (s : string) : option Z :=
  match s with
  | EmptyString => if seen then Some acc else None
  | String c r =>
      match digit_of c with
      | Some d => read_digits (10 * acc + d) true r
      | None => if (seen && all_space s)%bool then Some acc else None
      end
  end.

(** [int(s)] on a string, base 10: surrounding blanks, an optional sign,
    decimal digits.  [None] where Python raises [ValueError]. *)
Definition int_of_string (s : string) : option Z :=
  match lstrip s with
  | String "+" r => read_digits 0 false (lstrip r)
  | String "-" r => Z.opp <$> read_digits 0 false (lstrip r)
  | r => read_digits 0 false r
  end.

(** [int(value)] for a value other than [None]. *)
Definition py_int (value : val) : outcome val :=
  match value with
  | VInt z => Ok (VInt z)
  | VBool b => Ok (VInt (if b then 1 else 0))
  | VStr s => match int_of_string s with
              | Some z => Ok (VInt z)
              | None => Raise ValueError
              end
  | _ => Raise TypeError
  end.

(** [hash(k)] succeeds. *)
Fixpoint hashable (k : val) : bool :=
  match k with
  | VList _ | VDict _ => false
  | VTuple l => forallb hashable l
  | _ => true
  end.

(** Equality of dict keys: [==] on hashable values.  Model instances
    compare by identity. *)
Fixpoint key_eqb (x y : val) : bool :=
  match x, y with
  | VNone, VNone => true
  | VBool a, VBool b => Bool.eqb a b
  | VBool a, VInt z | VInt z, VBool a => z =? (if a then 1 else 0)
  | VInt a, VInt b => a =? b
  | VStr a, VStr b => String.eqb a b
  | VDateTime a, VDateTime b => a =? b
  | VObj a, VObj b => Nat.eqb a b
  | VTuple l1, VTuple l2 =>
      (fix go (l1 l2 : list val) : bool :=
         match l1, l2 with
         | [], [] => true
         | a :: l1', b :: l2' => (key_eqb a b && go l1' l2')%bool
         | _, _ => false
         end) l1 l2
  | _, _ => false
  end.

Fixpoint dict_replace (d : list (val * val)) (k v : val) : option (list (val * val)) :=
  match d with
  | [] => None
  | (k', v') :: d' =>
      if key_eqb k' k then Some ((k', v) :: d')
      else (λ r, (k', v') :: r) <$> dict_replace d' k v
  end.

(** [d[k] = v] *)
Definition dict_setitem (d : list (val * val)) (k v : val) : outcome (list (val * val)) :=
  if hashable k then
    match dict_replace d k v with
    | Some d' => Ok d'
    | None => Ok (d ++ [(k, v)])
    end
  else Raise TypeError.

Definition chars (s : string) : list val :=
  map (λ c, VStr (String c EmptyString)) (list_ascii_of_string s).

(** The elements [map(f, value)] walks over.  A model instance has
    [__getitem__] and no [__iter__]: iteration asks it for item [0]. *)
Definition py_iter (h : heap) (value : val) : outcome (list val) :=
  match value with
  | VList l | VTuple l => Ok l
  | VStr s => Ok (chars s)
  | VDict d => Ok (map fst d)
  | VObj a => match h !! a with
              | Some o => Raise (FieldError (c_name (o_class o)) (VInt 0))
              | None => Raise SystemError
              end
  | _ => Raise TypeError
  end.

(** The keyword arguments of a call that unpacks the mapping [s] with a
    double star. *)
Fixpoint string_keys (d : list (val * val)) : option (list (string * val)) :=
  match d with
  | [] => Some []
  | (VStr k, v) :: d' => (λ r, (k, v) :: r) <$> string_keys d'
  | _ => None
  end.

Definition as_kwargs (s : val) : outcome (list (string * val)) :=
  match s with
  | VDict d => match string_keys d with
               | Some kwargs => Ok kwargs
               | None => Raise TypeError
               end
  | _ => Raise TypeError
  end.

(** [isinstance(value, model)] for the model class named [model]. *)
Definition isinstance (h : heap) (value : val) (model : string) : bool :=
  match value with
  | VObj a => match h !! a with
              | Some o => bool_decide (model ∈ class_names (o_class o))
              | None => false
              end
  | _ => false
  end.

(** [model and not isinstance(value, model)] *)
Definition not_instance (h : heap) (model : option string) (value : val) : bool :=
  match model with
  | Some m => negb (isinstance h value m)
  | None => false
  end.

(** ** Field write path and conversions ([fields.py]) *)

(** [Field.__get__]: [instance._data.get(self, self.default)], for the
    descriptor [f] declared under [name]. *)
Definition Field_get (f : Field) (name : string) (o : obj) : val :=
  match _data o !! name with
  | Some v => v
  | None => default f
  end.

Section FieldWrite.
Context (E : env).
(** The constructor call of a model class on keyword arguments. *)
Variable Model_call : ModelClass → list (string * val) → M addr.

(** [self.model] called on the mapping [s] unpacked as keywords; the
    keywords are bound by the call itself ([Model_call]). *)
Definition new_model (model : string) (s : val) : M val :=
  match classes E !! model with
  | Some cls => kwargs <- reading (λ _, as_kwargs s) ;;
                self <- Model_call cls kwargs ;;
                ret (VObj self)
  | None => raise SystemError
  end.

(** The value [IntegerField.__set__] passes on to [Field.__set__]. *)
Definition IntegerField_coerce (value : val) : M val :=
  match value with
  | VNone => ret VNone
  | _ =>
      match py_int value with
      | Ok value => ret value
      | Raise ValueError => raise ConversionError
      | Raise e => raise e
      | OutOfFuel => out_of_fuel
      end
  end.

Definition IntegerField_set (instance : addr) (name : string) (value : val) : M unit :=
  value <- IntegerField_coerce value ;;
  store instance name value.

(** The value [EmbeddedField.__set__] passes on. *)
Definition EmbeddedField_coerce (model : string) (value : val) : M val :=
  if is_dict value then new_model model value else ret value.

Definition EmbeddedField_set (model : string) (instance : addr) (name : string)
    (value : val) : M unit :=
  value <- EmbeddedField_coerce model value ;;
  store instance name value.

Definition ListField_to_python (model : option string) (value : val) : M val :=
  if truthy value then
    items <- reading (λ h, py_iter h value) ;;
    mapped <- mapM (λ s, match model with
                         | Some m => new_model m s
                         | None => ret s
                         end) items ;;
    ret (if truthy (VList mapped) then VList mapped else value)
  else ret value.

(** The value [ListField.__set__] passes on. *)
Definition ListField_coerce (model : option string) (value : val) : M val :=
  match value, model with
  | VList (first :: _), Some m
  | VTuple (first :: _), Some m =>
      is_model <- reading (λ h, Ok (isinstance h first m)) ;;
      if negb is_model then ListField_to_python model value else ret value
  | _, _ => ret value
  end.

Definition ListField_set (model : option string) (instance : addr) (name : string)
    (value : val) : M unit :=
  value <- ListField_coerce model value ;;
  store instance name value.

Fixpoint DictField_to_python_loop (key_model value_model : option string)
    (items result : list (val * val)) : M (list (val * val)) :=
  match items with
  | [] => ret result
  | (key, value) :: items' =>
      key <- match key_model with Some m => new_model m key | None => ret key end ;;
      value <- match value_model with Some m => new_model m value | None => ret value end ;;
      result <- reading (λ _, dict_setitem result key value) ;;
      DictField_to_python_loop key_model value_model items' result
  end.

Definition DictField_to_python (key_model value_model : option string) (value : val)
    : M val :=
  if negb (truthy value) then ret VNone
  else match value with
       | VDict d => result <- DictField_to_python_loop key_model value_model d [] ;;
                    ret (VDict result)
       | _ => raise AttributeError
       end.

(** The value [DictField.__set__] passes on. *)
Definition DictField_coerce (key_model value_model : option string) (value : val)
    : M val :=
  match value with
  | VDict ((first_key, first_value) :: _) =>
      if (bool_decide (is_Some key_model) || bool_decide (is_Some value_model))%bool then
        convert <- reading (λ h, Ok (not_instance h value_model first_value
                                     || not_instance h key_model first_key)%bool) ;;
        if (convert : bool) then DictField_to_python key_model value_model value
        else ret value
      else ret value
  | _ => ret value
  end.

Definition DictField_set (key_model value_model : option string) (instance : addr)
    (name : string) (value : val) : M unit :=
  value <- DictField_coerce key_model value_model value ;;
  store instance name value.

Definition DateTimeField_to_python (format value : val) : outcome val :=
  match value with
  | VDateTime _ => Ok value
  | _ =>
      if truthy value then
        match value, format with
        | VStr s, VStr fmt => match strptime E s fmt with
                              | Some t => Ok (VDateTime t)
                              | None => Raise ValueError
                              end
        | _, _ => Raise TypeError
        end
      else Ok VNone
  end.

(** [field.to_python(value)], by the class of the field. *)
Definition Field_to_python (f : Field) (value : val) : M val :=
  match kind f with
  | KList model => ListField_to_python model value
  | KDict key_model value_model _ _ => DictField_to_python key_model value_model value
  | KDateTime format => reading (λ _, DateTimeField_to_python format value)
  | _ => ret value
  end.

(** [field.__set__(instance, value)], by the class of the field; [name]
    is the attribute the descriptor is declared under. *)
Definition Field_set (f : Field) (instance : addr) (name : string) (value : val)
    : M unit :=
  match kind f with
  | KInteger => IntegerField_set instance name value
  | KEmbedded model => EmbeddedField_set model instance name value
  | KList model => ListField_set model instance name value
  | KDict key_model value_model _ _ => DictField_set key_model value_model instance name value
  | _ => store instance name value
  end.
End FieldWrite.

Section FieldToPlain.
Context (E : env) (h : heap).
(** [instance.to_plain()] of a model instance. *)
Variable instance_to_plain : addr → outcome val.

(** [isinstance(s, Model) and s.to_plain() or s] *)
Definition plain_or_self (s : val) : outcome val :=
  match s with
  | VObj a => p <~ instance_to_plain a ;; Ok (if truthy p then p else s)
  | _ => Ok s
  end.

Definition EmbeddedField_to_plain (value : val) : outcome val :=
  if truthy value then
    match value with
    | VObj a => p <~ instance_to_plain a ;; Ok (if truthy p then p else VNone)
    | _ => Raise AttributeError
    end
  else Ok VNone.

Definition ListField_to_plain (value : val) : outcome val :=
  if truthy value then
    items <~ py_iter h value ;;
    mapped <~ mapO plain_or_self items ;;
    Ok (if truthy (VList mapped) then VList mapped else VNone)
  else Ok VNone.

Fixpoint DictField_to_plain_loop (items result : list (val * val))
    : outcome (list (val * val)) :=
  match items with
  | [] => Ok result
  | (key, value) :: items' =>
      key <~ plain_or_self key ;;
      value <~ plain_or_self value ;;
      result <~ dict_setitem result key value ;;
      DictField_to_plain_loop items' result
  end.

Definition DictField_to_plain (value : val) : outcome val :=
  if negb (truthy value) then Ok VNone
  else match value with
       | VDict d => result <~ DictField_to_plain_loop d [] ;; Ok (VDict result)
       | _ => Raise AttributeError
       end.

Definition DateTimeField_to_plain (format value : val) : outcome val :=
  if truthy value then
    match value, format with
    | VDateTime t, VStr fmt =>
        let s := VStr (strftime E t fmt) in
        Ok (if truthy s then s else value)
    | VDateTime _, _ => Raise TypeError
    | _, _ => Raise AttributeError
    end
  else Ok value.

(** [field.to_plain(value)], by the class of the field. *)
Definition Field_to_plain (f : Field) (value : val) : outcome val :=
  match kind f with
  | KEmbedded _ => EmbeddedField_to_plain value
  | KList _ => ListField_to_plain value
  | KDict _ _ _ _ => DictField_to_plain value
  | KDateTime format => DateTimeField_to_plain format value
  | _ => Ok value
  end.
End FieldToPlain.

(** ** Model instances ([models.py]) *)

(** The entry of [_fields] under the key [k], if any: [k in self._fields]
    and [self._fields[k]]. *)
Definition schema_lookup (cls : ModelClass) (k : val) : outcome (option (string * Field)) :=
  match k with
  | VStr name => Ok ((λ f, (name, f)) <$> c_fields cls !! name)
  | _ => if hashable k then Ok None else Raise TypeError
  end.

Definition instance (self : addr) : M obj :=
  reading (λ h, match h !! self with
                | Some o => Ok o
                | None => Raise SystemError
                end).

(** The binding of the keywords of a call to a function whose first
    parameter is [first] and which takes the others as [**kwargs]. *)
Definition bind_keywords (first : string) (kwargs : list (string * val)) : M unit :=
  if bool_decide (first ∈ kwargs.*1) then raise TypeError else ret tt.

(** The call of the class [cls] with the keywords [kwargs]:
    [Model.__new__], whose first parameter is [cls], followed by
    [Model.__init__], whose first parameter is [self].  The assignment
    [setattr(self, k, v)] is made through the entry of [_fields]. *)
Fixpoint Model_new (fuel : nat) (E : env) (cls : ModelClass) (kwargs : list (string * val))
    : M addr :=
  match fuel with
  | O => out_of_fuel
  | S fuel' =>
      _ <- bind_keywords "cls" kwargs ;;
      self <- alloc cls ;;
      _ <- bind_keywords "self" kwargs ;;
      _ <- for_ kwargs (λ kv,
             match c_fields cls !! kv.1 with
             | None => raise (FieldError (c_name cls) (VStr kv.1))
             | Some f => Field_set E (Model_new fuel' E) f self kv.1 kv.2
             end) ;;
      ret self
  end.

(** [Model.__contains__] *)
Definition Model_contains (self : addr) (k : val) : M bool :=
  o <- instance self ;;
  entry <- reading (λ _, schema_lookup (o_class o) k) ;;
  ret (bool_decide (is_Some entry)).

(** [Model.__getitem__].  [getattr(self, k)] is read through the entry of
    [_fields]. *)
Definition Model_getitem (self : addr) (k : val) : M val :=
  o <- instance self ;;
  entry <- reading (λ _, schema_lookup (o_class o) k) ;;
  match entry with
  | None => raise (FieldError (c_name (o_class o)) k)
  | Some (name, f) => ret (Field_get f name o)
  end.

(** [Model.__setitem__].  [setattr(self, k, v)] is made through the entry
    of [_fields]. *)
Definition Model_setitem (fuel : nat) (E : env) (self : addr) (k v : val) : M unit :=
  o <- instance self ;;
  entry <- reading (λ _, schema_lookup (o_class o) k) ;;
  match entry with
  | None => raise (FieldError (c_name (o_class o)) k)
  | Some (name, f) => Field_set E (Model_new fuel E) f self name v
  end.

(** [self._fields[k]] *)
Definition Model_field (self : addr) (k : val) : M Field :=
  o <- instance self ;;
  entry <- reading (λ _, schema_lookup (o_class o) k) ;;
  match entry with
  | None => raise KeyError
  | Some (_, f) => ret f
  end.

(** [Model._update] *)
Fixpoint Model__update (fuel : nat) (E : env) (self : addr) (values : list (val * val))
    (plain : bool) : M unit :=
  match fuel with
  | O => out_of_fuel
  | S fuel' =>
      for_ values (λ kv,
        let k := kv.1 in
        let v := kv.2 in
        declared <- Model_contains self k ;;
        value <- (if (declared : bool)
                  then x <- Model_getitem self k ;; ret (if truthy x then x else VNone)
                  else ret VNone) ;;
        if negb declared then ret tt
        else match value, v with
             | VObj nested, VDict d => Model__update fuel' E nested d plain
             | _, _ =>
                 if plain then
                   f <- Model_field self k ;;
                   x <- Field_to_python E (Model_new fuel' E) f v ;;
                   Model_setitem fuel' E self k x
                 else Model_setitem fuel' E self k v
             end)
  end.

(** [Model.update(self, dict_=None, plain_=False, **kwargs)] *)
Definition Model_update (fuel : nat) (E : env) (self : addr) (dict_ : val) (plain_ : bool)
    (kwargs : list (string * val)) : M unit :=
  match dict_ with
  | VNone => Model__update fuel E self (map (λ kv, (VStr kv.1, kv.2)) kwargs) plain_
  | VDict d => Model__update fuel E self d plain_
  | _ => raise AttributeError
  end.

(** [Model.to_plain].  [getattr(self, field)] is read through the entry
    of [_fields]. *)
Fixpoint Model_to_plain (fuel : nat) (E : env) (h : heap) (self : addr) : outcome val :=
  match fuel with
  | O => OutOfFuel
  | S fuel' =>
      match h !! self with
      | None => Raise SystemError
      | Some o =>
          result <~ mapO (λ nf,
                      p <~ Field_to_plain E h (Model_to_plain fuel' E h) nf.2
                             (Field_get nf.2 nf.1 o) ;;
                      Ok (VStr nf.1, p))
                    (map_to_list (c_fields (o_class o))) ;;
          Ok (VDict result)
      end
  end.

(** [Model.from_plain_dict] *)
Definition Model_from_plain_dict (fuel : nat) (E : env) (cls : ModelClass)
    (plain_dict : val) : M addr :=
  obj <- Model_new fuel E cls [] ;;
  _ <- Model_update fuel E obj plain_dict true [] ;;
  ret obj.

(** ** Vocabulary of the statements *)

Definition required_part (kwargs : gmap string val) : list validator :=
  if truthy (kwargs_get kwargs "required") then [builtin_validators.Required] else [].

Definition membership_part (kwargs : gmap string val) : list validator :=
  if truthy (kwargs_get kwargs "choices")
  then [builtin_validators.In (kwargs_get kwargs "choices")] else [].

Definition bounds_part (kwargs : gmap string val) : list validator :=
  (if truthy (kwargs_get kwargs "min_value")
   then [builtin_validators.Min (kwargs_get kwargs "min_value")] else []) ++
  (if truthy (kwargs_get kwargs "max_value")
   then [builtin_validators.Max (kwargs_get kwargs "max_value")] else []).

(** The chain in the order the specification fixes: Required, In, the
    type-specific validator, the caller's validators. *)
Definition spec_chain (type_specific : validator) (custom : list validator)
    (kwargs : gmap string val) : list validator :=
  required_part kwargs ++ membership_part kwargs ++ [type_specific] ++ custom.

(** An entry of an element specification that names a nested model: a
    model class or a [Model] validator. *)
Definition is_model_item (item : spec_item) : bool :=
  match item with
  | SClass _ => true
  | SValidator (builtin_validators.Model _) => true
  | _ => false
  end.

Definition count_models (items : list spec_item) : nat :=
  List.length (List.filter is_model_item items).

(** The mapping key [kv.1] is declared by the class (or cannot be looked
    up at all). *)
Definition declared_key (cls : ModelClass) (kv : val * val) : bool :=
  match schema_lookup cls kv.1 with
  | Ok None => false
  | _ => true
  end.

(** A three-level hierarchy: [A] declares [x], [B(A)] declares [y],
    [C(B)] declares [z]. *)
Definition class_A : ModelClass :=
  ModelMeta_new "A" [] [("x", AField (IntegerField [] ∅))].
Definition class_B : ModelClass :=
  ModelMeta_new "B" [class_A] [("y", AField (StringField [] ∅))].
Definition class_C : ModelClass :=
  ModelMeta_new "C" [class_B] [("z", AField (BooleanField [] ∅))].

Definition is_container (k : fkind) : bool :=
  match k with
  | KEmbedded _ | KList _ | KDict _ _ _ _ => true
  | _ => false
  end.

(** The value a field's [__set__] stores for [value]: every [__set__]
    ends in [Field.__set__] on the value it has coerced. *)
Definition Field_coerce (E : env) (Model_call : ModelClass → list (string * val) → M addr)
    (f : Field) (value : val) : M val :=
  match kind f with
  | KInteger => IntegerField_coerce value
  | KEmbedded model => EmbeddedField_coerce E Model_call model value
  | KList model => ListField_coerce E Model_call model value
  | KDict key_model value_model _ _ => DictField_coerce E Model_call key_model value_model value
  | _ => ret value
  end.

(** One iteration of the loop of [Model._update], the recursive calls made
    with fuel [fuel']. *)
Definition update_step (fuel' : nat) (E : env) (self : addr) (plain : bool)
    (kv : val * val) : M unit :=
  let k := kv.1 in
  let v := kv.2 in
  declared <- Model_contains self k ;;
  value <- (if (declared : bool)
            then x <- Model_getitem self k ;; ret (if truthy x then x else VNone)
            else ret VNone) ;;
  if negb declared then ret tt
  else match value, v with
       | VObj nested, VDict d => Model__update fuel' E nested d plain
       | _, _ =>
           if plain then
             f <- Model_field self k ;;
             x <- Field_to_python E (Model_new fuel' E) f v ;;
             Model_setitem fuel' E self k x
           else Model_setitem fuel' E self k v
       end.

(** ** Ordinary classes

    The classes on which the accessors of an instance, which go through
    [_fields], do what [getattr] and [setattr] do. *)

(** The descriptor that [getattr] and [setattr] on an instance of [cls]
    reach under [name]: the field that attribute lookup finds on the
    class, if it finds one. *)
Definition descriptor (cls : ModelClass) (name : string) : option Field :=
  match type_lookup cls name with
  | Some (AField f) => Some f
  | _ => None
  end.

(** The members of [Model] the library itself uses, and the two names a
    keyword cannot have. *)
Definition model_members : list string :=
  ["_data"; "_fields"; "_update"; "_Model__raise_field_error"; "update";
   "validate"; "to_dict"; "to_plain"; "to_json"; "from_plain_dict";
   "from_json"; "self"; "cls"].

(** A name that hides no member of [Model] and no special method. *)
Definition plain_name (name : string) : bool :=
  negb (bool_decide (name ∈ model_members)) && negb (String.prefix "__" name).

(** The names that occur in the [__dict__] of a class of the resolution
    order. *)
Definition reachable_names (cls : ModelClass) : list string :=
  match mro cls with
  | Some l => flat_map (λ c, (c_dict c).*1) l
  | None => []
  end.

(** Every name of [_fields] resolves to the field recorded under it. *)
Definition resolves (cls : ModelClass) : Prop :=
  map_Forall (λ name f, type_lookup cls name = Some (AField f)) (c_fields cls).

(** Every name that resolves to a field is a name of [_fields]. *)
Definition covers (cls : ModelClass) : bool :=
  forallb (λ name, match type_lookup cls name with
                   | Some (AField _) => bool_decide (is_Some (c_fields cls !! name))
                   | _ => true
                   end) (reachable_names cls).

(** The class has a resolution order, and all names in it are plain. *)
Definition plain_names (cls : ModelClass) : bool :=
  bool_decide (is_Some (mro cls)) && forallb plain_name (reachable_names cls).

(** An ordinary class: [_fields] is what attribute lookup reaches, the
    fields are pairwise different objects (so that a slot of [_data] per
    name is a slot per descriptor), and the names are plain. *)
Definition ordinary (cls : ModelClass) : Prop :=
  resolves cls ∧ covers cls = true
  ∧ NoDup (map_to_list (c_fields cls)).*2 ∧ plain_names cls = true.

(** The model classes of the environment are ordinary. *)
Definition env_ordinary (E : env) : Prop :=
  map_Forall (λ _ cls, ordinary cls) (classes E).

(** The instances of the store are of ordinary classes. *)
Definition heap_ordinary (h : heap) : Prop :=
  Forall (λ o, ordinary (o_class o)) h.

(** Classes that are not ordinary.  [AB(A2)] has [x = 1] in its body
    over the field [x] it inherits; [AB2(A, A2)] and [BA(A2, A)] have two
    bases that declare [x], with an IntegerField and with a StringField;
    [Twice] has one field object under two names. *)
Definition class_A2 : ModelClass :=
  ModelMeta_new "A2" [] [("x", AField (StringField [] ∅))].
Definition class_AB : ModelClass :=
  ModelMeta_new "AB" [class_A2] [("x", AOther (VInt 1))].
Definition class_AB2 : ModelClass :=
  ModelMeta_new "AB2" [class_A; class_A2] [].
Definition class_BA : ModelClass :=
  ModelMeta_new "BA" [class_A2; class_A] [].
Definition class_Twice : ModelClass :=
  ModelMeta_new "Twice" []
    [("a", AField (StringField [] ∅)); ("b", AField (StringField [] ∅))].

(** [getattr(instance, name)] for a name that attribute lookup on the
    class of the instance resolves to a field: a field is a data
    descriptor, so that its [__get__] answers.  Other names are left
    out. *)
Definition getattr (h : heap) (a : addr) (name : string) : option val :=
  match h !! a with
  | Some o => match descriptor (o_class o) name with
              | Some f => Some (Field_get f name o)
              | None => None
              end
  | None => None
  end.

(** ** Footprints of computations on the store *)

(** [keeps h0 c]: [c] leaves the objects of [h0] alone. *)
Definition keeps (h0 : heap) {A} (c : M A) : Prop :=
  ∀ h r h', h0 `prefix_of` h → c h = (r, h') → h0 `prefix_of` h'.

(** [grows c]: [c] only allocates. *)
Definition grows {A} (c : M A) : Prop :=
  ∀ h r h', c h = (r, h') → h `prefix_of` h'.

(** [evolves h h']: every object of [h] is still there in [h'], with its
    class. *)
Definition evolves (h h' : heap) : Prop :=
  ∀ a o, h !! a = Some o → ∃ o', h' !! a = Some o' ∧ o_class o' = o_class o.

Definition stable {A} (c : M A) : Prop :=
  ∀ h r h', c h = (r, h') → evolves h h'.

(** [frames self c]: among the objects present before, [c] modifies at
    most [self]. *)
Definition frames (self : addr) {A} (c : M A) : Prop :=
  ∀ h r h' a o, c h = (r, h') → a ≠ self → h !! a = Some o → h' !! a = Some o.

(** [writes_only self K c]: [c] keeps the class of [self] and changes its
    [_data] at most under the names that occur as keys in [K]. *)
Definition writes_only (self : addr) (K : list val) {A} (c : M A) : Prop :=
  ∀ h r h' o, c h = (r, h') → h !! self = Some o →
    ∃ o', h' !! self = Some o' ∧ o_class o' = o_class o
          ∧ ∀ j, VStr j ∉ K → _data o' !! j = _data o !! j.

(** The classes of the examples of the specification. *)
Definition class_Point : ModelClass :=
  ModelMeta_new "Point" []
    [("x", AField (IntegerField [] {["required" := VBool true]}));
     ("y", AField (IntegerField [] {["default" := VInt 0]}))].
Definition class_Box : ModelClass :=
  ModelMeta_new "Box" [] [("inner", AField (EmbeddedField "Point" [] ∅))].
Definition env0 : env :=
  mkEnv (list_to_map [("Point", class_Point); ("Box", class_Box)])
        (λ _ _, EmptyString) (λ _ _, None).

(** ** Logical value and the round trip *)

Definition is_obj (v : val) : bool :=
  match v with VObj _ => true | _ => false end.

(** Equality in logical value, in a given store: the same value, or
    lists and dicts equal entry by entry, or instances of the same class
    that read equal values under every name that attribute lookup
    resolves to a field, be it in [_fields] or not. *)
Inductive veq (h : heap) : val → val → Prop :=
| veq_same v : veq h v v
| veq_list l1 l2 : Forall2 (veq h) l1 l2 → veq h (VList l1) (VList l2)
| veq_dict d1 d2 :
    Forall2 (λ kv1 kv2, veq h kv1.1 kv2.1 ∧ veq h kv1.2 kv2.2) d1 d2 →
    veq h (VDict d1) (VDict d2)
| veq_obj a b oa ob :
    h !! a = Some oa → h !! b = Some ob → o_class oa = o_class ob →
    (∀ name f, type_lookup (o_class oa) name = Some (AField f) →
               veq h (Field_get f name oa) (Field_get f name ob)) →
    veq h (VObj a) (VObj b).

(** The keys of a dict as Python can hold them and as the plain form keeps
    them: hashable, no model instance, pairwise different. *)
Fixpoint keys_ok (seen keys : list val) : bool :=
  match keys with
  | [] => true
  | k :: keys' =>
      hashable k && negb (is_obj k) && forallb (λ k', negb (key_eqb k' k)) seen
      && keys_ok (seen ++ [k]) keys'
  end.

(** The values of a field for which the plain form can be read back:
    [nested_ok m] tells which values are instances of the model [m] that
    can themselves be read back; [top] tells a field of the instance
    handed to [from_plain_dict] from a field of a nested instance. *)
Definition rt_field (E : env) (nested_ok : string → val → Prop) (top : bool)
    (f : Field) (v : val) : Prop :=
  match kind f with
  | KInteger => v = VNone ∨ ∃ z, v = VInt z
  | KEmbedded m => v = VNone ∨ nested_ok m v
  | KList None =>
      v = VNone ∨ ∃ l, v = VList l ∧ l ≠ [] ∧ Forall (λ x, is_obj x = false) l
  | KList (Some m) =>
      v = VNone ∨ ∃ l, v = VList l ∧ l ≠ [] ∧ Forall (nested_ok m) l
  | KDict None None _ _ =>
      v = VNone ∨ ∃ d, v = VDict d ∧ d ≠ [] ∧ keys_ok [] d.*1 = true
                       ∧ Forall (λ kv, is_obj kv.2 = false) d
  | KDict None (Some m) _ _ =>
      v = VNone ∨ ∃ d, v = VDict d ∧ d ≠ [] ∧ keys_ok [] d.*1 = true
                       ∧ Forall (λ kv, nested_ok m kv.2) d
  | KDict (Some _) _ _ _ => v = VNone
  | KDateTime format =>
      v = VNone ∨
      (top = true ∧ ∃ t fmt, v = VDateTime t ∧ format = VStr fmt
                             ∧ strftime E t fmt ≠ EmptyString
                             ∧ strptime E (strftime E t fmt) fmt = Some t)
  | _ => True
  end.

(** [v] is an instance of the model registered as [m], with at least one
    field, all of whose fields hold values that can be read back; nesting
    depth at most [n]. *)
Fixpoint rt_nested (n : nat) (E : env) (h : heap) (m : string) (v : val) : Prop :=
  match n with
  | O => False
  | S n' =>
      ∃ a o, v = VObj a ∧ h !! a = Some o
             ∧ classes E !! m = Some (o_class o) ∧ c_name (o_class o) = m
             ∧ c_fields (o_class o) ≠ ∅
             ∧ map_Forall (λ name f,
                 rt_field E (rt_nested n' E h) false f (Field_get f name o))
                 (c_fields (o_class o))
  end.

(** The instances [from_plain_dict] reads back from their plain form: no
    field has a model instance as default, and every field holds a value
    that can be read back. *)
Definition round_trippable (n : nat) (E : env) (h : heap) (a : addr) : Prop :=
  ∃ o, h !! a = Some o
       ∧ map_Forall (λ name f,
           is_obj (default f) = false
           ∧ rt_field E (rt_nested n E h) true f (Field_get f name o))
           (c_fields (o_class o)).

(** [agree lo h1 h2]: from address [lo] on, [h2] holds the objects of [h1]. *)
Definition agree (lo : nat) (h1 h2 : heap) : Prop :=
  ∀ i o, (lo ≤ i)%nat → h1 !! i = Some o → h2 !! i = Some o.

(** [value] is an instance of [model], when a model is given. *)
Definition instance_of (model : option string) (h : heap) (value : val) : Prop :=
  match model with
  | Some m => isinstance h value m = true
  | None => True
  end.

(** [builds h0 model v c]: run in any store that extends [h0], [c] only
    allocates and returns an instance of [model] that is logically equal
    to [v] in every later store that keeps [h0] and the objects [c]
    allocated. *)
Definition builds (h0 : heap) (model : option string) (v : val) (c : M val) : Prop :=
  ∀ h, h0 `prefix_of` h →
    ∃ x ext, c h = (Ok x, h ++ ext)
             ∧ instance_of model (h ++ ext) x
             ∧ ∀ h'', h0 `prefix_of` h'' → agree (List.length h) (h ++ ext) h'' → veq h'' v x.

(** What the round trip of a nested instance [v] of the model [m] gives:
    a plain form that is a non-empty mapping, from which the constructor
    of [m] builds an equal instance. *)
Definition nested_spec (n : nat) (E : env) (h0 : heap) (m : string) (v : val) : Prop :=
  ∃ a p, v = VObj a ∧ Model_to_plain n E h0 a = Ok p
         ∧ truthy p = true ∧ is_dict p = true
         ∧ builds h0 (Some m) v (new_model E (Model_new n E) m p).

(** The value stored for the plain form [p] of a field: through
    [to_python] and [__set__] for a field of the instance handed to
    [from_plain_dict], through [__set__] alone for a field of a nested
    instance. *)
Definition read_back (n : nat) (E : env) (top : bool) (f : Field) (p : val) : M val :=
  if top
  then x0 <- Field_to_python E (Model_new n E) f p ;; Field_coerce E (Model_new n E) f x0
  else Field_coerce E (Model_new n E) f p.

(** The field of a fallible constructor, for use in class bodies. *)
Definition the_field (r : outcome Field) : Field :=
  match r with
  | Ok f => f
  | _ => Field_init KField [] ∅
  end.

(** A model with list, dict and embedded fields. *)
Definition class_Bag : ModelClass :=
  ModelMeta_new "Bag" []
    [("tags", AField (the_field (ListField ANone [] ∅)));
     ("points", AField (the_field (ListField (AOne (SClass "Point")) [] ∅)));
     ("named", AField (the_field (DictField ANone (AOne (SClass "Point")) [] ∅)));
     ("origin", AField (EmbeddedField "Point" [] ∅));
     ("label", AField (StringField [] ∅))].
Definition env1 : env :=
  mkEnv (list_to_map [("Point", class_Point); ("Box", class_Box); ("Bag", class_Bag)])
        (λ _ _, EmptyString) (λ _ _, None).

(** A bag with two points in a list, one of them also embedded, and one
    under a name. *)
Definition bag0 : obj :=
  mkObj class_Bag
    (list_to_map [("tags", VList [VStr "t"]);
                  ("points", VList [VObj 1%nat; VObj 2%nat]);
                  ("named", VDict [(VStr "a", VObj 3%nat)]);
                  ("origin", VObj 1%nat);
                  ("label", VStr "L")]).
Definition heap_bag : heap :=
  [bag0;
   mkObj class_Point {["x" := VInt 1]};
   mkObj class_Point (<["y" := VInt 5]> {["x" := VInt 2]});
   mkObj class_Point {["x" := VInt 3]}].

(** ** Reachability, for the frame of a nested update *)

(** The model instances a value refers to, at any depth. *)
Fixpoint refs (v : val) : list nat :=
  match v with
  | VObj a => [a]
  | VList l | VTuple l => flat_map refs l
  | VDict d => flat_map (λ kv, let '(k, x) := kv in refs k ++ refs x) d
  | _ => []
  end.

(** The model instances the declared fields of the instance at [a]
    currently hold. *)
Definition children (h : heap) (a : nat) : list nat :=
  match h !! a with
  | Some o =>
      omap (λ nf, match Field_get nf.2 nf.1 o with
                  | VObj b => Some b
                  | _ => None
                  end) (map_to_list (c_fields (o_class o)))
  | None => []
  end.

(** [D] holds the children of each of its members. *)
Definition closedb (h : heap) (D : list nat) : bool :=
  forallb (λ a, forallb (λ b, bool_decide (b ∈ D)) (children h a)) D.

(** No field of the class, or of any class of the environment, has a model
    instance as its default. *)
Definition plain_defaults (cls : ModelClass) : bool :=
  forallb (λ nf, negb (is_obj (default nf.2))) (map_to_list (c_fields cls)).
Definition env_plain_defaults (E : env) : bool :=
  forallb (λ mc, plain_defaults mc.2) (map_to_list (classes E)).

(** Partial correctness of a computation on the store. *)
Definition hoare {A} (P : heap → Prop) (c : M A) (Q : A → heap → Prop) : Prop :=
  ∀ h a h', P h → c h = (Ok a, h') → Q a h'.

(** Every object of [D'] holds children in [D'] only. *)
Definition closed (D' : nat → Prop) (h : heap) : Prop :=
  ∀ a o name f b, D' a → h !! a = Some o →
    c_fields (o_class o) !! name = Some f → Field_get f name o = VObj b → D' b.

(** [D'] holds every address not yet allocated. *)
Definition holds_fresh (D' : nat → Prop) (h : heap) : Prop :=
  ∀ a, (List.length h ≤ a)%nat → D' a.

(** Every instance the value refers to is in [D']. *)
Definition safe (D' : nat → Prop) (v : val) : Prop :=
  ∀ b, b ∈ refs v → D' b.

Definition good_store (D' : nat → Prop) (h : heap) : Prop :=
  closed D' h ∧ holds_fresh D' h.

(** The store is good and, outside [D'] and [X], as it was in [h_init]. *)
Definition framed (D' X : nat → Prop) (h_init h : heap) : Prop :=
  good_store D' h ∧ ∀ a, ¬ D' a → ¬ X a → h !! a = h_init !! a.

(** The record of [x0]: of the class of [on], with the data of [on] under
    every name that is no key of [K], and holding children in [D'] only. *)
Definition record_kept (D' : nat → Prop) (x0 : nat) (on : obj) (K : list val)
    (h : heap) : Prop :=
  ∃ o', h !! x0 = Some o' ∧ o_class o' = o_class on
        ∧ (∀ j, VStr j ∉ K → _data o' !! j = _data on !! j)
        ∧ ∀ name f b, c_fields (o_class o') !! name = Some f →
                      Field_get f name o' = VObj b → D' b.

(** A crate embeds a box, which embeds a point. *)
Definition class_Crate : ModelClass :=
  ModelMeta_new "Crate" [] [("box", AField (EmbeddedField "Box" [] ∅))].
Definition env2 : env :=
  mkEnv (list_to_map [("Point", class_Point); ("Box", class_Box); ("Crate", class_Crate)])
        (λ _ _, EmptyString) (λ _ _, None).
Definition heap_crate : heap :=
  [mkObj class_Crate {["box" := VObj 1%nat]};
   mkObj class_Box {["inner" := VObj 2%nat]};
   mkObj class_Point (<["y" := VInt 1]> {["x" := VInt 1]})].

(** A node refers to another node, or to itself. *)
Definition class_Node : ModelClass :=
  ModelMeta_new "Node" []
    [("next", AField (EmbeddedField "Node" [] ∅));
     ("val", AField (IntegerField [] ∅))].
Definition env_node : env :=
  mkEnv (list_to_map [("Node", class_Node)]) (λ _ _, EmptyString) (λ _ _, None).
(** A node whose [next] is the node itself. *)
Definition heap_loop : heap :=
  [mkObj class_Node (<["val" := VInt 1]> {["next" := VObj 0%nat]})].

(** ** Validation ([Field.validate], [DictField.validate], [Model.validate]) *)

Section Validate.
(** [validator.validate(value)].  The validator classes are those of
    [booby.validators]; what a validator does with a value is a parameter
    here. *)
Variable validator_validate : validator → val → M unit.

(** [Field.validate] *)
Definition Field_validate (f : Field) (value : val) : M unit :=
  for_ (validators f) (λ validator, validator_validate validator value).

(** [value.iteritems()] *)
Definition iteritems (value : val) : outcome (list (val * val)) :=
  match value with
  | VDict d => Ok d
  | _ => Raise AttributeError
  end.

(** [DictField.validate] *)
Definition DictField_validate (f : Field) (key_validators value_validators : list validator)
    (value : val) : M unit :=
  _ <- Field_validate f value ;;
  if (truthy value && (negb (Nat.eqb (List.length key_validators) 0)
                       || negb (Nat.eqb (List.length value_validators) 0)))%bool
  then items <- reading (λ _, iteritems value) ;;
       for_ items (λ kv,
         _ <- for_ key_validators (λ validator, validator_validate validator kv.1) ;;
         for_ value_validators (λ validator, validator_validate validator kv.2))
  else ret tt.

(** [field.validate(value)], by the class of the field. *)
Definition validate (f : Field) (value : val) : M unit :=
  match kind f with
  | KDict _ _ key_validators value_validators =>
      DictField_validate f key_validators value_validators value
  | _ => Field_validate f value
  end.

(** [Model.validate].  [getattr(self, name)] is read through the entry of
    [_fields]. *)
Definition Model_validate (self : addr) : M unit :=
  o <- instance self ;;
  for_ (map_to_list (c_fields (o_class o))) (λ nf,
    o <- instance self ;;
    validate nf.2 (Field_get nf.2 nf.1 o)).
End Validate.

(** ** [Model.to_dict]

    [getattr(self, field)] is read through the entry of [_fields]. *)

Fixpoint Model_to_dict (fuel : nat) (h : heap) (self : addr) : outcome val :=
  match fuel with
  | O => OutOfFuel
  | S fuel' =>
      match h !! self with
      | None => Raise SystemError
      | Some o =>
          result <~ mapO (λ nf,
                      let value := Field_get nf.2 nf.1 o in
                      x <~ match value with
                           | VObj a => Model_to_dict fuel' h a
                           | _ => Ok value
                           end ;;
                      Ok (VStr nf.1, x))
                    (map_to_list (c_fields (o_class o))) ;;
          Ok (VDict result)
      end
  end.

(** ** Vocabulary of the further statements *)

(** The model an entry of an element specification names. *)
Definition item_model (item : spec_item) : option string :=
  match item with
  | SClass m => Some m
  | SValidator (builtin_validators.Model m) => Some m
  | _ => None
  end.

(** The validator an entry is, when it is an instance of a builtin
    validator class other than [Model]. *)
Definition item_builtin (item : spec_item) : option validator :=
  match item with
  | SValidator (builtin_validators.Model _) => None
  | SValidator (builtin_validators.Custom _) => None
  | SValidator v => Some v
  | _ => None
  end.

Definition is_Min (v : validator) : bool :=
  match v with builtin_validators.Min _ => true | _ => false end.
Definition is_Max (v : validator) : bool :=
  match v with builtin_validators.Max _ => true | _ => false end.

(** The values a field of class [k] stores without looking at them:
    every value where [__set__] is [Field.__set__], and what is not a
    mapping for an EmbeddedField. *)
Definition stored_verbatim (k : fkind) (v : val) : bool :=
  match k with
  | KInteger | KList _ | KDict _ _ _ _ => false
  | KEmbedded _ => negb (is_dict v)
  | _ => true
  end.

(** The field classes whose [to_plain] is [Field.to_plain]. *)
Definition plain_to_plain (k : fkind) : bool :=
  match k with
  | KEmbedded _ | KList _ | KDict _ _ _ _ | KDateTime _ => false
  | _ => true
  end.

(** The entries of the mapping of an instance, as [to_dict] and [to_plain]
    list them when nothing is converted. *)
Definition field_items (o : obj) : list (val * val) :=
  map (λ nf, (VStr nf.1, Field_get nf.2 nf.1 o)) (map_to_list (c_fields (o_class o))).

(** A validator semantics for the examples: [String] accepts texts only
    and [Required] refuses [None]; the other validators accept. *)
Definition sample_validate (v : validator) (x : val) : M unit :=
  match v, x with
  | builtin_validators.String, VStr _ => ret tt
  | builtin_validators.String, _ => raise ValueError
  | builtin_validators.Required, VNone => raise ValueError
  | _, _ => ret tt
  end.

(** A model with a dict field that has no models, a datetime field and a
    text field. *)
Definition class_Doc : ModelClass :=
  ModelMeta_new "Doc" []
    [("meta", AField (the_field (DictField (AOne (SValidator builtin_validators.String))
                                   ANone [] ∅)));
     ("when", AField (DateTimeField [] ∅));
     ("title", AField (StringField [] {["required" := VBool true]}))].

(** An environment whose clock prints the instant 0 as "epoch" and reads
    it back. *)
Definition env_clock : env :=
  mkEnv (list_to_map [("Point", class_Point); ("Doc", class_Doc)])
        (λ t _, if t =? 0 then "epoch" else "later")
        (λ s _, if String.eqb s "epoch" then Some 0 else None).

(** * Properties *)

(** ** Field construction *)

Lemma fetch_model_loop_raises items model mv iv e :
  fetch_model_loop items model mv iv = Raise e → e = ConfigurationError.
Proof.
  revert model mv iv.
  induction items as [|item items IH]; intros model mv iv; simpl; [done|].
  destruct item as [m|v|]; [| destruct v |];
    try (destruct model; [by intros [= <-] | by apply IH]); by apply IH.
Qed.

Lemma fetch_model_loop_fuel items model mv iv :
  fetch_model_loop items model mv iv ≠ OutOfFuel.
Proof.
  revert model mv iv.
  induction items as [|item items IH]; intros model mv iv; simpl; [done|].
  destruct item as [m|v|]; [| destruct v |];
    try (destruct model; [done | by apply IH]); by apply IH.
Qed.

(** Once a model has been seen, one more model entry raises. *)
Lemma fetch_model_loop_second items m mv iv :
  (1 ≤ count_models items)%nat →
  fetch_model_loop items (Some m) mv iv = Raise ConfigurationError.
Proof.
  revert mv iv.
  induction items as [|item items IH]; intros mv iv; unfold count_models; simpl; [lia|].
  destruct item as [m'|v|]; [done | destruct v | ]; simpl; try done;
    intros; apply IH; done.
Qed.

Lemma fetch_model_loop_two items mv iv :
  (2 ≤ count_models items)%nat →
  fetch_model_loop items None mv iv = Raise ConfigurationError.
Proof.
  revert mv iv.
  induction items as [|item items IH]; intros mv iv; unfold count_models; simpl; [lia|].
  destruct item as [m'|v|]; [| destruct v |]; simpl; intros Hc;
    try (apply IH; exact Hc);
    apply fetch_model_loop_second; unfold count_models; lia.
Qed.

Lemma counterexample_chain_order :
  validators (IntegerField [builtin_validators.Custom "even"] {["min_value" := VInt 1]})
    = [builtin_validators.Integer; builtin_validators.Custom "even";
       builtin_validators.Min (VInt 1)]
  ∧ validators (IntegerField [builtin_validators.Custom "even"] {["min_value" := VInt 1]})
    ≠ spec_chain builtin_validators.Integer [builtin_validators.Custom "even"]
        {["min_value" := VInt 1]}.
Proof. split; [reflexivity | discriminate]. Qed.

(** C7 (amended).  Every field class puts Required (when [required] is
    true) first, then In (when [choices] is non-empty), then its
    type-specific validator, then the caller's validators in call order;
    IntegerField and FloatField append Min and Max for the bounds given
    after the caller's validators.  A ListField built without extra
    positional validators has the chain Required, In, List. *)
Theorem validator_chain_order (args : list validator) (kwargs : gmap string val) :
  validators (Field_init KField args kwargs)
    = required_part kwargs ++ membership_part kwargs ++ args
  ∧ validators (StringField args kwargs) = spec_chain builtin_validators.String args kwargs
  ∧ validators (BooleanField args kwargs) = spec_chain builtin_validators.Boolean args kwargs
  ∧ validators (EmailField args kwargs) = spec_chain builtin_validators.Email args kwargs
  ∧ validators (DateTimeField args kwargs) = spec_chain builtin_validators.DateTime args kwargs
  ∧ (∀ model, validators (EmbeddedField model args kwargs)
              = spec_chain (builtin_validators.Model model) args kwargs)
  ∧ validators (IntegerField args kwargs)
    = spec_chain builtin_validators.Integer args kwargs ++ bounds_part kwargs
  ∧ validators (FloatField args kwargs)
    = spec_chain builtin_validators.Float args kwargs ++ bounds_part kwargs
  ∧ (∀ key value, match DictField key value args kwargs with
                  | Ok f => validators f = spec_chain builtin_validators.Dict args kwargs
                  | Raise e => e = ConfigurationError
                  | OutOfFuel => False
                  end)
  ∧ (∀ spec, match ListField spec [] kwargs with
             | Ok f => ∃ inner, validators f = spec_chain (builtin_validators.List inner) [] kwargs
             | Raise e => e = ConfigurationError
             | OutOfFuel => False
             end).
Proof.
  unfold spec_chain, required_part, membership_part, bounds_part.
  repeat split; try (intros; simpl; by rewrite <- ?app_assoc).
  - intros key value. unfold DictField, fetch_model.
    destruct (fetch_model_loop (ensure_iterable key) None [] []) as [[[km kv] ?]|e|] eqn:Hk.
    + destruct (fetch_model_loop (ensure_iterable value) None [] []) as [[[vm vv] ?]|e|] eqn:Hv.
      * simpl. by rewrite <- ?app_assoc.
      * by apply fetch_model_loop_raises in Hv.
      * by apply fetch_model_loop_fuel in Hv.
    + by apply fetch_model_loop_raises in Hk.
    + by apply fetch_model_loop_fuel in Hk.
  - intros spec. unfold ListField, fetch_model.
    destruct (fetch_model_loop (ensure_iterable spec) None [] []) as [[[m mv] iv]|e|] eqn:Hs.
    + eexists. simpl. by rewrite <- ?app_assoc.
    + by apply fetch_model_loop_raises in Hs.
    + by apply fetch_model_loop_fuel in Hs.
Qed.

(** C8.  A ListField whose element specification holds two or more
    nested-model entries (model classes or [Model] validators, in any
    combination) is refused at construction with the configuration
    error. *)
Theorem ListField_two_models_rejected (items : list spec_item)
    (args : list validator) (kwargs : gmap string val) :
  (2 ≤ count_models items)%nat →
  ListField (AMany items) args kwargs = Raise ConfigurationError.
Proof.
  intros Hc. unfold ListField, fetch_model. simpl.
  by rewrite fetch_model_loop_two.
Qed.

Lemma ListField_two_models_rejected_witness :
  (2 ≤ count_models [SClass "Point"; SValidator builtin_validators.String;
                     SValidator (builtin_validators.Model "Token")])%nat
  ∧ ListField (AMany [SClass "Point"; SValidator builtin_validators.String;
                      SValidator (builtin_validators.Model "Token")]) [] ∅
    = Raise ConfigurationError.
Proof.
  split; [vm_compute; lia | apply ListField_two_models_rejected; vm_compute; lia].
Defined.

(** ** Falsy values in the plain form *)

(** C10.  The [to_plain] of ListField, DictField and EmbeddedField sends
    every falsy value to [None] (so [[]] and [{}] become null), and an
    EmbeddedField whose nested instance has a falsy plain form yields
    [None] as well. *)
Theorem container_to_plain_falsy (fuel : nat) (E : env) (h : heap) (f : Field) :
  is_container (kind f) = true →
  (∀ value, truthy value = false →
     Field_to_plain E h (Model_to_plain fuel E h) f value = Ok VNone)
  ∧ (∀ model a p, kind f = KEmbedded model →
       Model_to_plain fuel E h a = Ok p → truthy p = false →
       Field_to_plain E h (Model_to_plain fuel E h) f (VObj a) = Ok VNone).
Proof.
  intros Hk. split.
  - intros value Hv. unfold Field_to_plain.
    destruct (kind f); try discriminate Hk.
    + unfold EmbeddedField_to_plain. by rewrite Hv.
    + unfold ListField_to_plain. by rewrite Hv.
    + unfold DictField_to_plain. by rewrite Hv.
  - intros model a p Hm Hp Hfalsy. unfold Field_to_plain. rewrite Hm.
    unfold EmbeddedField_to_plain. simpl. rewrite Hp. simpl. by rewrite Hfalsy.
Qed.

Lemma container_to_plain_falsy_witness :
  match ListField ANone [] ∅, DictField ANone ANone [] ∅ with
  | Ok lf, Ok df =>
      Field_to_plain (mkEnv ∅ (λ _ _, EmptyString) (λ _ _, None)) [] (Model_to_plain 1%nat (mkEnv ∅ (λ _ _, EmptyString) (λ _ _, None)) []) lf (VList []) = Ok VNone
      ∧ Field_to_plain (mkEnv ∅ (λ _ _, EmptyString) (λ _ _, None)) [] (Model_to_plain 1%nat (mkEnv ∅ (λ _ _, EmptyString) (λ _ _, None)) []) df (VDict []) = Ok VNone
  | _, _ => False
  end.
Proof.
  simpl. split.
  - apply (container_to_plain_falsy 1%nat _ [] (Field_init (KList None) [builtin_validators.List []] ∅));
      reflexivity.
  - apply (container_to_plain_falsy 1%nat _ [] (Field_init (KDict None None [] []) [builtin_validators.Dict] ∅));
      reflexivity.
Defined.

(** ** Eager integer coercion *)

Lemma counterexample_IntegerField_set :
  IntegerField_set 0%nat "x" (VList [VInt 1]) [mkObj class_A ∅]
    = (Raise TypeError, [mkObj class_A ∅])
  ∧ TypeError ≠ ConversionError
  ∧ py_int VNone = Raise TypeError
  ∧ IntegerField_set 0%nat "x" VNone [mkObj class_A ∅]
    = (Ok tt, [mkObj class_A {["x" := VNone]}]).
Proof. repeat split; try reflexivity; discriminate. Qed.

(** C4 (amended).  Assigning the text "5" to an IntegerField stores the
    integer 5, and more generally stores [int(value)] wherever that is
    defined; [None] is stored as it is; a text that is not an integer
    literal, such as "abc", is refused at the assignment itself with the
    conversion error, and the instance is left untouched. *)
Theorem IntegerField_set_coercion (instance : addr) (name : string) (h : heap) (o : obj) :
  h !! instance = Some o →
  IntegerField_set instance name (VStr "5") h
    = (Ok tt, <[instance := mkObj (o_class o) (<[name := VInt 5]> (_data o))]> h)
  ∧ (∀ value z, value ≠ VNone → py_int value = Ok (VInt z) →
       IntegerField_set instance name value h
       = (Ok tt, <[instance := mkObj (o_class o) (<[name := VInt z]> (_data o))]> h))
  ∧ IntegerField_set instance name VNone h
    = (Ok tt, <[instance := mkObj (o_class o) (<[name := VNone]> (_data o))]> h)
  ∧ int_of_string "abc" = None
  ∧ (∀ s, int_of_string s = None →
       IntegerField_set instance name (VStr s) h = (Raise ConversionError, h)).
Proof.
  intros Ho. repeat split.
  - unfold IntegerField_set, IntegerField_coerce, bind, store. simpl. by rewrite Ho.
  - intros value z Hn Hz. unfold IntegerField_set, IntegerField_coerce, bind.
    destruct value; try done; rewrite Hz; unfold store; simpl; by rewrite Ho.
  - unfold IntegerField_set, IntegerField_coerce, bind, store. simpl. by rewrite Ho.
  - intros s Hs. unfold IntegerField_set, IntegerField_coerce, bind, py_int. by rewrite Hs.
Qed.

Lemma IntegerField_set_coercion_witness :
  IntegerField_set 0%nat "x" (VStr "5") [mkObj class_A ∅]
    = (Ok tt, [mkObj class_A {["x" := VInt 5]}])
  ∧ IntegerField_set 0%nat "x" (VStr "abc") [mkObj class_A ∅]
    = (Raise ConversionError, [mkObj class_A ∅]).
Proof.
  destruct (IntegerField_set_coercion 0%nat "x" [mkObj class_A ∅] (mkObj class_A ∅) eq_refl)
    as (H5 & _ & _ & Habc & Hs).
  split; [exact H5 | exact (Hs "abc" Habc)].
Defined.

(** ** The schema registry *)

(** What the metaclass computes: the fields of the class body over the
    fields found in the [__dict__] of each direct base, a later base
    overriding an earlier one. *)
Lemma collect_fields_union d acc :
  collect_fields d acc = collect_fields d ∅ ∪ acc.
Proof.
  unfold collect_fields. revert acc.
  induction d as [|[k a] d IH]; intros acc; simpl.
  - by rewrite (left_id_L ∅ (∪)).
  - destruct a as [f|v]; simpl; [|apply IH].
    rewrite (IH (<[k:=f]> acc)), (IH (<[k:=f]> ∅)).
    rewrite <- (assoc_L (∪)). f_equal.
    by rewrite <- insert_union_l, (left_id_L ∅ (∪)).
Qed.

(** C2 (failing input).  For [C(B)], [B(A)], [A] declaring [x]: the
    metaclass leaves the grandparent's field [x] out of [C._fields], while
    the union over all ancestors contains it. *)
Theorem ModelMeta_misses_grandparent :
  c_fields class_C !! "x" = None
  ∧ spec_schema class_C !! "x" = Some (IntegerField [] ∅)
  ∧ dom (c_fields class_C) = ({["y"; "z"]} : gset string)
  ∧ dom (spec_schema class_C) = ({["x"; "y"; "z"]} : gset string).
Proof. repeat split; by vm_compute. Qed.

(** ** Empty update *)

(** C9.  [update] with an empty mapping returns normally and leaves the
    store, hence every field of every instance, as it was: whatever the
    [plain_] flag, and whatever keyword arguments come with it (a keyword
    [plain], which is not the parameter [plain_], lands there and is
    ignored, since keywords are read only when no mapping is given). *)
Theorem update_empty_noop (fuel : nat) (E : env) (self : addr) (plain_ : bool)
    (kwargs : list (string * val)) (h : heap) :
  ∃ h', Model_update (S fuel) E self (VDict []) plain_ kwargs h = (Ok tt, h')
        ∧ h' = h
        ∧ ∀ a name, getattr h' a name = getattr h a name.
Proof.
  exists h. split; [|done].
  unfold Model_update. simpl. reflexivity.
Qed.

(** ** How the library uses the store *)

Lemma bind_Ok {A B} (c : M A) (k : A → M B) h b h' :
  bind c k h = (Ok b, h') →
  ∃ a h1, c h = (Ok a, h1) ∧ k a h1 = (Ok b, h').
Proof.
  unfold bind. destruct (c h) as [[a|e|] h1]; [eauto | done | done].
Qed.

Lemma bind_Ok_intro {A B} (c : M A) (k : A → M B) h a h1 :
  c h = (Ok a, h1) → bind c k h = k a h1.
Proof. unfold bind. by intros ->. Qed.

Lemma grows_keeps {A} (c : M A) h0 : grows c → keeps h0 c.
Proof. intros Hc h r h' Hp Hr. etrans; [exact Hp | by eapply Hc]. Qed.

Lemma keeps_grows {A} (c : M A) : (∀ h0, keeps h0 c) → grows c.
Proof. intros Hc h r h' Hr. by eapply (Hc h). Qed.

Lemma keeps_bind {A B} h0 (c : M A) (k : A → M B) :
  keeps h0 c → (∀ a, keeps h0 (k a)) → keeps h0 (bind c k).
Proof.
  intros Hc Hk h r h' Hp. unfold bind.
  destruct (c h) as [[a|e|] h1] eqn:Hch.
  - intros Hr. eapply Hk; [|exact Hr]. by eapply Hc.
  - intros [= <- <-]. by eapply Hc.
  - intros [= <- <-]. by eapply Hc.
Qed.

Lemma grows_bind {A B} (c : M A) (k : A → M B) :
  grows c → (∀ a, grows (k a)) → grows (bind c k).
Proof.
  intros Hc Hk. apply keeps_grows. intros h0.
  apply keeps_bind; [by apply grows_keeps | intros a; by apply grows_keeps].
Qed.

Lemma grows_ret {A} (a : A) : grows (ret a).
Proof. by intros h r h' [= <- <-]. Qed.
Lemma grows_raise {A} e : grows (@raise A e).
Proof. by intros h r h' [= <- <-]. Qed.
Lemma grows_out_of_fuel {A} : grows (@out_of_fuel A).
Proof. by intros h r h' [= <- <-]. Qed.
Lemma grows_reading {A} (f : heap → outcome A) : grows (reading f).
Proof. by intros h r h' [= <- <-]. Qed.
Lemma grows_alloc cls : grows (alloc cls).
Proof. intros h r h' [= <- <-]. by apply prefix_app_r. Qed.
Lemma grows_instance self : grows (instance self).
Proof. apply grows_reading. Qed.

Lemma keeps_store h0 inst name value :
  (length h0 ≤ inst)%nat → keeps h0 (store inst name value).
Proof.
  intros Hle h r h' [ext ->]. unfold store.
  destruct ((h0 ++ ext) !! inst) as [o|]; intros [= <- <-]; [|by apply prefix_app_r].
  rewrite insert_app_r_alt by done. by apply prefix_app_r.
Qed.

Lemma keeps_for_ {A} h0 (l : list A) (body : A → M unit) :
  (∀ x, keeps h0 (body x)) → keeps h0 (for_ l body).
Proof.
  intros Hb. induction l as [|x l IH]; simpl.
  - apply grows_keeps, grows_ret.
  - apply keeps_bind; [apply Hb | intros _; apply IH].
Qed.

Lemma grows_mapM {A B} (f : A → M B) (l : list A) :
  (∀ x, grows (f x)) → grows (mapM f l).
Proof.
  intros Hf. induction l as [|x l IH]; simpl.
  - apply grows_ret.
  - apply grows_bind; [apply Hf | intros y].
    apply grows_bind; [apply IH | intros ys; apply grows_ret].
Qed.

Section CoerceGrows.
Context (E : env) (call : ModelClass → list (string * val) → M addr).
Hypothesis call_grows : ∀ cls kwargs, grows (call cls kwargs).

Lemma grows_new_model model s : grows (new_model E call model s).
Proof.
  unfold new_model. destruct (classes E !! model); [|apply grows_raise].
  apply grows_bind; [apply grows_reading | intros kw].
  apply grows_bind; [apply call_grows | intros a; apply grows_ret].
Qed.

Lemma grows_ListField_to_python model value :
  grows (ListField_to_python E call model value).
Proof.
  unfold ListField_to_python. destruct (truthy value); [|apply grows_ret].
  apply grows_bind; [apply grows_reading | intros items].
  apply grows_bind; [|intros mapped; apply grows_ret].
  apply grows_mapM. intros s. destruct model; [apply grows_new_model | apply grows_ret].
Qed.

Lemma grows_DictField_to_python_loop km vm items result :
  grows (DictField_to_python_loop E call km vm items result).
Proof.
  revert result. induction items as [|[k v] items IH]; intros result; simpl.
  - apply grows_ret.
  - apply grows_bind; [destruct km; [apply grows_new_model | apply grows_ret] | intros k'].
    apply grows_bind; [destruct vm; [apply grows_new_model | apply grows_ret] | intros v'].
    apply grows_bind; [apply grows_reading | intros result'; apply IH].
Qed.

Lemma grows_DictField_to_python km vm value :
  grows (DictField_to_python E call km vm value).
Proof.
  unfold DictField_to_python. destruct (negb (truthy value)); [apply grows_ret|].
  destruct value; try apply grows_raise.
  apply grows_bind; [apply grows_DictField_to_python_loop | intros r; apply grows_ret].
Qed.

Lemma grows_Field_to_python f value : grows (Field_to_python E call f value).
Proof.
  unfold Field_to_python. destruct (kind f); try apply grows_ret.
  - apply grows_ListField_to_python.
  - apply grows_reading.
  - apply grows_DictField_to_python.
Qed.

Lemma grows_Field_coerce f value : grows (Field_coerce E call f value).
Proof.
  unfold Field_coerce. destruct (kind f); try apply grows_ret.
  - unfold IntegerField_coerce. destruct value; try apply grows_ret;
      (destruct (py_int _) as [x|[]|];
       first [apply grows_ret | apply grows_raise | apply grows_out_of_fuel]).
  - unfold EmbeddedField_coerce. destruct (is_dict value);
      [apply grows_new_model | apply grows_ret].
  - unfold ListField_coerce.
    destruct value as [| | | | |[|first l]|[|first l]| |], model as [m|];
      try apply grows_ret;
      (apply grows_bind; [apply grows_reading | intros b];
       destruct (negb b); [apply grows_ListField_to_python | apply grows_ret]).
  - unfold DictField_coerce.
    destruct value as [| | | | | | |[|[fk fv] d]|]; try apply grows_ret.
    destruct (_ || _)%bool; [|apply grows_ret].
    apply grows_bind; [apply grows_reading | intros b].
    destruct b; [apply grows_DictField_to_python | apply grows_ret].
Qed.

(** Every [__set__] is its coercion followed by [Field.__set__]. *)
Lemma Field_set_coerce f inst name value :
  Field_set E call f inst name value
  = (x <- Field_coerce E call f value ;; store inst name x).
Proof.
  unfold Field_set, Field_coerce. destruct (kind f); try reflexivity.
Qed.

Lemma keeps_Field_set h0 f inst name value :
  (length h0 ≤ inst)%nat → keeps h0 (Field_set E call f inst name value).
Proof.
  intros Hle. rewrite Field_set_coerce.
  apply keeps_bind; [apply grows_keeps, grows_Field_coerce | intros x].
  by apply keeps_store.
Qed.
End CoerceGrows.

Lemma bind_keywords_run first kwargs h :
  bind_keywords first kwargs h
  = (if bool_decide (first ∈ kwargs.*1) then Raise TypeError else Ok tt, h).
Proof. unfold bind_keywords. by destruct (bool_decide _). Qed.

Lemma bind_keywords_absent first kwargs h :
  first ∉ kwargs.*1 → bind_keywords first kwargs h = (Ok tt, h).
Proof. intros Hno. rewrite bind_keywords_run. by rewrite bool_decide_false. Qed.

Lemma grows_bind_keywords first kwargs : grows (bind_keywords first kwargs).
Proof. intros h r h'. rewrite bind_keywords_run. by intros [= _ <-]. Qed.

Lemma grows_Model_new fuel E cls kwargs : grows (Model_new fuel E cls kwargs).
Proof.
  revert cls kwargs. induction fuel as [|fuel IH]; intros cls kwargs; simpl.
  - apply grows_out_of_fuel.
  - intros h r h'. unfold bind at 1. rewrite bind_keywords_run.
    destruct (bool_decide _); [by intros [= _ <-]|].
    unfold bind at 1. unfold alloc at 1. intros Hr.
    assert (keeps h (_ <- bind_keywords "self" kwargs ;;
                     _ <- for_ kwargs (λ kv,
             match c_fields cls !! kv.1 with
             | None => raise (FieldError (c_name cls) (VStr kv.1))
             | Some f => Field_set E (Model_new fuel E) f (length h) kv.1 kv.2
             end) ;; ret (length h))) as Hk.
    { apply keeps_bind; [apply grows_keeps, grows_bind_keywords | intros _].
      apply keeps_bind; [|intros _; apply grows_keeps, grows_ret].
      apply keeps_for_. intros [k v]. simpl.
      destruct (c_fields cls !! k); [|apply grows_keeps, grows_raise].
      apply keeps_Field_set; [exact IH | done]. }
    eapply Hk; [|exact Hr]. by apply prefix_app_r.
Qed.

(** ** Bulk update *)

Lemma Model__update_S fuel E self values plain :
  Model__update (S fuel) E self values plain
  = for_ values (update_step fuel E self plain).
Proof. reflexivity. Qed.

Lemma Model_new_S fuel E cls kwargs :
  Model_new (S fuel) E cls kwargs
  = (_ <- bind_keywords "cls" kwargs ;;
     self <- alloc cls ;;
     _ <- bind_keywords "self" kwargs ;;
     _ <- for_ kwargs (λ kv,
            match c_fields cls !! kv.1 with
            | None => raise (FieldError (c_name cls) (VStr kv.1))
            | Some f => Field_set E (Model_new fuel E) f self kv.1 kv.2
            end) ;;
     ret self).
Proof. reflexivity. Qed.

(** With no keyword named [cls] or [self] the binding goes through. *)
Lemma Model_new_bound fuel E cls kwargs h :
  "cls" ∉ kwargs.*1 → "self" ∉ kwargs.*1 →
  Model_new (S fuel) E cls kwargs h
  = (self <- alloc cls ;;
     _ <- for_ kwargs (λ kv,
            match c_fields cls !! kv.1 with
            | None => raise (FieldError (c_name cls) (VStr kv.1))
            | Some f => Field_set E (Model_new fuel E) f self kv.1 kv.2
            end) ;;
     ret self) h.
Proof.
  intros Hcls Hself. rewrite Model_new_S.
  rewrite (bind_Ok_intro _ _ _ _ _ (bind_keywords_absent _ _ _ Hcls)).
  unfold bind at 1 3. unfold alloc.
  by rewrite (bind_Ok_intro _ _ _ _ _ (bind_keywords_absent _ _ _ Hself)).
Qed.

(** A construction that returns has bound its keywords. *)
Lemma Model_new_Ok fuel E cls kwargs h a h' :
  Model_new (S fuel) E cls kwargs h = (Ok a, h') →
  ("cls" ∉ kwargs.*1) ∧ ("self" ∉ kwargs.*1)
  ∧ (self <- alloc cls ;;
     _ <- for_ kwargs (λ kv,
            match c_fields cls !! kv.1 with
            | None => raise (FieldError (c_name cls) (VStr kv.1))
            | Some f => Field_set E (Model_new fuel E) f self kv.1 kv.2
            end) ;;
     ret self) h = (Ok a, h').
Proof.
  intros Hr.
  assert ("cls" ∉ kwargs.*1) as Hcls.
  { intros Hin. rewrite Model_new_S in Hr. unfold bind at 1 in Hr.
    rewrite bind_keywords_run, bool_decide_true in Hr by done. discriminate Hr. }
  assert ("self" ∉ kwargs.*1) as Hself.
  { intros Hin. rewrite Model_new_S in Hr.
    rewrite (bind_Ok_intro _ _ _ _ _ (bind_keywords_absent _ _ _ Hcls)) in Hr.
    unfold bind at 1 2 in Hr. unfold alloc in Hr.
    rewrite bind_keywords_run, bool_decide_true in Hr by done. discriminate Hr. }
  split; [done|]. split; [done|]. by rewrite <- Model_new_bound.
Qed.

Lemma evolves_refl h : evolves h h.
Proof. intros a o Ho. eauto. Qed.

Lemma evolves_trans h1 h2 h3 : evolves h1 h2 → evolves h2 h3 → evolves h1 h3.
Proof.
  intros H12 H23 a o Ho. destruct (H12 a o Ho) as (o2 & Ho2 & Hc2).
  destruct (H23 a o2 Ho2) as (o3 & Ho3 & Hc3). exists o3. split; [done | congruence].
Qed.

Lemma prefix_evolves h h' : h `prefix_of` h' → evolves h h'.
Proof. intros Hp a o Ho. exists o. split; [by eapply prefix_lookup_Some | done]. Qed.

Lemma grows_stable {A} (c : M A) : grows c → stable c.
Proof. intros Hc h r h' Hr. apply prefix_evolves. by eapply Hc. Qed.

Lemma stable_bind {A B} (c : M A) (k : A → M B) :
  stable c → (∀ a, stable (k a)) → stable (bind c k).
Proof.
  intros Hc Hk h r h'. unfold bind.
  destruct (c h) as [[a|e|] h1] eqn:Hch.
  - intros Hr. eapply evolves_trans; [by eapply Hc | by eapply Hk].
  - intros [= <- <-]. by eapply Hc.
  - intros [= <- <-]. by eapply Hc.
Qed.

Lemma stable_for_ {A} (l : list A) (body : A → M unit) :
  (∀ x, stable (body x)) → stable (for_ l body).
Proof.
  intros Hb. induction l as [|x l IH]; simpl.
  - apply grows_stable, grows_ret.
  - apply stable_bind; [apply Hb | intros _; apply IH].
Qed.

Lemma stable_store inst name value : stable (store inst name value).
Proof.
  intros h r h'. unfold store. destruct (h !! inst) as [o|] eqn:Ho;
    intros [= <- <-]; [|apply evolves_refl].
  intros a oa Ha. destruct (decide (a = inst)) as [->|Hne].
  - rewrite list_lookup_insert_eq by (by eapply lookup_lt_Some).
    eexists. split; [done|]. simpl. congruence.
  - rewrite list_lookup_insert_ne by done. eauto.
Qed.

Lemma stable_Field_set fuel E f inst name value :
  stable (Field_set E (Model_new fuel E) f inst name value).
Proof.
  rewrite Field_set_coerce. apply stable_bind; [|intros x; apply stable_store].
  apply grows_stable, grows_Field_coerce. intros cls kw. apply grows_Model_new.
Qed.


Lemma grows_Model_contains self k : grows (Model_contains self k).
Proof.
  unfold Model_contains. apply grows_bind; [apply grows_instance | intros o].
  apply grows_bind; [apply grows_reading | intros e; apply grows_ret].
Qed.

Lemma grows_Model_getitem self k : grows (Model_getitem self k).
Proof.
  unfold Model_getitem. apply grows_bind; [apply grows_instance | intros o].
  apply grows_bind; [apply grows_reading | intros [[name f]|]];
    [apply grows_ret | apply grows_raise].
Qed.

Lemma grows_Model_field self k : grows (Model_field self k).
Proof.
  unfold Model_field. apply grows_bind; [apply grows_instance | intros o].
  apply grows_bind; [apply grows_reading | intros [[name f]|]];
    [apply grows_ret | apply grows_raise].
Qed.



(** Runs of the accessors on a declared name. *)
Lemma instance_run self o h : h !! self = Some o → instance self h = (Ok o, h).
Proof. intros Ho. unfold instance, reading. by rewrite Ho. Qed.

Lemma Model_contains_declared self o name f h :
  h !! self = Some o → c_fields (o_class o) !! name = Some f →
  Model_contains self (VStr name) h = (Ok true, h).
Proof.
  intros Ho Hf. unfold Model_contains.
  rewrite (bind_Ok_intro _ _ _ _ _ (instance_run _ _ _ Ho)).
  unfold bind, reading. simpl. by rewrite Hf.
Qed.

Lemma Model_getitem_declared self o name f h :
  h !! self = Some o → c_fields (o_class o) !! name = Some f →
  Model_getitem self (VStr name) h = (Ok (Field_get f name o), h).
Proof.
  intros Ho Hf. unfold Model_getitem.
  rewrite (bind_Ok_intro _ _ _ _ _ (instance_run _ _ _ Ho)).
  unfold bind, reading. simpl. by rewrite Hf.
Qed.

Lemma Model_field_declared self o name f h :
  h !! self = Some o → c_fields (o_class o) !! name = Some f →
  Model_field self (VStr name) h = (Ok f, h).
Proof.
  intros Ho Hf. unfold Model_field.
  rewrite (bind_Ok_intro _ _ _ _ _ (instance_run _ _ _ Ho)).
  unfold bind, reading. simpl. by rewrite Hf.
Qed.

Lemma Model_setitem_declared fuel E self o name f v h :
  h !! self = Some o → c_fields (o_class o) !! name = Some f →
  Model_setitem fuel E self (VStr name) v h
  = Field_set E (Model_new fuel E) f self name v h.
Proof.
  intros Ho Hf. unfold Model_setitem.
  rewrite (bind_Ok_intro _ _ _ _ _ (instance_run _ _ _ Ho)).
  unfold bind, reading. simpl. by rewrite Hf.
Qed.

Lemma update_step_undeclared fuel E self o plain kv h :
  h !! self = Some o → declared_key (o_class o) kv = false →
  update_step fuel E self plain kv h = (Ok tt, h).
Proof.
  intros Ho Hd. unfold declared_key in Hd. unfold update_step.
  unfold Model_contains, bind, instance, reading. rewrite Ho. simpl.
  destruct (schema_lookup (o_class o) kv.1) as [[entry|]|e|]; try discriminate Hd.
  reflexivity.
Qed.



(** ** Footprint of the write path *)

Lemma grows_frames {A} self (c : M A) : grows c → frames self c.
Proof. intros Hc h r h' a o Hr _ Ho. eapply prefix_lookup_Some; [exact Ho | by eapply Hc]. Qed.

Lemma frames_bind {A B} self (c : M A) (k : A → M B) :
  frames self c → (∀ a, frames self (k a)) → frames self (bind c k).
Proof.
  intros Hc Hk h r h' a o. unfold bind.
  destruct (c h) as [[x|e|] h1] eqn:Hch.
  - intros Hr Hne Ho. eapply Hk; [exact Hr | done | by eapply Hc].
  - intros [= <- <-] Hne Ho. by eapply Hc.
  - intros [= <- <-] Hne Ho. by eapply Hc.
Qed.

Lemma frames_for_ {A} self (l : list A) (body : A → M unit) :
  (∀ x, x ∈ l → frames self (body x)) → frames self (for_ l body).
Proof.
  induction l as [|x l IH]; intros Hb; simpl.
  - apply grows_frames, grows_ret.
  - apply frames_bind; [apply Hb; left | intros _; apply IH].
    intros y Hy. apply Hb. by right.
Qed.

Lemma frames_store self name value : frames self (store self name value).
Proof.
  intros h r h' a o. unfold store. destruct (h !! self); intros [= <- <-] Hne Ho; [|done].
  by rewrite list_lookup_insert_ne.
Qed.

Lemma grows_writes_only {A} self K (c : M A) : grows c → writes_only self K c.
Proof.
  intros Hc h r h' o Hr Ho. exists o. repeat split; [|done..].
  eapply prefix_lookup_Some; [exact Ho | by eapply Hc].
Qed.

Lemma writes_only_bind {A B} self K (c : M A) (k : A → M B) :
  writes_only self K c → (∀ a, writes_only self K (k a)) → writes_only self K (bind c k).
Proof.
  intros Hc Hk h r h' o. unfold bind.
  destruct (c h) as [[x|e|] h1] eqn:Hch.
  - intros Hr Ho. destruct (Hc _ _ _ _ Hch Ho) as (o1 & Ho1 & Hc1 & Hd1).
    destruct (Hk _ _ _ _ _ Hr Ho1) as (o2 & Ho2 & Hc2 & Hd2).
    exists o2. repeat split; [done | congruence |].
    intros j Hj. by rewrite Hd2, Hd1.
  - intros [= <- <-] Ho. by eapply Hc.
  - intros [= <- <-] Ho. by eapply Hc.
Qed.

Lemma writes_only_for_ {A} self K (l : list A) (body : A → M unit) :
  (∀ x, x ∈ l → writes_only self K (body x)) → writes_only self K (for_ l body).
Proof.
  induction l as [|x l IH]; intros Hb; simpl.
  - apply grows_writes_only, grows_ret.
  - apply writes_only_bind; [apply Hb; left | intros _; apply IH].
    intros y Hy. apply Hb. by right.
Qed.

Lemma writes_only_store self K name value :
  VStr name ∈ K → writes_only self K (store self name value).
Proof.
  intros HK h r h' o. unfold store. intros Hr Ho. rewrite Ho in Hr.
  injection Hr as <- <-. eexists. split.
  - apply list_lookup_insert_eq. by eapply lookup_lt_Some.
  - split; [done|]. simpl. intros j Hj. apply lookup_insert_ne. congruence.
Qed.

Lemma frames_Field_set fuel E f self name value :
  frames self (Field_set E (Model_new fuel E) f self name value).
Proof.
  rewrite Field_set_coerce. apply frames_bind; [|intros x; apply frames_store].
  apply grows_frames, grows_Field_coerce. intros cls kw. apply grows_Model_new.
Qed.

Lemma writes_only_Field_set fuel E f self K name value :
  VStr name ∈ K → writes_only self K (Field_set E (Model_new fuel E) f self name value).
Proof.
  intros HK. rewrite Field_set_coerce.
  apply writes_only_bind; [|intros x; by apply writes_only_store].
  apply grows_writes_only, grows_Field_coerce. intros cls kw. apply grows_Model_new.
Qed.

Lemma schema_lookup_Some cls k name f :
  schema_lookup cls k = Ok (Some (name, f)) → k = VStr name ∧ c_fields cls !! name = Some f.
Proof.
  destruct k; simpl; try (destruct (forallb hashable l); discriminate); try discriminate.
  destruct (c_fields cls !! s) eqn:Hs; simpl; [|discriminate].
  by intros [= <- <-].
Qed.

Lemma frames_Model_setitem fuel E self k v : frames self (Model_setitem fuel E self k v).
Proof.
  unfold Model_setitem.
  apply frames_bind; [apply grows_frames, grows_instance | intros o].
  apply frames_bind; [apply grows_frames, grows_reading | intros [[name f]|]].
  - apply frames_Field_set.
  - apply grows_frames, grows_raise.
Qed.

Lemma writes_only_Model_setitem fuel E self K k v :
  k ∈ K → writes_only self K (Model_setitem fuel E self k v).
Proof.
  intros HK h r h' o Hr Ho. revert Hr.
  unfold Model_setitem, bind at 1, instance, reading. rewrite Ho.
  unfold bind at 1.
  destruct (schema_lookup (o_class o) k) as [[[name f]|]|e|] eqn:Hl;
    try (intros [= <- <-]; exists o; done).
  apply schema_lookup_Some in Hl as [-> Hf]. intros Hr.
  by eapply writes_only_Field_set.
Qed.

(** An iteration whose incoming value is not a mapping assigns the key on
    [self] itself. *)
Lemma frames_update_step_flat fuel E self plain kv :
  is_dict kv.2 = false → frames self (update_step fuel E self plain kv).
Proof.
  intros Hv. unfold update_step.
  apply frames_bind; [apply grows_frames, grows_Model_contains | intros declared].
  apply frames_bind.
  { destruct declared; [|apply grows_frames, grows_ret].
    apply grows_frames, grows_bind; [apply grows_Model_getitem | intros x; apply grows_ret]. }
  intros value. destruct (negb declared); [apply grows_frames, grows_ret|].
  assert (frames self (if plain
                       then f <- Model_field self kv.1 ;;
                            x <- Field_to_python E (Model_new fuel E) f kv.2 ;;
                            Model_setitem fuel E self kv.1 x
                       else Model_setitem fuel E self kv.1 kv.2)) as Hset.
  { destruct plain; [|apply frames_Model_setitem].
    apply frames_bind; [apply grows_frames, grows_Model_field | intros f].
    apply frames_bind; [|intros x; apply frames_Model_setitem].
    apply grows_frames, grows_Field_to_python. intros cls kw. apply grows_Model_new. }
  destruct value; try exact Hset. destruct kv.2; try exact Hset. discriminate Hv.
Qed.

Lemma writes_only_update_step_flat fuel E self K plain kv :
  is_dict kv.2 = false → kv.1 ∈ K →
  writes_only self K (update_step fuel E self plain kv).
Proof.
  intros Hv HK. unfold update_step.
  apply writes_only_bind; [apply grows_writes_only, grows_Model_contains | intros declared].
  apply writes_only_bind.
  { destruct declared; [|apply grows_writes_only, grows_ret].
    apply grows_writes_only, grows_bind; [apply grows_Model_getitem | intros x; apply grows_ret]. }
  intros value. destruct (negb declared); [apply grows_writes_only, grows_ret|].
  assert (writes_only self K (if plain
                       then f <- Model_field self kv.1 ;;
                            x <- Field_to_python E (Model_new fuel E) f kv.2 ;;
                            Model_setitem fuel E self kv.1 x
                       else Model_setitem fuel E self kv.1 kv.2)) as Hset.
  { destruct plain; [|by apply writes_only_Model_setitem].
    apply writes_only_bind; [apply grows_writes_only, grows_Model_field | intros f].
    apply writes_only_bind; [|intros x; by apply writes_only_Model_setitem].
    apply grows_writes_only, grows_Field_to_python. intros cls kw. apply grows_Model_new. }
  destruct value; try exact Hset. destruct kv.2; try exact Hset. discriminate Hv.
Qed.

(** The iteration for a key whose current value is a model instance and
    whose incoming value is a mapping is the update of that instance. *)
Lemma update_step_nested fuel E self o name f nested d plain h :
  h !! self = Some o → c_fields (o_class o) !! name = Some f →
  Field_get f name o = VObj nested →
  update_step fuel E self plain (VStr name, VDict d) h
  = Model__update fuel E nested d plain h.
Proof.
  intros Ho Hf Hv. unfold update_step. simpl.
  rewrite (bind_Ok_intro _ _ _ _ _ (Model_contains_declared _ _ _ _ _ Ho Hf)).
  erewrite (bind_Ok_intro _ _ h); [|].
  2:{ by rewrite (bind_Ok_intro _ _ _ _ _ (Model_getitem_declared _ _ _ _ _ Ho Hf)). }
  simpl. by rewrite Hv.
Qed.


(** ** A small program logic for the store *)

Lemma hoare_bind {A B} (P : heap → Prop) (c : M A) (k : A → M B) Q R :
  hoare P c Q → (∀ a, hoare (Q a) (k a) R) → hoare P (bind c k) R.
Proof.
  intros Hc Hk h b h' HP Hr. apply bind_Ok in Hr as (a & h1 & Hc1 & Hk1).
  eapply Hk; [|exact Hk1]. by eapply Hc.
Qed.

Lemma hoare_conseq {A} (P P' : heap → Prop) (c : M A) (Q Q' : A → heap → Prop) :
  hoare P' c Q' → (∀ h, P h → P' h) → (∀ a h, Q' a h → Q a h) → hoare P c Q.
Proof. intros Hc HP HQ h a h' Hh Hr. apply HQ. eapply Hc; [by apply HP | done]. Qed.

Lemma hoare_ret {A} (P : heap → Prop) (a : A) : hoare P (ret a) (λ x h, x = a ∧ P h).
Proof. by intros h x h' HP [= <- <-]. Qed.

Lemma hoare_raise {A} (P : heap → Prop) e (Q : A → heap → Prop) : hoare P (raise e) Q.
Proof. by intros h x h' HP [=]. Qed.

Lemma hoare_out_of_fuel {A} (P : heap → Prop) (Q : A → heap → Prop) :
  hoare P out_of_fuel Q.
Proof. by intros h x h' HP [=]. Qed.

Lemma hoare_reading {A} (P : heap → Prop) (f : heap → outcome A) :
  hoare P (reading f) (λ x h, P h ∧ f h = Ok x).
Proof. intros h x h' HP Hr. injection Hr as Hf Hh. by subst. Qed.

Lemma hoare_for_ {A} (I : heap → Prop) (l : list A) (body : A → M unit) :
  (∀ x, x ∈ l → hoare I (body x) (λ _, I)) → hoare I (for_ l body) (λ _, I).
Proof.
  induction l as [|x l IH]; intros Hb; simpl.
  - intros h a h' HI Hr. injection Hr as Ha Hh. by subst.
  - eapply hoare_bind; [apply Hb; left | intros u; apply IH].
    intros y Hy. apply Hb. by right.
Qed.

Lemma hoare_mapM {A B} (I : heap → Prop) (T : B → Prop) (f : A → M B) (l : list A) :
  (∀ x, x ∈ l → hoare I (f x) (λ y h, I h ∧ T y)) →
  hoare I (mapM f l) (λ ys h, I h ∧ Forall T ys).
Proof.
  induction l as [|x l IH]; intros Hf; simpl.
  - intros h ys h' HI [= <- <-]. by split.
  - eapply hoare_bind; [apply Hf; left | intros y].
    intros h ys' h' [HI Hy] Hr. apply bind_Ok in Hr as (ys & h1 & Hm & Hret).
    injection Hret as <- <-.
    destruct (IH (λ z Hz, Hf z (list_elem_of_further _ _ _ Hz)) h ys h1 HI Hm) as [HI1 Hys].
    split; [done|]. by constructor.
Qed.

(** ** Values that stay within a set of instances *)

Lemma safe_scalar D' v : refs v = [] → safe D' v.
Proof. intros Hr b. rewrite Hr. by intros ?%elem_of_nil. Qed.

Lemma safe_VObj D' a : safe D' (VObj a) ↔ D' a.
Proof.
  split; [intros Hs; apply Hs; simpl; left|].
  intros Ha b Hb. simpl in Hb. apply list_elem_of_singleton in Hb. by subst.
Qed.

Lemma safe_VList D' l : safe D' (VList l) ↔ Forall (safe D') l.
Proof.
  rewrite Forall_forall. unfold safe. simpl. split.
  - intros Hs x Hx b Hb. apply Hs. apply list_elem_of_In, in_flat_map.
    exists x. split; by apply list_elem_of_In.
  - intros Hs b Hb. apply list_elem_of_In, in_flat_map in Hb as (x & Hx & Hb).
    apply (Hs x); by apply list_elem_of_In.
Qed.

Lemma safe_VTuple D' l : safe D' (VTuple l) ↔ Forall (safe D') l.
Proof. apply safe_VList. Qed.

Lemma safe_VDict D' d :
  safe D' (VDict d) ↔ Forall (λ kv, safe D' kv.1 ∧ safe D' kv.2) d.
Proof.
  rewrite Forall_forall. unfold safe. simpl. split.
  - intros Hs [k x] Hx. simpl. split; intros b Hb; apply Hs;
      apply list_elem_of_In, in_flat_map; exists (k, x);
      (split; [by apply list_elem_of_In|]); apply list_elem_of_In, elem_of_app; auto.
  - intros Hs b Hb. apply list_elem_of_In, in_flat_map in Hb as ([k x] & Hx & Hb).
    apply list_elem_of_In in Hx, Hb. destruct (Hs _ Hx) as [Hk Hv]. simpl in *.
    apply elem_of_app in Hb as [Hb|Hb]; auto.
Qed.

Lemma py_iter_safe D' h v items :
  py_iter h v = Ok items → safe D' v → Forall (safe D') items.
Proof.
  destruct v; simpl; try discriminate.
  - intros [= <-] _. unfold chars. apply Forall_forall. intros x Hx.
    apply list_elem_of_In, in_map_iff in Hx as (c & <- & _). by apply safe_scalar.
  - intros [= <-]. by apply safe_VList.
  - intros [= <-]. by apply safe_VTuple.
  - intros [= <-] Hd%safe_VDict. apply Forall_forall. intros k Hk.
    apply list_elem_of_In, in_map_iff in Hk as ([k' x] & <- & Hk).
    rewrite Forall_forall in Hd. apply list_elem_of_In in Hk. by destruct (Hd _ Hk).
  - destruct (h !! a); discriminate.
Qed.

Lemma string_keys_safe D' d kw :
  string_keys d = Some kw → Forall (λ kv, safe D' kv.1 ∧ safe D' kv.2) d →
  Forall (λ kv : string * val, safe D' kv.2) kw.
Proof.
  revert kw. induction d as [|[k x] d IH]; intros kw; simpl.
  - intros [= <-] _. constructor.
  - destruct k; try discriminate.
    destruct (string_keys d) as [kw'|]; [|discriminate]. simpl.
    intros [= <-] [[_ Hx] Hd]%Forall_cons. constructor; [done|]. by apply IH.
Qed.

Lemma as_kwargs_safe D' s kw :
  as_kwargs s = Ok kw → safe D' s → Forall (λ kv : string * val, safe D' kv.2) kw.
Proof.
  destruct s; simpl; try discriminate.
  destruct (string_keys d) as [kw'|] eqn:Hk; [|discriminate].
  intros [= <-] Hd%safe_VDict. by eapply string_keys_safe.
Qed.

Lemma dict_replace_safe D' d k x d' :
  dict_replace d k x = Some d' → safe D' x →
  Forall (λ kv, safe D' kv.1 ∧ safe D' kv.2) d →
  Forall (λ kv, safe D' kv.1 ∧ safe D' kv.2) d'.
Proof.
  revert d'. induction d as [|[k' x'] d IH]; intros d'; simpl; [discriminate|].
  destruct (key_eqb k' k).
  - intros [= <-] Hx [[Hk' _] Hd]%Forall_cons. by constructor.
  - destruct (dict_replace d k x) as [r|]; [|discriminate]. simpl.
    intros [= <-] Hx [Hkx Hd]%Forall_cons. constructor; [done|]. by apply IH.
Qed.

Lemma dict_setitem_safe D' d k x d' :
  dict_setitem d k x = Ok d' → safe D' k → safe D' x →
  Forall (λ kv, safe D' kv.1 ∧ safe D' kv.2) d →
  Forall (λ kv, safe D' kv.1 ∧ safe D' kv.2) d'.
Proof.
  unfold dict_setitem. destruct (hashable k); [|discriminate].
  destruct (dict_replace d k x) as [r|] eqn:Hr.
  - intros [= <-] _ Hx Hd. by eapply dict_replace_safe.
  - intros [= <-] Hk Hx Hd. apply Forall_app. split; [done|]. by repeat constructor.
Qed.

Section Closure.
Context (E : env) (D' : nat → Prop).
Hypothesis HE : env_plain_defaults E = true.

Lemma plain_defaults_field cls name f :
  plain_defaults cls = true → c_fields cls !! name = Some f → is_obj (default f) = false.
Proof.
  unfold plain_defaults. rewrite forallb_forall. intros Hp Hf.
  apply elem_of_map_to_list, list_elem_of_In in Hf. specialize (Hp _ Hf).
  by apply negb_true_iff in Hp.
Qed.

Lemma env_class_plain m cls : classes E !! m = Some cls → plain_defaults cls = true.
Proof.
  intros Hm. unfold env_plain_defaults in HE. rewrite forallb_forall in HE.
  apply elem_of_map_to_list, list_elem_of_In in Hm. by apply (HE _ Hm).
Qed.

Lemma good_store_alloc cls h :
  plain_defaults cls = true → good_store D' h → good_store D' (h ++ [mkObj cls ∅]).
Proof.
  intros Hp [Hc Hf]. split.
  - intros a o name f b Ha Ho Hfield Hget.
    destruct (decide (a < List.length h)%nat) as [Hlt|Hge].
    + rewrite lookup_app_l in Ho by done. by eapply Hc.
    + rewrite lookup_app_r in Ho by lia.
      destruct (a - List.length h)%nat; [|by destruct n]. injection Ho as <-.
      simpl in *. unfold Field_get in Hget. simpl in Hget. rewrite lookup_empty in Hget.
      apply (plain_defaults_field _ _ _ Hp) in Hfield. by rewrite Hget in Hfield.
  - intros a Ha. apply Hf. rewrite length_app in Ha. lia.
Qed.

Lemma good_store_insert h inst o name x :
  good_store D' h → h !! inst = Some o → safe D' x →
  good_store D' (<[inst := mkObj (o_class o) (<[name := x]> (_data o))]> h).
Proof.
  intros [Hc Hf] Ho Hx. split.
  - intros a oa name' f b Ha Hoa Hfield Hget.
    destruct (decide (a = inst)) as [->|Hne].
    + rewrite list_lookup_insert_eq in Hoa by (by eapply lookup_lt_Some).
      injection Hoa as <-. simpl in *. unfold Field_get in Hget. simpl in Hget.
      destruct (decide (name' = name)) as [->|Hn].
      * rewrite lookup_insert_eq in Hget. subst x. by apply safe_VObj.
      * rewrite lookup_insert_ne in Hget by done. by eapply (Hc inst o name' f).
    + rewrite list_lookup_insert_ne in Hoa by done. by eapply Hc.
  - intros a Ha. apply Hf. by rewrite length_insert in Ha.
Qed.

Lemma hoare_store inst name x :
  safe D' x → hoare (good_store D') (store inst name x) (λ _, good_store D').
Proof.
  intros Hx h u h' HG. unfold store. destruct (h !! inst) as [o|] eqn:Ho; [|done].
  intros Hr. inversion Hr. by apply good_store_insert.
Qed.

Lemma hoare_alloc cls :
  plain_defaults cls = true →
  hoare (good_store D') (alloc cls) (λ a h, good_store D' h ∧ D' a).
Proof.
  intros Hp h a h' HG [= <- <-]. split; [by apply good_store_alloc|].
  by apply HG.
Qed.

Section WithCall.
Variable call : ModelClass → list (string * val) → M nat.
Hypothesis call_ok : ∀ cls kw,
  plain_defaults cls = true → Forall (λ kv : string * val, safe D' kv.2) kw →
  hoare (good_store D') (call cls kw) (λ a h, good_store D' h ∧ D' a).

Lemma hoare_new_model m s :
  safe D' s →
  hoare (good_store D') (new_model E call m s) (λ x h, good_store D' h ∧ safe D' x).
Proof.
  intros Hs. unfold new_model. destruct (classes E !! m) as [cls|] eqn:Hm;
    [|apply hoare_raise].
  eapply hoare_bind; [apply hoare_reading | intros kw].
  intros h x h' [HG Hkw] Hr. apply bind_Ok in Hr as (a & h1 & Hc & Hret).
  injection Hret as <- <-.
  destruct (call_ok cls kw (env_class_plain _ _ Hm) (as_kwargs_safe _ _ _ Hkw Hs) h a h1 HG Hc).
  split; [done|]. by apply safe_VObj.
Qed.

Lemma hoare_ListField_to_python model value :
  safe D' value →
  hoare (good_store D') (ListField_to_python E call model value)
    (λ x h, good_store D' h ∧ safe D' x).
Proof.
  intros Hv. unfold ListField_to_python. destruct (truthy value).
  2:{ intros h x h' HG [= <- <-]. done. }
  eapply hoare_bind; [apply hoare_reading | intros items].
  intros h x h' [HG Hit] Hr. apply bind_Ok in Hr as (ys & h1 & Hm & Hret).
  injection Hret as <- <-.
  pose proof (py_iter_safe _ _ _ _ Hit Hv) as Hitems. rewrite Forall_forall in Hitems.
  destruct (hoare_mapM (good_store D') (safe D')
              (λ s, match model with
                    | Some m => new_model E call m s
                    | None => ret s
                    end) items) with (h := h) (a := ys) (h' := h1)
    as [HG1 Hys]; [|done|done|].
  { intros s Hs. destruct model as [m|]; [by apply hoare_new_model; apply Hitems|].
    intros h2 y h3 HG2 [= <- <-]. split; [done|]. by apply Hitems. }
  split; [done|]. destruct (negb _); [|done]. by apply safe_VList.
Qed.

Lemma hoare_DictField_to_python_loop km vm items result :
  Forall (λ kv, safe D' kv.1 ∧ safe D' kv.2) items →
  Forall (λ kv, safe D' kv.1 ∧ safe D' kv.2) result →
  hoare (good_store D') (DictField_to_python_loop E call km vm items result)
    (λ r h, good_store D' h ∧ Forall (λ kv, safe D' kv.1 ∧ safe D' kv.2) r).
Proof.
  intros Hitems. revert result.
  induction Hitems as [|[k x] items [Hk Hx] Hitems IH]; intros result Hres; simpl.
  - intros h r h' HG [= <- <-]. done.
  - eapply hoare_bind with (Q := λ k' h, good_store D' h ∧ safe D' k').
    { destruct km; [by apply hoare_new_model|]. intros h y h' HG [= <- <-]. done. }
    intros k'. intros h r h' [HG Hk'] Hr.
    apply bind_Ok in Hr as (x' & h1 & Hxr & Hr).
    assert (good_store D' h1 ∧ safe D' x') as [HG1 Hx'].
    { destruct vm as [m|]; [eapply (hoare_new_model m x Hx); [exact HG | exact Hxr]|].
      injection Hxr as <- <-. done. }
    apply bind_Ok in Hr as (result' & h2 & Hset & Hr).
    injection Hset as Hset <-.
    eapply IH; [|exact HG1|exact Hr]. by eapply dict_setitem_safe.
Qed.

Lemma hoare_DictField_to_python km vm value :
  safe D' value →
  hoare (good_store D') (DictField_to_python E call km vm value)
    (λ x h, good_store D' h ∧ safe D' x).
Proof.
  intros Hv. unfold DictField_to_python. destruct (negb (truthy value)).
  { intros h x h' HG [= <- <-]. split; [done|]. by apply safe_scalar. }
  destruct value; try apply hoare_raise.
  intros h x h' HG Hr. apply bind_Ok in Hr as (r & h1 & Hl & Hret).
  injection Hret as <- <-.
  destruct (hoare_DictField_to_python_loop km vm d [] (proj1 (safe_VDict _ _) Hv)
              (Forall_nil_2 _) h r h1 HG Hl) as [HG1 Hr].
  split; [done|]. by apply safe_VDict.
Qed.

Lemma hoare_Field_to_python f value :
  safe D' value →
  hoare (good_store D') (Field_to_python E call f value)
    (λ x h, good_store D' h ∧ safe D' x).
Proof.
  intros Hv. unfold Field_to_python.
  destruct (kind f); try (intros h x h' HG [= <- <-]; done).
  - by apply hoare_ListField_to_python.
  - intros h x h' HG Hr. injection Hr as Hr <-. split; [done|].
    unfold DateTimeField_to_python in Hr.
    repeat case_match; simplify_eq; first [done | by apply safe_scalar].
  - by apply hoare_DictField_to_python.
Qed.
End WithCall.
End Closure.

Section ClosureWrite.
Context (E : env) (D' : nat → Prop).
Hypothesis HE : env_plain_defaults E = true.

Section WithCall.
Variable call : ModelClass → list (string * val) → M nat.
Hypothesis call_ok : ∀ cls kw,
  plain_defaults cls = true → Forall (λ kv : string * val, safe D' kv.2) kw →
  hoare (good_store D') (call cls kw) (λ a h, good_store D' h ∧ D' a).

Lemma hoare_Field_coerce f value :
  safe D' value →
  hoare (good_store D') (Field_coerce E call f value)
    (λ x h, good_store D' h ∧ safe D' x).
Proof.
  intros Hv. unfold Field_coerce.
  destruct (kind f) as [| | | | | |m|model|format|km vm kvs vvs];
    try (intros h x h' HG [= <- <-]; done).
  - intros h x h' HG Hr. unfold IntegerField_coerce, py_int in Hr.
    repeat case_match; simplify_eq; injection Hr as <- <-;
      (split; [done | by apply safe_scalar]).
  - unfold EmbeddedField_coerce. destruct (is_dict value).
    + by apply (hoare_new_model E D' HE call call_ok).
    + intros h x h' HG [= <- <-]. done.
  - unfold ListField_coerce.
    destruct value as [| | | | |[|first l]|[|first l]| |], model as [m|];
      try (intros h x h' HG [= <- <-]; done);
      (intros h x h' HG Hr; apply bind_Ok in Hr as (b & h1 & [= _ <-] & Hr);
       destruct (negb b);
       [by eapply (hoare_ListField_to_python E D' HE call call_ok) | by injection Hr as <- <-]).
  - unfold DictField_coerce.
    destruct value as [| | | | | | |[|[fk fv] d]|]; try (intros h x h' HG [= <- <-]; done).
    destruct (_ || _)%bool; [|intros h x h' HG [= <- <-]; done].
    intros h x h' HG Hr; apply bind_Ok in Hr as (b & h1 & [= _ <-] & Hr).
    destruct b; [by eapply (hoare_DictField_to_python E D' HE call call_ok) |
                 by injection Hr as <- <-].
Qed.

Lemma hoare_Field_set f inst name value :
  safe D' value →
  hoare (good_store D') (Field_set E call f inst name value) (λ _, good_store D').
Proof.
  intros Hv. rewrite Field_set_coerce.
  eapply hoare_bind; [by apply hoare_Field_coerce | intros x].
  intros h u h' [HG Hx]. by apply hoare_store.
Qed.
End WithCall.

Lemma hoare_Model_new n cls kw :
  plain_defaults cls = true → Forall (λ kv : string * val, safe D' kv.2) kw →
  hoare (good_store D') (Model_new n E cls kw) (λ a h, good_store D' h ∧ D' a).
Proof.
  revert cls kw. induction n as [|n IH]; intros cls kw Hp Hkw; [apply hoare_out_of_fuel|].
  intros h a h' HG Hr. apply Model_new_Ok in Hr as (_ & _ & Hr).
  apply bind_Ok in Hr as (self & h1 & Ha & Hr).
  destruct (hoare_alloc D' cls Hp h self h1 HG Ha) as [HG1 Hself].
  apply bind_Ok in Hr as (u & h2 & Hfor & Hret). injection Hret as <- <-.
  split; [|done]. eapply hoare_for_; [|exact HG1|exact Hfor].
  intros [k v] Hkv. simpl. destruct (c_fields cls !! k); [|apply hoare_raise].
  apply hoare_Field_set; [exact IH|]. rewrite Forall_forall in Hkw. by apply (Hkw (k, v)).
Qed.
End ClosureWrite.

(** ** Footprint of a nested update *)

Lemma Model_contains_inv self k h r h' :
  Model_contains self k h = (Ok r, h') → h' = h.
Proof.
  unfold Model_contains, instance. intros Hr.
  apply bind_Ok in Hr as (o & h1 & [= _ <-] & Hr).
  apply bind_Ok in Hr as (e & h2 & [= _ <-] & [= _ <-]). done.
Qed.

Lemma Model_getitem_inv self k h x h' :
  Model_getitem self k h = (Ok x, h') →
  h' = h ∧ ∃ o name f, h !! self = Some o ∧ k = VStr name
                       ∧ c_fields (o_class o) !! name = Some f ∧ x = Field_get f name o.
Proof.
  unfold Model_getitem, instance. intros Hr.
  apply bind_Ok in Hr as (o & h1 & [= Ho <-] & Hr).
  apply bind_Ok in Hr as (e & h2 & [= He <-] & Hr).
  destruct (h !! self) as [o'|] eqn:Hself; [|done]. injection Ho as ->.
  destruct e as [[name f]|]; [|done]. injection Hr as <- <-.
  apply schema_lookup_Some in He as [-> Hf]. split; [done|]. by exists o, name, f.
Qed.

Lemma Model_field_inv self k h f h' :
  Model_field self k h = (Ok f, h') →
  h' = h ∧ ∃ o name, h !! self = Some o ∧ k = VStr name
                     ∧ c_fields (o_class o) !! name = Some f.
Proof.
  unfold Model_field, instance. intros Hr.
  apply bind_Ok in Hr as (o & h1 & [= Ho <-] & Hr).
  apply bind_Ok in Hr as (e & h2 & [= He <-] & Hr).
  destruct (h !! self) as [o'|] eqn:Hself; [|done]. injection Ho as ->.
  destruct e as [[name f']|]; [|done]. injection Hr as <- <-.
  apply schema_lookup_Some in He as [-> Hf]. split; [done|]. by exists o, name.
Qed.

Lemma Model_setitem_inv fuel E self k v h u h' :
  Model_setitem fuel E self k v h = (Ok u, h') →
  ∃ o name f, h !! self = Some o ∧ k = VStr name
              ∧ c_fields (o_class o) !! name = Some f
              ∧ Field_set E (Model_new fuel E) f self name v h = (Ok u, h').
Proof.
  unfold Model_setitem, instance. intros Hr.
  apply bind_Ok in Hr as (o & h1 & [= Ho <-] & Hr).
  apply bind_Ok in Hr as (e & h2 & [= He <-] & Hr).
  destruct (h !! self) as [o'|] eqn:Hself; [|done]. injection Ho as ->.
  destruct e as [[name f]|]; [|done].
  apply schema_lookup_Some in He as [-> Hf]. by exists o, name, f.
Qed.

Section Footprint.
Context (E : env) (D' : nat → Prop).
Hypothesis HE : env_plain_defaults E = true.

(** What a field assignment does to a good store. *)
Lemma Field_set_effect fuel f t name v h u h' :
  good_store D' h → safe D' v →
  Field_set E (Model_new fuel E) f t name v h = (Ok u, h') →
  ∃ x o h1, h `prefix_of` h1 ∧ good_store D' h1 ∧ safe D' x ∧ h1 !! t = Some o
            ∧ h' = <[t := mkObj (o_class o) (<[name := x]> (_data o))]> h1
            ∧ good_store D' h'.
Proof.
  intros HG Hv. rewrite Field_set_coerce. intros Hr.
  apply bind_Ok in Hr as (x & h1 & Hc & Hs).
  destruct (hoare_Field_coerce E D' HE (Model_new fuel E)
              (λ cls kw, hoare_Model_new E D' HE fuel cls kw) f v Hv h x h1 HG Hc)
    as [HG1 Hx].
  unfold store in Hs. destruct (h1 !! t) as [o|] eqn:Ho; [|done].
  assert (h' = <[t := mkObj (o_class o) (<[name := x]> (_data o))]> h1) as ->
    by congruence.
  exists x, o, h1.
  split; [eapply grows_Field_coerce; [|exact Hc]; intros cls kw; apply grows_Model_new|].
  split; [done|]. split; [done|]. split; [done|]. split; [done|].
  by apply good_store_insert.
Qed.

Lemma Field_to_python_effect fuel f v h x h1 :
  good_store D' h → safe D' v →
  Field_to_python E (Model_new fuel E) f v h = (Ok x, h1) →
  h `prefix_of` h1 ∧ good_store D' h1 ∧ safe D' x.
Proof.
  intros HG Hv Hr. split.
  - eapply grows_Field_to_python; [|exact Hr]. intros cls kw. apply grows_Model_new.
  - by eapply (hoare_Field_to_python E D' HE (Model_new fuel E)
                 (λ cls kw, hoare_Model_new E D' HE fuel cls kw) f v Hv h x h1).
Qed.

Lemma framed_prefix X h_init h h1 :
  framed D' X h_init h → h `prefix_of` h1 → good_store D' h1 → framed D' X h_init h1.
Proof.
  intros [[Hc Hf] Hfr] Hp HG1. split; [done|]. intros a Ha HX.
  rewrite <- (Hfr a Ha HX).
  destruct (decide (a < List.length h)%nat) as [Hlt|Hge].
  - destruct Hp as [k ->]. by apply lookup_app_l.
  - destruct Ha. apply Hf. lia.
Qed.

Lemma framed_insert X h_init h t o :
  framed D' X h_init h → (D' t ∨ X t) → good_store D' (<[t := o]> h) →
  framed D' X h_init (<[t := o]> h).
Proof.
  intros [HG Hfr] Ht HG1. split; [done|]. intros a Ha HX.
  rewrite list_lookup_insert_ne; [by apply Hfr|]. intros ->. by destruct Ht.
Qed.

(** Assignment on a target inside [D'], or inside [X]. *)
Lemma framed_setitem X h_init fuel t k v h u h' :
  framed D' X h_init h → (D' t ∨ X t) → safe D' v →
  Model_setitem fuel E t k v h = (Ok u, h') → framed D' X h_init h'.
Proof.
  intros HJ Ht Hv Hr.
  apply Model_setitem_inv in Hr as (o & name & f & Ho & -> & Hf & Hr).
  destruct (Field_set_effect _ _ _ _ _ _ _ _ (proj1 HJ) Hv Hr)
    as (x & o1 & h1 & Hp & HG1 & Hx & Ho1 & -> & HG').
  apply framed_insert; [|done..]. by eapply framed_prefix.
Qed.

(** The assignment branch of an iteration of [_update]. *)
Lemma framed_assign X h_init fuel t (plain : bool) k v h u h' :
  framed D' X h_init h → (D' t ∨ X t) → safe D' v →
  (if plain
   then f <- Model_field t k ;;
        x <- Field_to_python E (Model_new fuel E) f v ;;
        Model_setitem fuel E t k x
   else Model_setitem fuel E t k v) h = (Ok u, h') →
  framed D' X h_init h'.
Proof.
  intros HJ Ht Hv Hr. destruct plain; [|by eapply framed_setitem].
  apply bind_Ok in Hr as (f & h0 & Hfield & Hr).
  apply Model_field_inv in Hfield as [-> _].
  apply bind_Ok in Hr as (x & h1 & Hpy & Hr).
  destruct (Field_to_python_effect _ _ _ _ _ _ (proj1 HJ) Hv Hpy) as (Hp & HG1 & Hx).
  eapply framed_setitem; [|exact Ht|exact Hx|exact Hr]. by eapply framed_prefix.
Qed.

(** An update of an instance of [D'] stays within [D'] and the objects
    it allocates. *)
Lemma framed_update_in X h_init fuel :
  ∀ y values plain h u h',
    D' y → safe D' (VDict values) → framed D' X h_init h →
    Model__update fuel E y values plain h = (Ok u, h') → framed D' X h_init h'.
Proof.
  induction fuel as [|fuel IH]; intros y values plain h u h' Hy Hvals HJ Hr; [done|].
  rewrite Model__update_S in Hr. apply safe_VDict in Hvals.
  revert h HJ Hr. induction Hvals as [|[k v] values [Hk Hv] Hvals IHv]; intros h HJ Hr.
  - injection Hr as _ <-. done.
  - simpl in Hr. apply bind_Ok in Hr as (u1 & h1 & Hstep & Hr).
    apply (IHv h1); [|done]. clear Hr IHv.
    unfold update_step in Hstep. simpl in Hstep, Hv.
    apply bind_Ok in Hstep as (declared & h0 & Hcont & Hstep).
    apply Model_contains_inv in Hcont as ->.
    apply bind_Ok in Hstep as (value & h0 & Hval & Hstep).
    destruct declared; simpl in Hstep; [|by injection Hval as <- <-; injection Hstep as _ <-].
    apply bind_Ok in Hval as (x & h2 & Hget & Hval).
    apply Model_getitem_inv in Hget as (-> & o & name & f & Ho & -> & Hf & ->).
    injection Hval as <- <-.
    destruct (Field_get f name o) as [| | | | c| | | |nested] eqn:Hx;
      simpl in Hstep; try (destruct (negb _)); try destruct b;
      try (by eapply framed_assign; [exact HJ | by left | exact Hv | exact Hstep]).
    destruct v as [| | | | | | |d|];
      try (by eapply framed_assign; [exact HJ | by left | exact Hv | exact Hstep]).
    eapply (IH nested d); [|exact Hv|exact HJ|exact Hstep].
    by eapply (proj1 (proj1 HJ) y o name f nested).
Qed.
End Footprint.

Lemma children_spec h a o name f b :
  h !! a = Some o → c_fields (o_class o) !! name = Some f →
  Field_get f name o = VObj b → b ∈ children h a.
Proof.
  intros Ho Hf Hget. unfold children. rewrite Ho.
  apply list_elem_of_omap. exists (name, f). split.
  - by apply elem_of_map_to_list.
  - simpl. by rewrite Hget.
Qed.

(** A list that holds the children of its members is a closed set, also
    with the addresses beyond the store added. *)
Lemma closedb_good_store h D :
  closedb h D = true → good_store (λ a, a ∈ D ∨ (List.length h ≤ a)%nat) h.
Proof.
  unfold closedb. rewrite forallb_forall. intros Hc. split.
  - intros a o name f b [Ha|Ha] Ho Hf Hget.
    + left. apply list_elem_of_In in Ha. specialize (Hc a Ha).
      rewrite forallb_forall in Hc.
      pose proof (children_spec _ _ _ _ _ _ Ho Hf Hget) as Hb.
      apply list_elem_of_In in Hb. specialize (Hc b Hb). by apply bool_decide_eq_true in Hc.
    + apply lookup_lt_Some in Ho. lia.
  - intros a Ha. by right.
Qed.

Section FootprintAt.
Context (E : env) (D' : nat → Prop) (x0 : nat) (on : obj) (K : list val) (h_init : heap).
Hypothesis HE : env_plain_defaults E = true.
Hypothesis Hx0 : ¬ D' x0.

Lemma record_kept_same h h1 :
  record_kept D' x0 on K h → h1 !! x0 = h !! x0 → record_kept D' x0 on K h1.
Proof. intros (o' & Ho & Hrest) Heq. exists o'. by rewrite Heq. Qed.

Lemma record_kept_prefix h h1 :
  record_kept D' x0 on K h → h `prefix_of` h1 → record_kept D' x0 on K h1.
Proof.
  intros Hr Hp. eapply record_kept_same; [exact Hr|]. destruct Hr as (o' & Ho & _).
  rewrite Ho. by eapply prefix_lookup_Some.
Qed.

Lemma record_kept_setitem fuel k v h u h' :
  good_store D' h → record_kept D' x0 on K h → k ∈ K → safe D' v →
  Model_setitem fuel E x0 k v h = (Ok u, h') → record_kept D' x0 on K h'.
Proof.
  intros HG Hrec HK Hv Hr.
  apply Model_setitem_inv in Hr as (o & name & f & Ho & -> & Hf & Hr).
  destruct (Field_set_effect E D' HE _ _ _ _ _ _ _ _ HG Hv Hr)
    as (x & o1 & h1 & Hp & HG1 & Hx & Ho1 & -> & HG').
  destruct Hrec as (o' & Ho' & Hcls & Hdata & Hch).
  assert (o' = o) as -> by congruence.
  assert (o1 = o) as -> by (pose proof (prefix_lookup_Some _ _ _ _ Ho Hp); congruence).
  eexists. split; [apply list_lookup_insert_eq; by eapply lookup_lt_Some|].
  split; [done|]. split.
  - intros j Hj. simpl. rewrite lookup_insert_ne; [by apply Hdata|]. congruence.
  - intros name' f' b Hf' Hget. simpl in *. unfold Field_get in Hget. simpl in Hget.
    destruct (decide (name' = name)) as [->|Hn].
    + rewrite lookup_insert_eq in Hget. subst x. by apply safe_VObj.
    + rewrite lookup_insert_ne in Hget by done. by eapply (Hch name' f').
Qed.

Lemma record_kept_assign fuel (plain : bool) k v h u h' :
  good_store D' h → record_kept D' x0 on K h → k ∈ K → safe D' v →
  (if plain
   then f <- Model_field x0 k ;;
        x <- Field_to_python E (Model_new fuel E) f v ;;
        Model_setitem fuel E x0 k x
   else Model_setitem fuel E x0 k v) h = (Ok u, h') →
  record_kept D' x0 on K h'.
Proof.
  intros HG Hrec HK Hv Hr. destruct plain; [|by eapply record_kept_setitem].
  apply bind_Ok in Hr as (f & h0 & Hfield & Hr).
  apply Model_field_inv in Hfield as [-> _].
  apply bind_Ok in Hr as (x & h1 & Hpy & Hr).
  destruct (Field_to_python_effect E D' HE _ _ _ _ _ _ HG Hv Hpy) as (Hp & HG1 & Hx).
  eapply record_kept_setitem; [exact HG1| |exact HK|exact Hx|exact Hr].
  by eapply record_kept_prefix.
Qed.

(** The update of [x0] itself: its children are updated within [D'], and
    its own record changes under the keys of the mapping only. *)
Lemma framed_update_at fuel (values : list (val * val)) plain h u h' :
  (∀ kv, kv ∈ values → kv.1 ∈ K) → safe D' (VDict values) →
  framed D' (λ a, a = x0) h_init h → record_kept D' x0 on K h →
  Model__update fuel E x0 values plain h = (Ok u, h') →
  framed D' (λ a, a = x0) h_init h' ∧ record_kept D' x0 on K h'.
Proof.
  destruct fuel as [|fuel]; [done|]. rewrite Model__update_S.
  intros HK Hvals. apply safe_VDict in Hvals. revert h.
  induction values as [|[k v] values IHv]; intros h HJ Hrec Hr.
  - injection Hr as _ <-. done.
  - apply Forall_cons in Hvals as [[_ Hv] Hvals]. simpl in Hv.
    simpl in Hr. apply bind_Ok in Hr as (u1 & h1 & Hstep & Hr).
    assert (k ∈ K) as Hk by (apply (HK (k, v)); left).
    assert (framed D' (λ a, a = x0) h_init h1 ∧ record_kept D' x0 on K h1) as [HJ1 Hrec1].
    2:{ apply (IHv (λ kv Hkv, HK kv (list_elem_of_further _ _ _ Hkv)) Hvals h1 HJ1 Hrec1 Hr). }
    clear Hr IHv.
    unfold update_step in Hstep. simpl in Hstep.
    apply bind_Ok in Hstep as (declared & h0 & Hcont & Hstep).
    apply Model_contains_inv in Hcont as ->.
    apply bind_Ok in Hstep as (value & h0 & Hval & Hstep).
    destruct declared; simpl in Hstep; [|by injection Hval as <- <-; injection Hstep as _ <-].
    apply bind_Ok in Hval as (x & h2 & Hget & Hval).
    apply Model_getitem_inv in Hget as (-> & o & name & f & Ho & -> & Hf & ->).
    injection Hval as <- <-.
    assert (∀ c, (if plain
                  then f0 <- Model_field x0 (VStr name) ;;
                       x <- Field_to_python E (Model_new fuel E) f0 v ;;
                       Model_setitem fuel E x0 (VStr name) x
                  else Model_setitem fuel E x0 (VStr name) v) h = (Ok c, h1) →
            framed D' (λ a, a = x0) h_init h1 ∧ record_kept D' x0 on K h1) as Hassign.
    { intros c Hc. split.
      - eapply (framed_assign E D' HE); [exact HJ | by right | exact Hv | exact Hc].
      - eapply record_kept_assign; [apply HJ | exact Hrec | exact Hk | exact Hv | exact Hc]. }
    destruct (Field_get f name o) as [| | | | c| | | |nested] eqn:Hx;
      simpl in Hstep; try (destruct (negb _)); try destruct b;
      try (by eapply Hassign).
    destruct v as [| | | | | | |d|]; try (by eapply Hassign).
    assert (D' nested) as Hnested.
    { destruct Hrec as (o' & Ho' & _ & _ & Hch). assert (o' = o) as -> by congruence.
      by eapply (Hch name f). }
    assert (framed D' (λ _, False) h h1) as [HG1 Hfr1].
    { eapply (framed_update_in E D' HE (λ _, False) h fuel nested d);
        [exact Hnested | exact Hv | | exact Hstep].
      split; [apply HJ | done]. }
    split.
    + split; [done|]. intros a Ha Hne. rewrite Hfr1 by tauto. by apply HJ.
    + eapply record_kept_same; [exact Hrec|]. apply Hfr1; tauto.
Qed.
End FootprintAt.

(** ** Ordinary classes *)

Lemma dict_get_Some d name a : dict_get d name = Some a → name ∈ d.*1.
Proof.
  induction d as [|[k a'] d IH]; [done|]. simpl.
  destruct (dict_get d name) as [a''|].
  - intros Heq. right. by apply IH.
  - destruct (String.eqb k name) eqn:Hk; [|done].
    intros _. apply String.eqb_eq in Hk as ->. left.
Qed.

Lemma type_lookup_reachable cls name a :
  type_lookup cls name = Some a → name ∈ reachable_names cls.
Proof.
  unfold type_lookup, reachable_names. destruct (mro cls) as [l|]; [|done].
  induction l as [|c l IH]; [done|]. simpl.
  destruct (dict_get (c_dict c) name) as [a'|] eqn:Hd.
  - intros _. apply elem_of_app. left. by eapply dict_get_Some.
  - intros Hl. apply elem_of_app. right. by apply IH.
Qed.

(** On an ordinary class the names of [_fields] are the names that
    attribute lookup resolves to a field, with the same field. *)
Lemma ordinary_field cls name f :
  ordinary cls → c_fields cls !! name = Some f → type_lookup cls name = Some (AField f).
Proof. intros (Hres & _) Hf. by apply (Hres name f). Qed.

Lemma ordinary_lookup cls name f :
  ordinary cls → type_lookup cls name = Some (AField f) → c_fields cls !! name = Some f.
Proof.
  intros (Hres & Hcov & _) Hl.
  unfold covers in Hcov. rewrite forallb_forall in Hcov.
  pose proof (type_lookup_reachable _ _ _ Hl) as Hin. apply list_elem_of_In in Hin.
  specialize (Hcov name Hin). rewrite Hl in Hcov.
  apply bool_decide_eq_true in Hcov as [f0 Hf0].
  pose proof (Hres name f0 Hf0) as Hl0. simpl in Hl0. congruence.
Qed.

(** On an ordinary class the descriptor reached under a name is the
    entry of [_fields] under that name, whatever the name. *)
Lemma ordinary_dispatch cls name :
  ordinary cls → descriptor cls name = c_fields cls !! name.
Proof.
  intros Hord. unfold descriptor.
  destruct (c_fields cls !! name) as [f|] eqn:Hf.
  - by rewrite (ordinary_field _ _ _ Hord Hf).
  - destruct (type_lookup cls name) as [[f|v]|] eqn:Hl; try done.
    apply (ordinary_lookup _ _ _ Hord) in Hl. congruence.
Qed.

Lemma ordinary_plain_name cls name f :
  ordinary cls → c_fields cls !! name = Some f → plain_name name = true.
Proof.
  intros Hord Hf. pose proof (ordinary_field _ _ _ Hord Hf) as Hl.
  destruct Hord as (_ & _ & _ & Hplain). unfold plain_names in Hplain.
  apply andb_true_iff in Hplain as [_ Hplain]. rewrite forallb_forall in Hplain.
  apply Hplain. apply list_elem_of_In. by eapply type_lookup_reachable.
Qed.

Lemma plain_name_keyword name :
  plain_name name = true → name ≠ "cls" ∧ name ≠ "self".
Proof.
  unfold plain_name. intros Hp. apply andb_true_iff in Hp as [Hp _].
  apply negb_true_iff, bool_decide_eq_false in Hp.
  split; intros ->; apply Hp; unfold model_members; set_solver.
Qed.

(** The keywords that name fields of an ordinary class can be bound. *)
Lemma ordinary_keywords cls (kwargs : list (string * val)) :
  ordinary cls → (∀ k, k ∈ kwargs.*1 → is_Some (c_fields cls !! k)) →
  ("cls" ∉ kwargs.*1) ∧ ("self" ∉ kwargs.*1).
Proof.
  intros Hord Hk. split; intros Hin; destruct (Hk _ Hin) as [f Hf];
    destruct (plain_name_keyword _ (ordinary_plain_name _ _ _ Hord Hf)) as [Hc Hs];
    done.
Qed.

Lemma env_ordinary_class E m cls :
  env_ordinary E → classes E !! m = Some cls → ordinary cls.
Proof. intros HE Hm. by apply (HE m cls). Qed.

(** The classes of the examples are ordinary. *)
Ltac ordinary_class :=
  split; [|split; [reflexivity|split; [|reflexivity]]];
  [ apply map_Forall_to_list;
    match goal with
    | |- Forall _ (map_to_list ?m) =>
        let l := eval vm_compute in (map_to_list m) in
        change (map_to_list m) with l
    end;
    repeat (apply Forall_cons_2; [reflexivity|]); apply Forall_nil_2
  | match goal with
    | |- NoDup (?l).*2 =>
        let l' := eval vm_compute in (l.*2) in change (l.*2) with l'
    end;
    repeat (apply NoDup_cons_2;
            [intros Hin;
             repeat (apply elem_of_cons in Hin as [Hin|Hin];
                     [first [ apply (f_equal kind) in Hin; discriminate Hin
                            | apply (f_equal default) in Hin; discriminate Hin
                            | apply (f_equal fid) in Hin; discriminate Hin ]|]);
             by apply elem_of_nil in Hin|]);
    apply NoDup_nil_2 ].

Lemma ordinary_Point : ordinary class_Point.
Proof. ordinary_class. Qed.

Lemma ordinary_Box : ordinary class_Box.
Proof. ordinary_class. Qed.

Lemma ordinary_Bag : ordinary class_Bag.
Proof. ordinary_class. Qed.

Lemma ordinary_Crate : ordinary class_Crate.
Proof. ordinary_class. Qed.

Lemma ordinary_Doc : ordinary class_Doc.
Proof. ordinary_class. Qed.

Lemma ordinary_Node : ordinary class_Node.
Proof. ordinary_class. Qed.

Ltac ordinary_env :=
  apply map_Forall_to_list;
  match goal with
  | |- Forall _ (map_to_list ?m) =>
      let l := eval vm_compute in (map_to_list m) in
      change (map_to_list m) with l
  end;
  repeat (apply Forall_cons_2;
          [first [ exact ordinary_Point | exact ordinary_Box | exact ordinary_Bag
                 | exact ordinary_Crate | exact ordinary_Doc | exact ordinary_Node ]|]);
  apply Forall_nil_2.

Lemma env0_ordinary : env_ordinary env0.
Proof. ordinary_env. Qed.

Lemma env1_ordinary : env_ordinary env1.
Proof. ordinary_env. Qed.

Lemma env2_ordinary : env_ordinary env2.
Proof. ordinary_env. Qed.

Lemma env_clock_ordinary : env_ordinary env_clock.
Proof. ordinary_env. Qed.

Lemma env_node_ordinary : env_ordinary env_node.
Proof. ordinary_env. Qed.

(** What the condition leaves out: a class whose body shadows an
    inherited field, a class with two bases that declare the same name, a
    class that inherits a field from a base of a base, and one field
    object under two names. *)
Lemma not_ordinary :
  ¬ ordinary class_AB ∧ ¬ ordinary class_AB2 ∧ ¬ ordinary class_BA
  ∧ ¬ ordinary class_C ∧ ¬ ordinary class_Twice.
Proof.
  repeat split.
  - intros (Hres & _). specialize (Hres "x" (StringField [] ∅) eq_refl).
    vm_compute in Hres. discriminate Hres.
  - intros (Hres & _). specialize (Hres "x" (StringField [] ∅) eq_refl).
    vm_compute in Hres. discriminate Hres.
  - intros (Hres & _). specialize (Hres "x" (IntegerField [] ∅) eq_refl).
    vm_compute in Hres. discriminate Hres.
  - intros (_ & Hcov & _). vm_compute in Hcov. discriminate Hcov.
  - intros (_ & _ & Hnd & _).
    assert ((map_to_list (c_fields class_Twice)).*2
            = [StringField [] ∅; StringField [] ∅]) as Heq by (vm_compute; reflexivity).
    rewrite Heq in Hnd. apply NoDup_cons in Hnd as [Hin _]. apply Hin. left.
Qed.

(** A concrete list has no such member. *)
Ltac not_in_list :=
  let Hin := fresh "Hin" in
  intros Hin; simpl in Hin;
  repeat (apply elem_of_cons in Hin as [Hin|Hin]; [discriminate Hin|]);
  by apply elem_of_nil in Hin.

(** ** Undeclared names *)





(** ** Nested update in place *)

(** A node that refers to itself.  An update with a mapping for [next]
    is the update of the node the field holds, which is the node itself:
    with [None] for [next] inside, the field ends up holding [None] and no
    longer the node; with a value for [val] one level further down, [val]
    changes from 1 to 7 although the mapping given for [next] does not
    mention it. *)
Lemma counterexample_nested_update :
  getattr heap_loop 0%nat "next" = Some (VObj 0%nat)
  ∧ getattr heap_loop 0%nat "val" = Some (VInt 1)
  ∧ (∃ h', Model__update 3%nat env_node 0%nat
             [(VStr "next", VDict [(VStr "next", VNone)])] false heap_loop = (Ok tt, h')
           ∧ getattr h' 0%nat "next" = Some VNone)
  ∧ (∃ h', Model__update 3%nat env_node 0%nat
             [(VStr "next", VDict [(VStr "next", VDict [(VStr "val", VInt 7)])])] false
             heap_loop = (Ok tt, h')
           ∧ getattr h' 0%nat "next" = Some (VObj 0%nat)
           ∧ getattr h' 0%nat "val" = Some (VInt 7)).
Proof.
  split; [reflexivity|]. split; [reflexivity|]. split.
  - eexists. split; vm_compute; reflexivity.
  - eexists. split; [vm_compute; reflexivity|]. split; vm_compute; reflexivity.
Qed.

(** C5 (amended).  For instances of ordinary classes: when the field
    [name] of [self] currently holds the model instance [nested],
    updating [self] with a mapping for [name] is the update of [nested]
    with that mapping: no instance is created and the field is not
    assigned.  Afterwards [self] is untouched, so that [name] still refers
    to [nested], and [nested] keeps its class and every value whose key
    the mapping does not mention, provided [nested] is not [self] and
    either the mapping holds no further mappings, or the instances below
    [nested] and in the mapping lie in a list [D] that holds the children
    of its members and neither [self] nor [nested], no field having an
    instance as its default. *)
Theorem nested_update_in_place (fuel : nat) (E : env) (self : addr) (o : obj)
    (name : string) (f : Field) (nested : addr) (d : list (val * val))
    (plain : bool) (h : heap) :
  env_ordinary E → heap_ordinary h →
  h !! self = Some o →
  c_fields (o_class o) !! name = Some f →
  Field_get f name o = VObj nested →
  Model__update (S fuel) E self [(VStr name, VDict d)] plain h
  = Model__update fuel E nested d plain h
  ∧ (nested ≠ self →
     Forall (λ kv, is_dict kv.2 = false) d
     ∨ (∃ D, env_plain_defaults E = true ∧ closedb h D = true
             ∧ forallb (λ b, bool_decide (b ∈ D)) (children h nested ++ refs (VDict d)) = true
             ∧ (self ∉ D) ∧ (nested ∉ D)) →
     ∀ h', Model__update fuel E nested d plain h = (Ok tt, h') →
       h' !! self = Some o
       ∧ getattr h' self name = Some (VObj nested)
       ∧ ∀ on, h !! nested = Some on →
           ∃ on', h' !! nested = Some on' ∧ o_class on' = o_class on
                  ∧ ∀ j, VStr j ∉ d.*1 → _data on' !! j = _data on !! j).
Proof.
  intros _ Hh Ho Hf Hv.
  assert (descriptor (o_class o) name = Some f) as Hl.
  { rewrite ordinary_dispatch; [exact Hf|].
    unfold heap_ordinary in Hh. rewrite Forall_lookup in Hh. by eapply Hh. }
  split.
  - rewrite Model__update_S. simpl. unfold bind.
    rewrite (update_step_nested _ _ _ o name f nested) by done.
    by destruct (Model__update fuel E nested d plain h) as [[[]|e|] h1].
  - intros Hne [Hflat | (D & HE & Hcl & Hin & HsD & HnD)] h' Hup.
    + destruct fuel as [|fuel]; [discriminate Hup|].
      rewrite Model__update_S in Hup. rewrite Forall_forall in Hflat.
      assert (h' !! self = Some o) as Ho'.
      { eapply (frames_for_ nested d); [|exact Hup|done|exact Ho].
        intros kv Hkv. apply frames_update_step_flat. by apply Hflat. }
      split; [exact Ho'|]. split.
      { unfold getattr. rewrite Ho', Hl. by rewrite Hv. }
      intros on Hon.
      eapply (writes_only_for_ nested (d.*1) d); [|exact Hup|exact Hon].
      intros kv Hkv. apply writes_only_update_step_flat; [by apply Hflat|].
      by apply list_elem_of_fmap_2.
    + set (D' := λ a : nat, a ∈ D ∨ (List.length h ≤ a)%nat).
      pose proof (closedb_good_store h D Hcl) as HG. fold D' in HG.
      rewrite forallb_forall in Hin.
      assert (∀ b, b ∈ children h nested ++ refs (VDict d) → D' b) as Hin'.
      { intros b Hb. left. apply list_elem_of_In in Hb.
        specialize (Hin b Hb). by apply bool_decide_eq_true in Hin. }
      assert (∀ a on, h !! a = Some on → a ∉ D → ¬ D' a) as Hout.
      { intros a on Ha HaD [?|Hlen]; [done|]. apply lookup_lt_Some in Ha. lia. }
      assert (h' !! self = Some o ∧
              ∀ on, h !! nested = Some on → record_kept D' nested on (d.*1) h') as [Ho' Hrec].
      { destruct (h !! nested) as [on|] eqn:Hon.
        2:{ destruct fuel as [|fuel]; [discriminate Hup|].
            rewrite Model__update_S in Hup. destruct d as [|[k v] d].
            - injection Hup as <-. done.
            - simpl in Hup. apply bind_Ok in Hup as (u1 & h1 & Hstep & _).
              unfold update_step in Hstep.
              apply bind_Ok in Hstep as (dec & h0 & Hcont & _).
              unfold Model_contains in Hcont.
              apply bind_Ok in Hcont as (x & h2 & Hinst & _).
              unfold instance, reading in Hinst. rewrite Hon in Hinst. discriminate Hinst. }
        destruct (framed_update_at E D' nested on (d.*1) h HE (Hout _ _ Hon HnD)
                    fuel d plain h tt h') as [[_ Hfr] Hrec].
        - intros kv Hkv. by apply list_elem_of_fmap_2.
        - intros b Hb. apply Hin'. apply elem_of_app. by right.
        - split; [exact HG | done].
        - exists on. split; [done|]. split; [done|]. split; [done|].
          intros name' f' b Hf' Hget. apply Hin'. apply elem_of_app. left.
          by eapply children_spec.
        - exact Hup.
        - split.
          + rewrite Hfr; [exact Ho | by eapply Hout | done].
          + intros on0 [= <-]. exact Hrec. }
      split; [exact Ho'|]. split.
      { unfold getattr. rewrite Ho', Hl. by rewrite Hv. }
      intros on Hon. destruct (Hrec on Hon) as (on' & Hon' & Hcls & Hdata & _).
      by exists on'.
Qed.

Lemma nested_update_in_place_witness :
  Model__update 3%nat env2 0%nat
    [(VStr "box", VDict [(VStr "inner", VDict [(VStr "x", VInt 2)])])] false heap_crate
  = Model__update 2%nat env2 1%nat [(VStr "inner", VDict [(VStr "x", VInt 2)])] false heap_crate
  ∧ ∃ h', Model__update 2%nat env2 1%nat [(VStr "inner", VDict [(VStr "x", VInt 2)])] false
            heap_crate = (Ok tt, h')
          ∧ h' !! 0%nat = Some (mkObj class_Crate {["box" := VObj 1%nat]})
          ∧ getattr h' 0%nat "box" = Some (VObj 1%nat)
          ∧ getattr h' 1%nat "inner" = Some (VObj 2%nat)
          ∧ getattr h' 2%nat "x" = Some (VInt 2).
Proof.
  destruct (nested_update_in_place 2%nat env2 0%nat (mkObj class_Crate {["box" := VObj 1%nat]})
              "box" (EmbeddedField "Box" [] ∅) 1%nat
              [(VStr "inner", VDict [(VStr "x", VInt 2)])] false heap_crate)
    as [Heq Hframe];
    [ exact env2_ordinary
    | repeat (apply Forall_cons_2;
              [first [exact ordinary_Crate | exact ordinary_Box | exact ordinary_Point]|]);
      apply Forall_nil_2
    | reflexivity | reflexivity | vm_compute; reflexivity |].
  split; [exact Heq|].
  eexists. split; [vm_compute; reflexivity|].
  edestruct Hframe as (Hs & Hg & _).
  - discriminate.
  - right. exists [2%nat]. repeat split; try (vm_compute; reflexivity).
    + intros Hin. apply list_elem_of_In in Hin. simpl in Hin. intuition discriminate.
    + intros Hin. apply list_elem_of_In in Hin. simpl in Hin. intuition discriminate.
  - vm_compute. reflexivity.
  - split; [exact Hs|]. split; [exact Hg|]. split; vm_compute; reflexivity.
Defined.

(** ** The plain round trip *)

Lemma agree_mono lo lo' h1 h2 : agree lo h1 h2 → (lo ≤ lo')%nat → agree lo' h1 h2.
Proof. intros Ha Hle i o Hi. apply Ha. lia. Qed.

Lemma agree_app_l lo h ext h2 : agree lo (h ++ ext) h2 → agree lo h h2.
Proof. intros Ha i o Hi Ho. apply Ha; [done|]. by apply lookup_app_l_Some. Qed.

Lemma builds_ret h0 v : builds h0 None v (ret v).
Proof.
  intros h Hp. exists v, []. rewrite app_nil_r. repeat split.
  intros. apply veq_same.
Qed.

Lemma builds_weaken h0 model v c : builds h0 model v c → builds h0 None v c.
Proof.
  intros Hb h Hp. destruct (Hb h Hp) as (x & ext & Hc & _ & Hv).
  exists x, ext. by repeat split.
Qed.

(** A loop that coerces and stores one value per declared name fills the
    instance with values logically equal to the given ones. *)
Lemma build_loop {T} (h0 : heap) (self : nat) (cls : ModelClass) (body : T → M unit)
    (ts : list T) (L : list (string * val * M val)) :
  Forall2 (λ t nvc,
    builds h0 None nvc.1.2 nvc.2
    ∧ ∀ h o_s, h0 `prefix_of` h → h !! self = Some o_s → o_class o_s = cls →
               _data o_s !! nvc.1.1 = None →
               body t h = (x <- nvc.2 ;; store self nvc.1.1 x) h) ts L →
  NoDup (L.*1.*1) →
  (List.length h0 ≤ self)%nat →
  ∀ h o_s, h0 `prefix_of` h → h !! self = Some o_s → o_class o_s = cls →
    (∀ name, name ∈ L.*1.*1 → _data o_s !! name = None) →
    ∃ h_f o_f, for_ ts body h = (Ok tt, h_f)
      ∧ h0 `prefix_of` h_f
      ∧ h_f !! self = Some o_f ∧ o_class o_f = cls
      ∧ (∀ a o, a ≠ self → h !! a = Some o → h_f !! a = Some o)
      ∧ (∀ j, j ∉ L.*1.*1 → _data o_f !! j = _data o_s !! j)
      ∧ ∀ h'', h0 `prefix_of` h'' → agree (List.length h) h_f h'' →
          Forall (λ nvc, ∃ x, _data o_f !! nvc.1.1 = Some x ∧ veq h'' nvc.1.2 x) L.
Proof.
  intros HF. induction HF as [|t [[name v] c] ts L [Hb Hbody] HF IH];
    intros Hnd Hself h o_s Hp Ho Hcls Hunset.
  - exists h, o_s. simpl. repeat split; try done; intros; constructor.
  - simpl in *. apply NoDup_cons in Hnd as [Hname Hnd].
    destruct (Hb h Hp) as (x & ext & Hc & _ & Hveq).
    assert (self < List.length h)%nat as Hlt by (by eapply lookup_lt_Some).
    pose (o1 := mkObj (o_class o_s) (<[name := x]> (_data o_s))).
    assert (body t h = (Ok tt, <[self := o1]> (h ++ ext))) as Hstep.
    { rewrite (Hbody h o_s) by (try done; apply Hunset; left).
      rewrite (bind_Ok_intro _ _ _ _ _ Hc). unfold store.
      by rewrite (lookup_app_l_Some _ _ _ _ Ho). }
    assert (h0 `prefix_of` <[self := o1]> (h ++ ext)) as Hp1.
    { destruct Hp as [k ->]. rewrite <- app_assoc.
      rewrite insert_app_r_alt by done. by apply prefix_app_r. }
    assert (<[self := o1]> (h ++ ext) !! self = Some o1) as Ho1.
    { apply list_lookup_insert_eq. rewrite length_app. lia. }
    destruct (IH Hnd Hself _ o1 Hp1 Ho1 Hcls) as (h_f & o_f & Hfor & Hpf & Hof & Hclsf & Hframe & Hdata & Hlater).
    { intros name' Hn'. simpl. rewrite lookup_insert_ne; [apply Hunset; by right|].
      intros ->. done. }
    exists h_f, o_f. rewrite (bind_Ok_intro _ _ _ _ _ Hstep).
    repeat split; try done.
    + intros a o Hne Ha. apply Hframe; [done|].
      rewrite list_lookup_insert_ne by done. by apply lookup_app_l_Some.
    + intros j Hj. rewrite Hdata by (intros ?; apply Hj; by right).
      simpl. apply lookup_insert_ne. intros ->. apply Hj. left.
    + intros h'' Hp'' Hag. constructor.
      * exists x. simpl. split.
        -- rewrite Hdata by done. simpl. apply lookup_insert_eq.
        -- apply Hveq; [done|]. intros i o Hi Hio. apply Hag; [done|].
           apply Hframe; [lia|]. rewrite list_lookup_insert_ne by lia. done.
      * apply Hlater; [done|]. eapply agree_mono; [exact Hag|].
        rewrite length_insert, length_app. lia.
Qed.

(** *** Dict keys *)

Lemma dict_replace_None d k v :
  forallb (λ k', negb (key_eqb k' k)) d.*1 = true → dict_replace d k v = None.
Proof.
  induction d as [|[k' v'] d IH]; simpl; [done|].
  intros [Hk Hd]%andb_prop. apply negb_true_iff in Hk. rewrite Hk.
  by rewrite IH.
Qed.

Lemma keys_ok_cons seen k keys :
  keys_ok seen (k :: keys) = true →
  hashable k = true ∧ is_obj k = false
  ∧ forallb (λ k', negb (key_eqb k' k)) seen = true
  ∧ keys_ok (seen ++ [k]) keys = true.
Proof.
  simpl. intros [[[Hh Ho]%andb_prop Hs]%andb_prop Hk]%andb_prop.
  apply negb_true_iff in Ho. done.
Qed.

Lemma dict_setitem_fresh d k v keys :
  keys_ok d.*1 (k :: keys) = true → dict_setitem d k v = Ok (d ++ [(k, v)]).
Proof.
  intros (Hh & _ & Hs & _)%keys_ok_cons. unfold dict_setitem.
  by rewrite Hh, dict_replace_None.
Qed.

Lemma plain_or_self_other tp v : is_obj v = false → plain_or_self tp v = Ok v.
Proof. by destruct v. Qed.

Lemma mapO_plain_or_self_other tp l :
  Forall (λ x, is_obj x = false) l → mapO (plain_or_self tp) l = Ok l.
Proof.
  induction 1 as [|x l Hx Hl IH]; simpl; [done|].
  by rewrite plain_or_self_other, IH.
Qed.

Lemma mapM_ret (l : list val) h : mapM (λ s, ret s) l h = (Ok l, h).
Proof.
  induction l as [|x l IH]; simpl; [done|].
  unfold bind, ret in *. by rewrite IH.
Qed.

(** The loop of [DictField.to_plain] over a dict with proper keys keeps
    the keys and converts the values. *)
Lemma DictField_to_plain_loop_ok tp (items dp result : list (val * val)) :
  keys_ok result.*1 items.*1 = true →
  Forall2 (λ kv kp, kv.1 = kp.1 ∧ plain_or_self tp kv.2 = Ok kp.2) items dp →
  DictField_to_plain_loop tp items result = Ok (result ++ dp).
Proof.
  intros Hk HF. revert result Hk.
  induction HF as [|[k v] [k' p] items dp [Hkk Hp] HF IH]; intros result Hk; simpl in *.
  - by rewrite app_nil_r.
  - subst k'. pose proof (keys_ok_cons _ _ _ Hk) as (_ & Ho & _ & Hk').
    rewrite plain_or_self_other by done. simpl. rewrite Hp. simpl.
    rewrite (dict_setitem_fresh _ _ _ items.*1) by done. simpl.
    rewrite IH by (by rewrite fmap_app). by rewrite <- app_assoc.
Qed.

Lemma isinstance_prefix h h' v m :
  h `prefix_of` h' → isinstance h v m = true → isinstance h' v m = true.
Proof.
  intros Hp. destruct v; simpl; try done.
  destruct (h !! a) as [o|] eqn:Ho; [|done].
  by rewrite (prefix_lookup_Some _ _ _ _ Ho Hp).
Qed.

Lemma instance_of_prefix model h h' v :
  h `prefix_of` h' → instance_of model h v → instance_of model h' v.
Proof. destruct model; simpl; [apply isinstance_prefix | done]. Qed.

(** A list of values is read back element by element. *)
Lemma mapM_builds h0 model (c : val → M val) (ps vs : list val) :
  Forall2 (λ p v, builds h0 model v (c p)) ps vs →
  ∀ h, h0 `prefix_of` h →
    ∃ xs ext, mapM c ps h = (Ok xs, h ++ ext)
      ∧ List.length xs = List.length ps
      ∧ Forall (instance_of model (h ++ ext)) xs
      ∧ ∀ h'', h0 `prefix_of` h'' → agree (List.length h) (h ++ ext) h'' →
               Forall2 (veq h'') vs xs.
Proof.
  induction 1 as [|p v ps vs Hb HF IH]; intros h Hp; simpl.
  - exists [], []. rewrite app_nil_r. repeat split; [constructor | intros; constructor].
  - destruct (Hb h Hp) as (x & ext1 & Hc & Hi & Hv).
    destruct (IH (h ++ ext1)) as (xs & ext2 & Hm & Hlen & His & Hvs).
    { etrans; [exact Hp | by apply prefix_app_r]. }
    exists (x :: xs), (ext1 ++ ext2).
    rewrite (bind_Ok_intro _ _ _ _ _ Hc), (bind_Ok_intro _ _ _ _ _ Hm).
    rewrite app_assoc. repeat split.
    + simpl. by rewrite Hlen.
    + constructor; [|done]. eapply instance_of_prefix; [|exact Hi]. by apply prefix_app_r.
    + intros h'' Hp'' Hag. constructor.
      * apply Hv; [done|]. by eapply agree_app_l.
      * apply Hvs; [done|]. eapply agree_mono; [exact Hag|]. rewrite length_app. lia.
Qed.

(** The loop of [DictField.to_python], without a key model, over a
    mapping with proper keys keeps the keys and reads back the values. *)
Lemma DictField_to_python_loop_ok E call h0 vm (items : list (val * val))
    (vs : list (val * val)) (result : list (val * val)) :
  keys_ok result.*1 items.*1 = true →
  Forall2 (λ kp kv, kp.1 = kv.1 ∧
     builds h0 vm kv.2 (match vm with
                        | Some m => new_model E call m kp.2
                        | None => ret kp.2
                        end)) items vs →
  ∀ h, h0 `prefix_of` h →
    ∃ dx ext, DictField_to_python_loop E call None vm items result h
              = (Ok (result ++ dx), h ++ ext)
      ∧ Forall (λ kx, instance_of vm (h ++ ext) kx.2) dx
      ∧ ∀ h'', h0 `prefix_of` h'' → agree (List.length h) (h ++ ext) h'' →
               Forall2 (λ kv kx, veq h'' kv.1 kx.1 ∧ veq h'' kv.2 kx.2) vs dx.
Proof.
  intros Hk HF. revert result Hk.
  induction HF as [|[k p] [k' v] items vs [Hkk Hb] HF IH]; intros result Hk h Hp;
    simpl in *.
  - exists [], []. rewrite !app_nil_r. repeat split; [constructor | intros; constructor].
  - subst k'. pose proof (keys_ok_cons _ _ _ Hk) as (_ & Ho & _ & Hk').
    destruct (Hb h Hp) as (x & ext1 & Hc & Hi & Hv).
    destruct (IH (result ++ [(k, x)])) with (h := h ++ ext1) as (dx & ext2 & Hm & His & Hvs).
    { by rewrite fmap_app. }
    { etrans; [exact Hp | by apply prefix_app_r]. }
    exists ((k, x) :: dx), (ext1 ++ ext2).
    unfold bind at 1. unfold ret at 1.
    rewrite (bind_Ok_intro _ _ _ _ _ Hc).
    unfold bind at 1. unfold reading at 1.
    rewrite (dict_setitem_fresh _ _ _ items.*1) by done.
    rewrite Hm. rewrite <- !app_assoc. simpl. repeat split.
    + constructor; [|by rewrite app_assoc].
      simpl. eapply instance_of_prefix; [|exact Hi]. rewrite app_assoc. by apply prefix_app_r.
    + intros h'' Hp'' Hag. constructor.
      * split; [apply veq_same|]. simpl. apply Hv; [done|].
        rewrite app_assoc in Hag. by eapply agree_app_l.
      * apply Hvs; [done|]. rewrite app_assoc in Hag.
        eapply agree_mono; [exact Hag|]. rewrite length_app. lia.
Qed.

(** *** Runs of the list and dict conversions *)

Lemma truthy_VList_cons x (l : list val) : truthy (VList (x :: l)) = true.
Proof. done. Qed.

Lemma ListField_to_plain_run h tp (l ps : list val) :
  l ≠ [] → ps ≠ [] → mapO (plain_or_self tp) l = Ok ps →
  ListField_to_plain h tp (VList l) = Ok (VList ps).
Proof.
  intros Hl Hps Hm. unfold ListField_to_plain. destruct l as [|v l]; [done|].
  rewrite truthy_VList_cons. cbn [py_iter]. unfold bindo at 1. rewrite Hm.
  unfold bindo. by destruct ps.
Qed.

Lemma DictField_to_plain_run tp (d dp : list (val * val)) :
  d ≠ [] → DictField_to_plain_loop tp d [] = Ok dp →
  DictField_to_plain tp (VDict d) = Ok (VDict dp).
Proof.
  intros Hd Hl. unfold DictField_to_plain. destruct d as [|kv d]; [done|].
  assert (truthy (VDict (kv :: d)) = true) as -> by done. cbv [negb].
  by rewrite Hl.
Qed.

Lemma ListField_to_python_run E call model (ps xs : list val) h h' :
  ps ≠ [] → xs ≠ [] →
  mapM (λ s, match model with
             | Some m => new_model E call m s
             | None => ret s
             end) ps h = (Ok xs, h') →
  ListField_to_python E call model (VList ps) h = (Ok (VList xs), h').
Proof.
  intros Hps Hxs Hm. unfold ListField_to_python.
  destruct ps as [|p ps]; [done|]. rewrite truthy_VList_cons.
  unfold bind at 1. unfold reading at 1. simpl py_iter. cbv iota beta.
  rewrite (bind_Ok_intro _ _ _ _ _ Hm).
  destruct xs as [|x xs]; [done|]. by rewrite truthy_VList_cons.
Qed.

Lemma ListField_coerce_instances E call m (xs : list val) h :
  Forall (instance_of (Some m) h) xs →
  ListField_coerce E call (Some m) (VList xs) h = (Ok (VList xs), h).
Proof.
  intros Hi. unfold ListField_coerce. destruct xs as [|x xs]; [done|].
  apply Forall_cons in Hi as [Hx _]. simpl in Hx.
  unfold bind, reading. by rewrite Hx.
Qed.

Lemma ListField_coerce_plain E call m (ps : list val) h :
  Forall (λ p, is_dict p = true) ps →
  ListField_coerce E call (Some m) (VList ps) h
  = ListField_to_python E call (Some m) (VList ps) h.
Proof.
  intros Hd. unfold ListField_coerce. destruct ps as [|p ps]; [done|].
  apply Forall_cons in Hd as [Hp _].
  unfold bind at 1. unfold reading at 1.
  assert (isinstance h p m = false) as -> by (by destruct p).
  done.
Qed.

Lemma DictField_to_python_run E call vm (d dx : list (val * val)) h h' :
  d ≠ [] →
  DictField_to_python_loop E call None vm d [] h = (Ok dx, h') →
  DictField_to_python E call None vm (VDict d) h = (Ok (VDict dx), h').
Proof.
  intros Hd Hl. unfold DictField_to_python.
  destruct d as [|kv d]; [done|].
  assert (truthy (VDict (kv :: d)) = true) as -> by done. cbv [negb].
  by rewrite (bind_Ok_intro _ _ _ _ _ Hl).
Qed.

Lemma DictField_coerce_instances E call m (dx : list (val * val)) h :
  Forall (λ kx, instance_of (Some m) h kx.2) dx →
  DictField_coerce E call None (Some m) (VDict dx) h = (Ok (VDict dx), h).
Proof.
  intros Hi. unfold DictField_coerce. destruct dx as [|[k x] dx]; [done|].
  apply Forall_cons in Hi as [Hx _]. simpl in Hx.
  simpl. unfold bind, reading, not_instance. by rewrite Hx.
Qed.

Lemma DictField_coerce_plain E call m (dp : list (val * val)) h :
  dp ≠ [] → Forall (λ kp, is_dict kp.2 = true) dp →
  DictField_coerce E call None (Some m) (VDict dp) h
  = DictField_to_python E call None (Some m) (VDict dp) h.
Proof.
  intros Hne Hd. unfold DictField_coerce. destruct dp as [|[k p] dp]; [done|].
  apply Forall_cons in Hd as [Hp _]. simpl in Hp.
  simpl. unfold bind at 1. unfold reading at 1.
  assert (isinstance h p m = false) as -> by (by destruct p).
  done.
Qed.

Section FieldRoundTrip.
Context (n : nat) (E : env) (h0 : heap).
Hypothesis IHN : ∀ m v, rt_nested n E h0 m v → nested_spec n E h0 m v.

Lemma nested_list_plain m (l : list val) :
  Forall (rt_nested n E h0 m) l →
  ∃ ps, mapO (plain_or_self (Model_to_plain n E h0)) l = Ok ps
        ∧ Forall (λ p, is_dict p = true) ps
        ∧ Forall2 (λ p v, builds h0 (Some m) v (new_model E (Model_new n E) m p)) ps l.
Proof.
  induction 1 as [|v l Hv Hl (ps & Hps & Hd & HF)].
  - exists []. repeat split; constructor.
  - destruct (IHN m v Hv) as (a & p & -> & Hp & Ht & Hdict & Hb).
    exists (p :: ps). simpl. rewrite Hp. simpl. rewrite Ht, Hps. simpl.
    repeat split; by constructor.
Qed.

Lemma nested_dict_plain m (d : list (val * val)) :
  Forall (λ kv, rt_nested n E h0 m kv.2) d →
  ∃ dp, Forall2 (λ kv kp, kv.1 = kp.1
                          ∧ plain_or_self (Model_to_plain n E h0) kv.2 = Ok kp.2) d dp
        ∧ Forall (λ kp, is_dict kp.2 = true) dp
        ∧ Forall2 (λ kp kv, kp.1 = kv.1
             ∧ builds h0 (Some m) kv.2 (new_model E (Model_new n E) m kp.2)) dp d.
Proof.
  induction 1 as [|[k v] d Hv Hd (dp & Hdp & Hdict & HF)].
  - exists []. repeat split; constructor.
  - simpl in Hv. destruct (IHN m v Hv) as (a & p & -> & Hp & Ht & Hpd & Hb).
    exists ((k, p) :: dp). repeat split; constructor; try done.
    simpl. rewrite Hp. simpl. by rewrite Ht.
Qed.

Lemma builds_pure v (c : M val) : (∀ h, c h = (Ok v, h)) → builds h0 None v c.
Proof.
  intros Hc h Hp. exists v, []. rewrite app_nil_r. repeat split; [apply Hc|].
  intros. apply veq_same.
Qed.

Lemma builds_ext model v (c c' : M val) :
  (∀ h, c h = c' h) → builds h0 model v c' → builds h0 model v c.
Proof.
  intros Hc Hb h Hp. destruct (Hb h Hp) as (x & ext & Hr & Hi & Hv).
  exists x, ext. rewrite Hc. by repeat split.
Qed.

Lemma Forall2_fst_eq {A B C} (P : B → C → Prop) (d : list (A * B)) (dp : list (A * C)) :
  Forall2 (λ kv kp, kv.1 = kp.1 ∧ P kv.2 kp.2) d dp → d.*1 = dp.*1.
Proof.
  induction 1 as [|[k v] [k' p] d dp [Hk _] _ IH]; [done|].
  rewrite !fmap_cons. simpl in Hk. by rewrite Hk, IH.
Qed.

(** A field that holds a value that can be read back has a plain form,
    and the write path rebuilds an equal value from it. *)
Lemma field_round_trip (top : bool) (f : Field) (v : val) :
  rt_field E (rt_nested n E h0) top f v →
  ∃ p, Field_to_plain E h0 (Model_to_plain n E h0) f v = Ok p
       ∧ builds h0 None v (read_back n E top f p).
Proof.
  unfold rt_field, Field_to_plain, read_back, Field_to_python, Field_coerce.
  destruct (kind f) as [| | | | | |m|model|format|km vm kvs vvs] eqn:Hk.
  1,2,4,5,6: (intros _; exists v; split; [done|];
              apply builds_pure; intros h; by destruct top).
  - (* IntegerField *)
    intros [->|[z ->]]; eexists; (split; [done|]);
      apply builds_pure; intros h; by destruct top.
  - (* EmbeddedField *)
    intros [->|Hv].
    { exists VNone. split; [done|]. apply builds_pure. intros h. by destruct top. }
    destruct (IHN m v Hv) as (a & p & -> & Hp & Ht & Hd & Hb).
    exists p. split.
    { unfold EmbeddedField_to_plain. simpl. rewrite Hp. simpl. by rewrite Ht. }
    apply builds_weaken in Hb. eapply builds_ext; [|exact Hb].
    intros h. unfold EmbeddedField_coerce.
    destruct top; [unfold bind at 1, ret at 1|]; by rewrite Hd.
  - (* ListField *)
    destruct model as [m|].
    + intros [->|(l & -> & Hne & Hl)].
      { exists VNone. split; [done|]. apply builds_pure. intros h. by destruct top. }
      destruct (nested_list_plain m l Hl) as (ps & Hps & Hd & HF).
      assert (ps ≠ []) as Hpne.
      { apply Forall2_length in HF. intros ->. by destruct l. }
      exists (VList ps). split.
      { by apply ListField_to_plain_run. }
      intros h Hp.
      destruct (mapM_builds h0 (Some m) _ ps l HF h Hp) as (xs & ext & Hm & Hlen & His & Hvs).
      assert (xs ≠ []) as Hxne by (intros ->; by destruct ps).
      pose proof (ListField_to_python_run E (Model_new n E) (Some m) ps xs h _ Hpne Hxne Hm)
        as Hrun.
      exists (VList xs), ext. repeat split.
      * destruct top.
        -- rewrite (bind_Ok_intro _ _ _ _ _ Hrun). by apply ListField_coerce_instances.
        -- by rewrite ListField_coerce_plain.
      * intros h'' Hp'' Hag. apply veq_list. by apply Hvs.
    + intros [->|(l & -> & Hne & Hl)].
      { exists VNone. split; [done|]. apply builds_pure. intros h. by destruct top. }
      exists (VList l). split.
      { apply ListField_to_plain_run; [done..|]. by apply mapO_plain_or_self_other. }
      apply builds_pure. intros h. destruct top.
      * erewrite bind_Ok_intro.
        2:{ apply ListField_to_python_run with (xs := l); [done..|]. apply mapM_ret. }
        unfold ListField_coerce. by destruct l.
      * unfold ListField_coerce. by destruct l.
  - (* DateTimeField *)
    intros [->|(-> & t & fmt & -> & -> & Hs & Hparse)].
    { exists VNone. split; [done|]. apply builds_pure. intros h. by destruct top. }
    exists (VStr (strftime E t fmt)).
    assert (truthy (VStr (strftime E t fmt)) = true) as Htr.
    { simpl. apply negb_true_iff. by apply String.eqb_neq. }
    split.
    { unfold DateTimeField_to_plain. simpl truthy at 1. cbv iota. by rewrite Htr. }
    apply builds_pure. intros h.
    unfold bind, reading, DateTimeField_to_python. by rewrite Htr, Hparse.
  - (* DictField *)
    destruct km as [k|].
    { intros ->. exists VNone. split; [done|]. apply builds_pure. intros h. by destruct top. }
    destruct vm as [m|].
    + intros [->|(d & -> & Hne & Hkeys & Hd)].
      { exists VNone. split; [done|]. apply builds_pure. intros h. by destruct top. }
      destruct (nested_dict_plain m d Hd) as (dp & Hdp & Hdict & HF).
      assert (dp ≠ []) as Hpne.
      { apply Forall2_length in HF. intros ->. by destruct d. }
      pose proof (Forall2_fst_eq (λ x y, plain_or_self (Model_to_plain n E h0) x = Ok y) _ _ Hdp)
        as Hfst.
      exists (VDict dp). split.
      { apply DictField_to_plain_run; [done|].
        by rewrite (DictField_to_plain_loop_ok _ _ dp []). }
      intros h Hp.
      destruct (DictField_to_python_loop_ok E (Model_new n E) h0 (Some m) dp d [])
        with (h := h) as (dx & ext & Hloop & His & Hvs); [by rewrite <- Hfst | done | done |].
      simpl in Hloop.
      pose proof (DictField_to_python_run E (Model_new n E) (Some m) dp dx h _ Hpne Hloop)
        as Hrun.
      exists (VDict dx), ext. repeat split.
      * destruct top.
        -- rewrite (bind_Ok_intro _ _ _ _ _ Hrun). by apply DictField_coerce_instances.
        -- by rewrite DictField_coerce_plain.
      * intros h'' Hp'' Hag. apply veq_dict. by apply Hvs.
    + intros [->|(d & -> & Hne & Hkeys & Hd)].
      { exists VNone. split; [done|]. apply builds_pure. intros h. by destruct top. }
      exists (VDict d). split.
      { apply DictField_to_plain_run; [done|].
        rewrite (DictField_to_plain_loop_ok _ _ d []); [done..|].
        apply Forall_Forall2_diag. eapply Forall_impl; [exact Hd|].
        intros [k x] Hx. split; [done|]. by apply plain_or_self_other. }
      destruct top.
      * intros h Hp.
        destruct (DictField_to_python_loop_ok E (Model_new n E) h0 None d d [])
          with (h := h) as (dx & ext & Hloop & His & Hvs); [done | | done |].
        { apply Forall_Forall2_diag, Forall_forall. intros kv _. split; [done|].
          apply builds_ret. }
        simpl in Hloop.
        pose proof (DictField_to_python_run E (Model_new n E) None d dx h _ Hne Hloop)
          as Hrun.
        exists (VDict dx), ext. repeat split.
        -- rewrite (bind_Ok_intro _ _ _ _ _ Hrun).
           unfold DictField_coerce. by destruct dx as [|[] dx].
        -- intros h'' Hp'' Hag. apply veq_dict. by apply Hvs.
      * apply builds_pure. intros h. unfold DictField_coerce. by destruct d as [|[] d].
Qed.
End FieldRoundTrip.

(** *** Instances *)

Lemma Model_to_plain_S fuel E h self :
  Model_to_plain (S fuel) E h self
  = match h !! self with
    | None => Raise SystemError
    | Some o =>
        result <~ mapO (λ nf,
                    p <~ Field_to_plain E h (Model_to_plain fuel E h) nf.2
                           (Field_get nf.2 nf.1 o) ;;
                    Ok (VStr nf.1, p))
                  (map_to_list (c_fields (o_class o))) ;;
        Ok (VDict result)
    end.
Proof. reflexivity. Qed.

Lemma c_name_class_names c : c_name c ∈ class_names c.
Proof. destruct c. simpl. left. Qed.

Lemma string_keys_map {A} (g : A → string) (p : A → val) (I : list A) :
  string_keys (map (λ i, (VStr (g i), p i)) I) = Some (map (λ i, (g i, p i)) I).
Proof. induction I as [|i I IH]; simpl; [done|]. by rewrite IH. Qed.

(** The fields of an instance, one by one. *)
Lemma fields_round_trip n E h0 top (o : obj) (Lf : list (string * Field)) :
  (∀ m v, rt_nested n E h0 m v → nested_spec n E h0 m v) →
  Forall (λ nf, rt_field E (rt_nested n E h0) top nf.2 (Field_get nf.2 nf.1 o)) Lf →
  ∃ I : list (string * Field * val),
    I.*1 = Lf
    ∧ mapO (λ nf, p <~ Field_to_plain E h0 (Model_to_plain n E h0) nf.2
                         (Field_get nf.2 nf.1 o) ;;
                  Ok (VStr nf.1, p)) Lf
      = Ok (map (λ i, (VStr i.1.1, i.2)) I)
    ∧ Forall (λ i, builds h0 None (Field_get i.1.2 i.1.1 o)
                     (read_back n E top i.1.2 i.2)) I.
Proof.
  intros IHN. induction 1 as [|[name f] Lf Hf HLf (I & HI & Hplain & Hb)].
  - exists []. repeat split; constructor.
  - destruct (field_round_trip n E h0 IHN top f _ Hf) as (p & Hp & Hbp).
    exists ((name, f, p) :: I). repeat split.
    + rewrite fmap_cons. by rewrite HI.
    + cbn [mapO]. simpl in Hp. unfold bindo at 1 2. simpl. rewrite Hp.
      rewrite Hplain. done.
    + by constructor.
Qed.

(** A nested instance that can be read back is rebuilt by the constructor
    of its model from its plain form. *)
Lemma nested_round_trip n E h0 m v :
  env_ordinary E → rt_nested n E h0 m v → nested_spec n E h0 m v.
Proof.
  intros HE. revert m v. induction n as [|n IHn]; [done|].
  intros m v (a & o & -> & Ho & Hcls & Hname & Hne & HF).
  pose proof (env_ordinary_class _ _ _ HE Hcls) as Hord.
  apply map_Forall_to_list in HF.
  destruct (fields_round_trip n E h0 false o (map_to_list (c_fields (o_class o))) IHn)
    as (I & HI & Hplain & Hb).
  { eapply Forall_impl; [exact HF|]. by intros [name f]. }
  exists a, (VDict (map (λ i, (VStr i.1.1, i.2)) I)).
  split; [done|]. split.
  { rewrite Model_to_plain_S, Ho, Hplain. done. }
  split.
  { destruct I as [|i I]; [|done]. simpl in HI. symmetry in HI.
    apply map_to_list_empty_iff in HI. done. }
  split; [done|].
  intros h Hp. set (cls := o_class o) in *.
  set (self := List.length h).
  set (kw := map (λ i : string * Field * val, (i.1.1, i.2)) I).
  set (body := λ kv : string * val,
         match c_fields cls !! kv.1 with
         | None => raise (FieldError (c_name cls) (VStr kv.1))
         | Some f => Field_set E (Model_new n E) f self kv.1 kv.2
         end).
  set (L := map (λ i : string * Field * val,
                   (i.1.1, Field_get i.1.2 i.1.1 o, read_back n E false i.1.2 i.2)) I).
  assert (∀ i, i ∈ I → c_fields cls !! i.1.1 = Some i.1.2) as Hfields.
  { intros [[name f] p] Hi. simpl. apply elem_of_map_to_list. rewrite <- HI.
    by apply (list_elem_of_fmap_2 fst) in Hi. }
  destruct (build_loop h0 self cls body kw L) with (h := h ++ [mkObj cls ∅])
    (o_s := mkObj cls ∅) as (h_f & o_f & Hfor & Hpf & Hof & Hclsf & Hframe & Hdata & Hlater).
  { unfold kw, L. apply Forall2_fmap, Forall_Forall2_diag, Forall_forall.
    intros i Hi. simpl. split.
    - rewrite Forall_forall in Hb. by apply Hb.
    - intros h1 o_s _ _ _ _. unfold body. simpl. rewrite (Hfields i Hi).
      by rewrite Field_set_coerce. }
  { unfold L. rewrite <- !list_fmap_compose.
    replace (fst ∘ fst ∘ _) with (fst ∘ (fst : string * Field * val → string * Field)) by done.
    rewrite list_fmap_compose, HI. apply NoDup_fst_map_to_list. }
  { unfold self. by apply prefix_length. }
  { etrans; [exact Hp | by apply prefix_app_r]. }
  { unfold self. by rewrite lookup_app_r, Nat.sub_diag. }
  { done. }
  { intros name _. apply lookup_empty. }
  assert (Model_new (S n) E cls kw h = (Ok self, h_f)) as Hnew.
  { assert (("cls" ∉ kw.*1) ∧ ("self" ∉ kw.*1)) as [Hnc Hns].
    { apply (ordinary_keywords cls kw Hord). intros k Hk.
      unfold kw in Hk. rewrite <- list_fmap_compose in Hk.
      apply list_elem_of_fmap in Hk as (i & -> & Hi). simpl.
      rewrite (Hfields i Hi). by eexists. }
    rewrite Model_new_bound by done.
    unfold bind at 1. unfold alloc at 1. fold self. fold body.
    by rewrite (bind_Ok_intro _ _ _ _ _ Hfor). }
  destruct (grows_Model_new _ _ _ _ _ _ _ Hnew) as [ext ->].
  exists (VObj self), ext. split.
  { unfold new_model. rewrite Hcls. fold cls.
    unfold bind at 1. unfold reading at 1. unfold as_kwargs.
    rewrite (string_keys_map (λ i : string * Field * val, i.1.1) (λ i, i.2)).
    fold kw. by rewrite (bind_Ok_intro _ _ _ _ _ Hnew). }
  split.
  { simpl. fold self. rewrite Hof. apply bool_decide_eq_true.
    rewrite Hclsf. rewrite <- Hname. apply c_name_class_names. }
  intros h'' Hp'' Hag.
  eapply (veq_obj h'' a self o o_f).
  - by eapply prefix_lookup_Some.
  - by apply Hag.
  - by rewrite Hclsf.
  - intros name f Hl. apply (ordinary_lookup _ _ _ Hord) in Hl as Hf.
    assert (agree (List.length (h ++ [mkObj cls ∅])) (h ++ ext) h'') as Hag'.
    { eapply agree_mono; [exact Hag|]. rewrite length_app. lia. }
    specialize (Hlater h'' Hp'' Hag'). rewrite Forall_forall in Hlater.
    apply elem_of_map_to_list in Hf. fold cls in Hf. rewrite <- HI in Hf.
    apply list_elem_of_fmap in Hf as ([[name' f'] p] & [= <- <-] & Hi).
    destruct (Hlater (name, Field_get f name o, read_back n E false f p)) as (x & Hx & Hv).
    { unfold L. apply list_elem_of_fmap. by exists (name, f, p). }
    simpl in Hx, Hv. unfold Field_get at 2. by rewrite Hx.
Qed.

(** The iteration of [update] for a declared name that is still unset on
    a new instance, with plain values: [to_python], then [__set__]. *)
Lemma update_step_top n E self name f p h o_s :
  h !! self = Some o_s → c_fields (o_class o_s) !! name = Some f →
  _data o_s !! name = None → is_obj (default f) = false →
  update_step n E self true (VStr name, p) h
  = (x <- read_back n E true f p ;; store self name x) h.
Proof.
  intros Ho Hf Hunset Hdef. unfold update_step. simpl.
  rewrite (bind_Ok_intro _ _ _ _ _ (Model_contains_declared _ _ _ _ _ Ho Hf)).
  erewrite (bind_Ok_intro _ _ h).
  2:{ by rewrite (bind_Ok_intro _ _ _ _ _ (Model_getitem_declared _ _ _ _ _ Ho Hf)). }
  simpl negb. cbv iota.
  assert (Field_get f name o_s = default f) as -> by (unfold Field_get; by rewrite Hunset).
  transitivity ((f0 <- Model_field self (VStr name) ;;
                 x <- Field_to_python E (Model_new n E) f0 p ;;
                 Model_setitem n E self (VStr name) x) h).
  { cbv [negb]. destruct (default f); try discriminate Hdef;
      (destruct (truthy _); reflexivity). }
  rewrite (bind_Ok_intro _ _ _ _ _ (Model_field_declared _ _ _ _ _ Ho Hf)).
  unfold read_back. unfold bind.
  destruct (Field_to_python E (Model_new n E) f p h) as [[x0|e|] h1] eqn:Hpy; try done.
  assert (h1 !! self = Some o_s) as Ho1.
  { eapply prefix_lookup_Some; [exact Ho|].
    eapply grows_Field_to_python; [|exact Hpy]. intros cls kw. apply grows_Model_new. }
  rewrite (Model_setitem_declared _ _ _ _ _ _ _ _ Ho1 Hf), Field_set_coerce. done.
Qed.

Lemma counterexample_round_trip :
  let h := [mkObj class_Bag {["tags" := VList []]}] in
  ∃ p h', Model_to_plain 1 env1 h 0%nat = Ok p
          ∧ Model_from_plain_dict 1 env1 class_Bag p h = (Ok 1%nat, h')
          ∧ getattr h' 0%nat "tags" = Some (VList [])
          ∧ getattr h' 1%nat "tags" = Some VNone
          ∧ ¬ veq h' (VObj 0%nat) (VObj 1%nat).
Proof.
  eexists _, _. split; [vm_compute; reflexivity|].
  split; [vm_compute; reflexivity|].
  split; [vm_compute; reflexivity|].
  split; [vm_compute; reflexivity|].
  intros Hv. inversion Hv as [| | |a b oa ob Ha Hb Hc Hfields]; subst.
  injection Ha as <-.
  specialize (Hfields "tags" (the_field (ListField ANone [] ∅)) eq_refl).
  injection Hb as <-.
  vm_compute in Hfields. inversion Hfields.
Qed.

(** C1 (amended).  For an instance of an ordinary class, in an
    environment of ordinary classes, none of whose fields has a model
    instance as default and all of whose fields hold values that can be
    read back ([round_trippable]), [to_plain] returns a plain mapping,
    [from_plain_dict] on it returns a new instance and leaves every
    existing object as it was, and the new instance equals the given one
    in logical value: the two read equal values under every name that
    attribute lookup resolves to a field. *)
Theorem plain_round_trip (n : nat) (E : env) (h : heap) (a : addr) (o : obj) :
  env_ordinary E → ordinary (o_class o) →
  h !! a = Some o → round_trippable n E h a →
  ∃ p b h', Model_to_plain (S n) E h a = Ok p
            ∧ Model_from_plain_dict (S n) E (o_class o) p h = (Ok b, h')
            ∧ h `prefix_of` h'
            ∧ veq h' (VObj a) (VObj b).
Proof.
  intros HE Hord Ho (o' & Ho' & HF). rewrite Ho in Ho'. injection Ho' as <-.
  apply map_Forall_to_list in HF. set (cls := o_class o) in *.
  destruct (fields_round_trip n E h true o (map_to_list (c_fields cls)))
    as (I & HI & Hplain & Hb).
  { intros m v. by apply nested_round_trip. }
  { eapply Forall_impl; [exact HF|]. by intros [name f] [_ ?]. }
  set (items := map (λ i : string * Field * val, (VStr i.1.1, i.2)) I).
  set (self := List.length h).
  set (L := map (λ i : string * Field * val,
                   (i.1.1, Field_get i.1.2 i.1.1 o, read_back n E true i.1.2 i.2)) I).
  assert (∀ i, i ∈ I → c_fields cls !! i.1.1 = Some i.1.2
                        ∧ is_obj (default i.1.2) = false) as Hfields.
  { intros [[name f] p] Hi. simpl.
    apply (list_elem_of_fmap_2 fst) in Hi. rewrite HI in Hi. simpl in Hi.
    rewrite Forall_forall in HF. split; [by apply elem_of_map_to_list|].
    by destruct (HF _ Hi). }
  destruct (build_loop h self cls (update_step n E self true) items L)
    with (h := h ++ [mkObj cls ∅]) (o_s := mkObj cls ∅)
    as (h_f & o_f & Hfor & Hpf & Hof & Hclsf & Hframe & Hdata & Hlater).
  { unfold items, L. apply Forall2_fmap, Forall_Forall2_diag, Forall_forall.
    intros i Hi. simpl. split.
    - rewrite Forall_forall in Hb. by apply Hb.
    - intros h1 o_s _ Ho1 Hc1 Hunset. destruct (Hfields i Hi) as [Hfi Hdi].
      apply (update_step_top n E self i.1.1 i.1.2 i.2 h1 o_s);
        [done | by rewrite Hc1 | done..]. }
  { unfold L. rewrite <- !list_fmap_compose.
    replace (fst ∘ fst ∘ _) with (fst ∘ (fst : string * Field * val → string * Field)) by done.
    rewrite list_fmap_compose, HI. apply NoDup_fst_map_to_list. }
  { done. }
  { by apply prefix_app_r. }
  { unfold self. by rewrite lookup_app_r, Nat.sub_diag. }
  { done. }
  { intros name _. apply lookup_empty. }
  exists (VDict items), self, h_f. split.
  { rewrite Model_to_plain_S, Ho. fold cls. by rewrite Hplain. }
  split.
  { unfold Model_from_plain_dict.
    rewrite (bind_Ok_intro _ _ _ _ _
               (eq_refl : Model_new (S n) E cls [] h = (Ok self, h ++ [mkObj cls ∅]))).
    unfold Model_update. rewrite Model__update_S.
    by rewrite (bind_Ok_intro _ _ _ _ _ Hfor). }
  split; [done|].
  eapply (veq_obj h_f a self o o_f).
  - by eapply prefix_lookup_Some.
  - done.
  - by rewrite Hclsf.
  - intros name f Hl. apply (ordinary_lookup _ _ _ Hord) in Hl as Hf.
    assert (agree (List.length (h ++ [mkObj cls ∅])) h_f h_f) as Hag by (by intros i x).
    specialize (Hlater h_f Hpf Hag). rewrite Forall_forall in Hlater.
    apply elem_of_map_to_list in Hf. fold cls in Hf. rewrite <- HI in Hf.
    apply list_elem_of_fmap in Hf as ([[name' f'] p] & [= <- <-] & Hi).
    destruct (Hlater (name, Field_get f name o, read_back n E true f p)) as (x & Hx & Hv).
    { unfold L. apply list_elem_of_fmap. by exists (name, f, p). }
    simpl in Hx, Hv. unfold Field_get at 2. by rewrite Hx.
Qed.

(** Tactics for concrete instances. *)
Ltac fields_list :=
  match goal with
  | |- Forall _ (map_to_list ?m) =>
      let l := eval vm_compute in (map_to_list m) in
      change (map_to_list m) with l
  end.
Ltac int_field := first [left; reflexivity | right; eexists; reflexivity].
Ltac point_ok :=
  eexists _, _; repeat (split; [reflexivity|]);
  split; [intros H; vm_compute in H; discriminate H|];
  apply map_Forall_to_list; fields_list;
  repeat (apply Forall_cons_2; [unfold uncurry, rt_field; simpl; int_field|]);
  apply Forall_nil_2.

Lemma plain_round_trip_witness :
  ∃ p b h', Model_to_plain 2 env1 heap_bag 0%nat = Ok p
            ∧ Model_from_plain_dict 2 env1 class_Bag p heap_bag = (Ok b, h')
            ∧ heap_bag `prefix_of` h'
            ∧ veq h' (VObj 0%nat) (VObj b).
Proof.
  apply (plain_round_trip 1 env1 heap_bag 0%nat bag0);
    [exact env1_ordinary | exact ordinary_Bag | reflexivity |].
  exists bag0. split; [reflexivity|]. apply map_Forall_to_list. fields_list.
  repeat (apply Forall_cons_2; [split; [reflexivity|]; unfold rt_field; simpl|]);
    [..|apply Forall_nil_2].
  - right. point_ok.
  - right. eexists. split; [reflexivity|]. split; [done|]. split; [reflexivity|].
    apply Forall_cons_2; [point_ok | apply Forall_nil_2].
  - exact I.
  - right. eexists. split; [reflexivity|]. split; [done|].
    apply Forall_cons_2; [reflexivity | apply Forall_nil_2].
  - right. eexists. split; [reflexivity|]. split; [done|].
    repeat (apply Forall_cons_2; [point_ok|]). apply Forall_nil_2.
Defined.

(** * Further properties *)

(** The declared fields of a concrete class, listed. *)
Ltac list_fields :=
  match goal with
  | |- Forall _ (map_to_list ?m) =>
      let l := eval vm_compute in (map_to_list m) in
      change (map_to_list m) with l
  end.

(** ** Element specifications of list and dict fields *)

Lemma fetch_model_loop_no_model items model mv iv :
  count_models items = 0%nat →
  fetch_model_loop items model mv iv = Ok (model, mv, iv ++ omap item_builtin items).
Proof.
  revert iv. induction items as [|item items IH]; intros iv Hc; simpl.
  - by rewrite app_nil_r.
  - unfold count_models in Hc. simpl in Hc.
    destruct item as [m|v|]; simpl in Hc; [discriminate| |by apply IH].
    destruct v; simpl in Hc; try discriminate;
      try (rewrite IH by exact Hc; simpl; by rewrite <- app_assoc).
    by apply IH.
Qed.

Lemma fetch_model_loop_one items mv iv :
  (count_models items ≤ 1)%nat →
  fetch_model_loop items None mv iv
  = Ok (head (omap item_model items),
        mv ++ (builtin_validators.Model <$> omap item_model items),
        iv ++ omap item_builtin items).
Proof.
  revert iv. induction items as [|item items IH]; intros iv Hc; simpl.
  - by rewrite !app_nil_r.
  - unfold count_models in Hc. simpl in Hc.
    assert (∀ m, is_model_item item = true → item_model item = Some m →
                 item_builtin item = None →
                 fetch_model_loop items (Some m) (mv ++ [builtin_validators.Model m]) iv
                 = Ok (Some m, mv ++ builtin_validators.Model m
                                 :: (builtin_validators.Model <$> omap item_model items),
                       iv ++ omap item_builtin items)) as Hfound.
    { intros m Him _ _. rewrite Him in Hc. simpl in Hc.
      assert (count_models items = 0%nat) as H0 by (unfold count_models; lia).
      rewrite fetch_model_loop_no_model by exact H0.
      assert (omap item_model items = []) as ->.
      { clear -H0. induction items as [|i items IH]; [done|].
        unfold count_models in H0. simpl in H0.
        destruct i as [m'|v|]; simpl in *; [discriminate| |by apply IH].
        destruct v; simpl in *; try discriminate; by apply IH. }
      done. }
    destruct item as [m|v|]; simpl.
    + by apply Hfound.
    + destruct v; simpl; try (by apply Hfound);
        try (simpl in Hc; rewrite IH by exact Hc; simpl; by rewrite <- app_assoc).
      simpl in Hc. by apply IH.
    + simpl in Hc. by apply IH.
Qed.

Lemma fetch_model_one items :
  (count_models items ≤ 1)%nat →
  fetch_model items
  = Ok (head (omap item_model items),
        builtin_validators.Model <$> omap item_model items,
        omap item_builtin items).
Proof. intros Hc. unfold fetch_model. by rewrite fetch_model_loop_one. Qed.

(** X1.  [fetch_model] on a specification with at most one entry naming a
    model returns: the model that entry names (or none), the [Model]
    validator for it, and the builtin validator instances of the
    specification in their order; entries that are neither are dropped. *)
Theorem fetch_model_at_most_one (items : list spec_item) :
  (count_models items ≤ 1)%nat →
  fetch_model items
  = Ok (head (omap item_model items),
        builtin_validators.Model <$> omap item_model items,
        omap item_builtin items).
Proof. intros Hc. unfold fetch_model. by rewrite fetch_model_loop_one. Qed.

Lemma fetch_model_at_most_one_witness :
  fetch_model [SValidator builtin_validators.String; SOther; SClass "Point";
               SValidator (builtin_validators.Custom "mine");
               SValidator builtin_validators.Integer]
  = Ok (Some "Point", [builtin_validators.Model "Point"],
        [builtin_validators.String; builtin_validators.Integer]).
Proof.
  refine (fetch_model_at_most_one
            [SValidator builtin_validators.String; SOther; SClass "Point";
             SValidator (builtin_validators.Custom "mine");
             SValidator builtin_validators.Integer] _).
  vm_compute. lia.
Defined.

(** X2.  A ListField whose specification names at most one model is
    built; its positional validators are ignored.  Its [List] validator
    wraps the [Model] validator alone when a model is named, the builtin
    validators of the specification being dropped then, and wraps these
    builtin validators when no model is named. *)
Theorem ListField_element_validators (spec : spec_arg) (args : list validator)
    (kwargs : gmap string val) :
  (count_models (ensure_iterable spec) ≤ 1)%nat →
  ListField spec args kwargs
  = Ok (Field_init (KList (head (omap item_model (ensure_iterable spec))))
          [builtin_validators.List
             (match omap item_model (ensure_iterable spec) with
              | [] => omap item_builtin (ensure_iterable spec)
              | models => builtin_validators.Model <$> models
              end)]
          kwargs).
Proof.
  intros Hc. unfold ListField. rewrite (fetch_model_one _ Hc).
  by destruct (omap item_model (ensure_iterable spec)).
Qed.

Lemma ListField_element_validators_witness :
  ListField (AMany [SValidator builtin_validators.String; SClass "Point"])
    [builtin_validators.Custom "mine"] ∅
  = Ok (mkField (KList (Some "Point")) ∅ VNone
          [builtin_validators.List [builtin_validators.Model "Point"]] 0%nat).
Proof.
  refine (ListField_element_validators
            (AMany [SValidator builtin_validators.String; SClass "Point"])
            [builtin_validators.Custom "mine"] ∅ _).
  vm_compute. lia.
Defined.

(** X3.  A DictField whose key and value specifications name at most one
    model each is built with these models, and keeps as key and value
    validators the [Model] validators only: builtin validators given for
    the keys or the values are dropped. *)
Theorem DictField_model_validators (key value : spec_arg) (args : list validator)
    (kwargs : gmap string val) :
  (count_models (ensure_iterable key) ≤ 1)%nat →
  (count_models (ensure_iterable value) ≤ 1)%nat →
  DictField key value args kwargs
  = Ok (Field_init
          (KDict (head (omap item_model (ensure_iterable key)))
                 (head (omap item_model (ensure_iterable value)))
                 (builtin_validators.Model <$> omap item_model (ensure_iterable key))
                 (builtin_validators.Model <$> omap item_model (ensure_iterable value)))
          (builtin_validators.Dict :: args) kwargs).
Proof.
  intros Hk Hv. unfold DictField.
  by rewrite (fetch_model_one _ Hk), (fetch_model_one _ Hv).
Qed.

Lemma DictField_model_validators_witness :
  DictField (AOne (SValidator builtin_validators.String))
            (AMany [SValidator builtin_validators.Integer; SClass "Point"]) [] ∅
  = Ok (mkField (KDict None (Some "Point") [] [builtin_validators.Model "Point"]) ∅ VNone
          [builtin_validators.Dict] 0%nat).
Proof.
  refine (DictField_model_validators (AOne (SValidator builtin_validators.String))
            (AMany [SValidator builtin_validators.Integer; SClass "Point"]) [] ∅ _ _);
    vm_compute; lia.
Defined.

Lemma bind_ret_tt (c : M unit) h : bind c (λ _, ret tt) h = c h.
Proof. unfold bind, ret. by destruct (c h) as [[[]|e|] h']. Qed.

(** X4.  For a DictField whose key and value specifications name no
    model, [validate] is [Field.validate]: whatever validators were given
    for the keys and the values, and whatever validators do, none is ever
    applied to a key or a value of the dict. *)
Theorem DictField_validate_skips_elements (validator_validate : validator → val → M unit)
    (key value : spec_arg) (args : list validator) (kwargs : gmap string val)
    (f : Field) (v : val) (h : heap) :
  count_models (ensure_iterable key) = 0%nat →
  count_models (ensure_iterable value) = 0%nat →
  DictField key value args kwargs = Ok f →
  validate validator_validate f v h = Field_validate validator_validate f v h.
Proof.
  intros Hk Hv Hf.
  unfold DictField in Hf. rewrite !fetch_model_one in Hf by lia. injection Hf as <-.
  assert (∀ items, count_models items = 0%nat → omap item_model items = []) as Hnone.
  { clear. induction items as [|i items IH]; [done|]. unfold count_models. simpl.
    destruct i as [m|x|]; simpl; [discriminate| |by apply IH].
    destruct x; simpl; try discriminate; by apply IH. }
  rewrite !Hnone by done. unfold validate, DictField_validate. simpl.
  rewrite andb_false_r. apply bind_ret_tt.
Qed.

Lemma DictField_validate_skips_elements_witness :
  validate sample_validate
    (the_field (DictField (AOne (SValidator builtin_validators.String)) ANone [] ∅))
    (VDict [(VInt 1, VInt 2)]) []
  = (Ok tt, []).
Proof.
  rewrite (DictField_validate_skips_elements sample_validate
             (AOne (SValidator builtin_validators.String)) ANone [] ∅
             (the_field (DictField (AOne (SValidator builtin_validators.String))
                           ANone [] ∅)));
    reflexivity.
Defined.

(** X5.  A bound that is falsy, such as [min_value=0] or [max_value=0], is
    dropped by IntegerField and FloatField: the validators are those of
    the field built without that bound. *)
Theorem falsy_bound_dropped (bound : string) (b : val) (args : list validator)
    (kwargs : gmap string val) :
  bound = "min_value" ∨ bound = "max_value" →
  kwargs !! bound = Some b → truthy b = false →
  validators (IntegerField args kwargs) = validators (IntegerField args (delete bound kwargs))
  ∧ validators (FloatField args kwargs) = validators (FloatField args (delete bound kwargs)).
Proof.
  intros Hb Hk Ht.
  assert (∀ name, kwargs_get (delete bound kwargs) name
                  = if decide (name = bound) then VNone else kwargs_get kwargs name) as Hget.
  { intros name. unfold kwargs_get. destruct (decide (name = bound)) as [->|Hne].
    - by rewrite lookup_delete_eq.
    - by rewrite lookup_delete_ne. }
  assert (kwargs_get kwargs bound = b) as Hgb by (unfold kwargs_get; by rewrite Hk).
  unfold IntegerField, FloatField, append_bounds, Field_init. simpl.
  rewrite !Hget.
  destruct Hb as [-> | ->]; simpl; rewrite ?Hgb, ?Ht; simpl;
    repeat (destruct (decide _) as [Heq|_]; [discriminate Heq|]); done.
Qed.

Lemma falsy_bound_dropped_witness :
  validators (IntegerField [] {["min_value" := VInt 0]})
  = [builtin_validators.Integer].
Proof.
  destruct (falsy_bound_dropped "min_value" (VInt 0) [] {["min_value" := VInt 0]})
    as [-> _]; [by left | reflexivity | reflexivity |].
  vm_compute. reflexivity.
Defined.

(** ** Reading and assigning fields *)

(** X6.  An instance of an ordinary class built without keyword
    arguments is a new object at the end of the store with empty data, and
    each declared field of it reads the default of the field. *)
Theorem fresh_instance_defaults (fuel : nat) (E : env) (cls : ModelClass) (h : heap) :
  ordinary cls →
  Model_new (S fuel) E cls [] h = (Ok (List.length h), h ++ [mkObj cls ∅])
  ∧ ∀ name f, c_fields cls !! name = Some f →
      Model_getitem (List.length h) (VStr name) (h ++ [mkObj cls ∅])
      = (Ok (default f), h ++ [mkObj cls ∅]).
Proof.
  intros _. split; [reflexivity|]. intros name f Hf.
  assert ((h ++ [mkObj cls ∅]) !! List.length h = Some (mkObj cls ∅)) as Ho.
  { rewrite lookup_app_r by lia. by rewrite Nat.sub_diag. }
  rewrite (Model_getitem_declared _ _ _ _ _ Ho Hf).
  unfold Field_get. simpl. by rewrite lookup_empty.
Qed.

Lemma fresh_instance_defaults_witness :
  Model_new 1%nat env0 class_Point [] [] = (Ok 0%nat, [mkObj class_Point ∅])
  ∧ Model_getitem 0%nat (VStr "y") [mkObj class_Point ∅]
    = (Ok (VInt 0), [mkObj class_Point ∅]).
Proof.
  destruct (fresh_instance_defaults 0%nat env0 class_Point [] ordinary_Point) as [Hn Hd].
  split; [exact Hn|].
  exact (Hd "y" (IntegerField [] {["default" := VInt 0]}) eq_refl).
Defined.

(** X7.  On an instance of an ordinary class [k in model] and [model[k]]
    agree and leave the store alone: for a declared name the first is true
    and the second returns the value held, or the default of the field
    when none is held; for any other hashable key the first is false and
    the second raises [FieldError] with the name of the class and the
    key. *)
Theorem getitem_agrees_with_contains (self : addr) (o : obj) (h : heap) :
  ordinary (o_class o) →
  h !! self = Some o →
  (∀ name f, c_fields (o_class o) !! name = Some f →
     Model_contains self (VStr name) h = (Ok true, h)
     ∧ Model_getitem self (VStr name) h
       = (Ok (match _data o !! name with Some v => v | None => default f end), h))
  ∧ (∀ k, hashable k = true →
          (∀ name, k = VStr name → c_fields (o_class o) !! name = None) →
     Model_contains self k h = (Ok false, h)
     ∧ Model_getitem self k h = (Raise (FieldError (c_name (o_class o)) k), h)).
Proof.
  intros _ Ho. split.
  - intros name f Hf. split.
    + by eapply Model_contains_declared.
    + by rewrite (Model_getitem_declared _ _ _ _ _ Ho Hf).
  - intros k Hk Hnone.
    assert (schema_lookup (o_class o) k = Ok None) as Hs.
    { destruct k; simpl in *; try done; try (by rewrite Hk).
      by rewrite (Hnone s eq_refl). }
    unfold Model_contains, Model_getitem.
    rewrite !(bind_Ok_intro _ _ _ _ _ (instance_run _ _ _ Ho)).
    unfold bind, reading. by rewrite Hs.
Qed.

Lemma getitem_agrees_with_contains_witness :
  Model_getitem 0%nat (VStr "y") [mkObj class_Point {["x" := VInt 3]}]
  = (Ok (VInt 0), [mkObj class_Point {["x" := VInt 3]}])
  ∧ Model_getitem 0%nat (VInt 7) [mkObj class_Point {["x" := VInt 3]}]
    = (Raise (FieldError "Point" (VInt 7)), [mkObj class_Point {["x" := VInt 3]}]).
Proof.
  destruct (getitem_agrees_with_contains 0%nat (mkObj class_Point {["x" := VInt 3]})
              [mkObj class_Point {["x" := VInt 3]}] ordinary_Point eq_refl) as [Hd Hu].
  split.
  - destruct (Hd "y" (IntegerField [] {["default" := VInt 0]})) as [_ ->]; reflexivity.
  - destruct (Hu (VInt 7)) as [_ ->]; [reflexivity | discriminate | reflexivity].
Defined.

Lemma store_run self o name x h :
  h !! self = Some o →
  store self name x h = (Ok tt, <[self := mkObj (o_class o) (<[name := x]> (_data o))]> h).
Proof. intros Ho. unfold store. by rewrite Ho. Qed.

(** X8.  On an instance of an ordinary class, all classes of the
    environment being ordinary, a successful item assignment stores the
    value the field's [__set__] coerces the given value to, in the record
    of the instance under that name; reading the item afterwards returns
    that value, and every other field of the instance reads as before. *)
Theorem setitem_then_getitem (fuel : nat) (E : env) (self : addr) (o : obj)
    (name : string) (f : Field) (v : val) (h h' : heap) :
  env_ordinary E → ordinary (o_class o) →
  h !! self = Some o → c_fields (o_class o) !! name = Some f →
  Model_setitem fuel E self (VStr name) v h = (Ok tt, h') →
  ∃ x h1, Field_coerce E (Model_new fuel E) f v h = (Ok x, h1)
          ∧ h `prefix_of` h1
          ∧ h' = <[self := mkObj (o_class o) (<[name := x]> (_data o))]> h1
          ∧ Model_getitem self (VStr name) h' = (Ok x, h')
          ∧ ∀ name' f', name' ≠ name → c_fields (o_class o) !! name' = Some f' →
              Model_getitem self (VStr name') h' = (Ok (Field_get f' name' o), h').
Proof.
  intros _ _ Ho Hf Hset.
  rewrite (Model_setitem_declared _ _ _ _ _ _ _ _ Ho Hf) in Hset.
  rewrite Field_set_coerce in Hset.
  apply bind_Ok in Hset as (x & h1 & Hco & Hst).
  assert (h `prefix_of` h1) as Hp.
  { eapply (grows_Field_coerce E (Model_new fuel E)); [|exact Hco].
    intros cls kw. apply grows_Model_new. }
  pose proof (prefix_lookup_Some _ _ _ _ Ho Hp) as Ho1.
  rewrite (store_run _ _ _ _ _ Ho1) in Hst. injection Hst as <-.
  exists x, h1. split; [done|]. split; [done|]. split; [done|].
  set (o' := mkObj (o_class o) (<[name := x]> (_data o))).
  assert ((<[self := o']> h1) !! self = Some o') as Ho'.
  { apply list_lookup_insert_eq. by eapply lookup_lt_Some. }
  split.
  - rewrite (Model_getitem_declared self o' name f _ Ho' Hf).
    unfold Field_get, o'. simpl. by rewrite lookup_insert_eq.
  - intros name' f' Hne Hf'.
    rewrite (Model_getitem_declared self o' name' f' _ Ho' Hf').
    unfold Field_get, o'. simpl. by rewrite lookup_insert_ne.
Qed.

Lemma setitem_then_getitem_witness :
  ∃ h', Model_setitem 1%nat env0 0%nat (VStr "x") (VStr "42")
          [mkObj class_Point {["y" := VInt 1]}] = (Ok tt, h')
        ∧ Model_getitem 0%nat (VStr "x") h' = (Ok (VInt 42), h')
        ∧ Model_getitem 0%nat (VStr "y") h' = (Ok (VInt 1), h').
Proof.
  eexists. split; [vm_compute; reflexivity|].
  destruct (setitem_then_getitem 1%nat env0 0%nat (mkObj class_Point {["y" := VInt 1]})
              "x" (IntegerField [] {["required" := VBool true]}) (VStr "42")
              [mkObj class_Point {["y" := VInt 1]}]
              [mkObj class_Point (<["x" := VInt 42]> {["y" := VInt 1]})])
    as (x & h1 & Hco & _ & _ & Hget & Hother);
    [exact env0_ordinary | exact ordinary_Point
    | reflexivity | reflexivity | vm_compute; reflexivity |].
  vm_compute in Hco. injection Hco as <- <-.
  split; [exact Hget|].
  apply (Hother "y" (IntegerField [] {["default" := VInt 0]})); [discriminate | reflexivity].
Defined.

(** X9.  Assignment does not validate.  On an instance of an ordinary
    class a field of class Field, StringField, FloatField, BooleanField,
    EmailField or DateTimeField stores whatever value it is given, of any
    type; an EmbeddedField stores whatever is not a mapping, without
    checking that an instance is one of its model.  These assignments
    always succeed. *)
Theorem assignment_never_validates (fuel : nat) (E : env) (self : addr) (o : obj)
    (name : string) (f : Field) (v : val) (h : heap) :
  ordinary (o_class o) →
  h !! self = Some o → c_fields (o_class o) !! name = Some f →
  stored_verbatim (kind f) v = true →
  Model_setitem fuel E self (VStr name) v h
  = (Ok tt, <[self := mkObj (o_class o) (<[name := v]> (_data o))]> h).
Proof.
  intros _ Ho Hf Hk.
  rewrite (Model_setitem_declared _ _ _ _ _ _ _ _ Ho Hf).
  unfold Field_set. destruct (kind f); try discriminate Hk; try (by apply store_run).
  unfold EmbeddedField_set, EmbeddedField_coerce. simpl in Hk.
  apply negb_true_iff in Hk. rewrite Hk.
  rewrite (bind_Ok_intro _ _ _ _ _ (eq_refl : ret v h = (Ok v, h))). by apply store_run.
Qed.

Lemma assignment_never_validates_witness :
  Model_setitem 0%nat env1 0%nat (VStr "origin") (VObj 0%nat) heap_bag
  = (Ok tt, <[0%nat := mkObj class_Bag (<["origin" := VObj 0%nat]> (_data bag0))]> heap_bag).
Proof.
  apply (assignment_never_validates 0%nat env1 0%nat bag0 "origin"
           (EmbeddedField "Point" [] ∅));
    [exact ordinary_Bag | reflexivity..].
Defined.

(** X10.  An item assignment that does not succeed, whatever the reason,
    leaves every instance of the store as it was; at most it has added new
    instances. *)
Theorem failed_assignment_keeps_store (fuel : nat) (E : env) (self : addr) (k v : val)
    (h h' : heap) (r : outcome unit) :
  Model_setitem fuel E self k v h = (r, h') → r ≠ Ok tt →
  h `prefix_of` h'.
Proof.
  intros Hset Hr. unfold Model_setitem in Hset.
  unfold bind at 1 in Hset. unfold instance, reading at 1 in Hset.
  destruct (h !! self) as [o|] eqn:Ho; [|by injection Hset as _ <-].
  unfold bind at 1 in Hset. unfold reading at 1 in Hset.
  destruct (schema_lookup (o_class o) k) as [[[name f]|]|e|]; try (by injection Hset as _ <-).
  rewrite Field_set_coerce in Hset. unfold bind in Hset.
  destruct (Field_coerce E (Model_new fuel E) f v h) as [[x|e|] h1] eqn:Hco.
  - assert (h `prefix_of` h1) as Hp.
    { eapply (grows_Field_coerce E (Model_new fuel E)); [|exact Hco].
      intros cls kw. apply grows_Model_new. }
    rewrite (store_run _ _ _ _ _ (prefix_lookup_Some _ _ _ _ Ho Hp)) in Hset.
    injection Hset as <- _. done.
  - injection Hset as _ <-.
    eapply (grows_Field_coerce E (Model_new fuel E)); [|exact Hco].
    intros cls kw. apply grows_Model_new.
  - injection Hset as _ <-.
    eapply (grows_Field_coerce E (Model_new fuel E)); [|exact Hco].
    intros cls kw. apply grows_Model_new.
Qed.

Lemma failed_assignment_keeps_store_witness :
  [mkObj class_Box ∅] `prefix_of`
    (Model_setitem 1%nat env0 0%nat (VStr "inner") (VDict [(VStr "x", VStr "abc")])
       [mkObj class_Box ∅]).2.
Proof.
  apply (failed_assignment_keeps_store 1%nat env0 0%nat (VStr "inner")
           (VDict [(VStr "x", VStr "abc")]) [mkObj class_Box ∅] _ (Raise ConversionError)).
  - vm_compute. reflexivity.
  - discriminate.
Defined.

(** X11.  On an instance of an ordinary class, after a successful
    assignment an IntegerField holds [None] or an integer, and assigning
    the value held once more changes nothing. *)
Theorem IntegerField_holds_integer (fuel : nat) (E : env) (self : addr) (o : obj)
    (name : string) (f : Field) (v : val) (h h' : heap) :
  ordinary (o_class o) →
  h !! self = Some o → c_fields (o_class o) !! name = Some f →
  kind f = KInteger →
  Model_setitem fuel E self (VStr name) v h = (Ok tt, h') →
  ∃ x, Model_getitem self (VStr name) h' = (Ok x, h')
       ∧ (x = VNone ∨ ∃ z, x = VInt z)
       ∧ Model_setitem fuel E self (VStr name) x h' = (Ok tt, h').
Proof.
  intros _ Ho Hf Hk Hset.
  rewrite (Model_setitem_declared _ _ _ _ _ _ _ _ Ho Hf) in Hset.
  unfold Field_set in Hset. rewrite Hk in Hset. unfold IntegerField_set in Hset.
  apply bind_Ok in Hset as (x & h1 & Hco & Hst).
  assert (h1 = h ∧ (x = VNone ∨ ∃ z, x = VInt z)) as [-> Hx].
  { unfold IntegerField_coerce in Hco. destruct v; simpl in Hco;
      try (injection Hco as <- <-; split; [done|]; eauto); try discriminate Hco.
    destruct (int_of_string s); [|discriminate Hco].
    injection Hco as <- <-. eauto. }
  rewrite (store_run _ _ _ _ _ Ho) in Hst. injection Hst as <-.
  set (o' := mkObj (o_class o) (<[name := x]> (_data o))).
  assert ((<[self := o']> h) !! self = Some o') as Ho'.
  { apply list_lookup_insert_eq. by eapply lookup_lt_Some. }
  exists x. split; [|split; [exact Hx|]].
  - rewrite (Model_getitem_declared self o' name f _ Ho' Hf).
    unfold Field_get, o'. simpl. by rewrite lookup_insert_eq.
  - rewrite (Model_setitem_declared _ _ self o' name f _ _ Ho' Hf).
    unfold Field_set. rewrite Hk. unfold IntegerField_set.
    assert (IntegerField_coerce x (<[self := o']> h) = (Ok x, <[self := o']> h)) as Hco'.
    { by destruct Hx as [-> | [z ->]]. }
    rewrite (bind_Ok_intro _ _ _ _ _ Hco'). rewrite (store_run _ _ _ _ _ Ho').
    f_equal. rewrite list_insert_insert_eq. unfold o'. simpl. by rewrite insert_insert_eq.
Qed.

Lemma IntegerField_holds_integer_witness :
  ∃ x, Model_getitem 0%nat (VStr "x") [mkObj class_Point {["x" := VInt 1]}]
       = (Ok x, [mkObj class_Point {["x" := VInt 1]}])
       ∧ (x = VNone ∨ ∃ z, x = VInt z)
       ∧ Model_setitem 0%nat env0 0%nat (VStr "x") x [mkObj class_Point {["x" := VInt 1]}]
         = (Ok tt, [mkObj class_Point {["x" := VInt 1]}]).
Proof.
  apply (IntegerField_holds_integer 0%nat env0 0%nat (mkObj class_Point ∅) "x"
           (IntegerField [] {["required" := VBool true]}) (VBool true)
           [mkObj class_Point ∅] [mkObj class_Point {["x" := VInt 1]}]);
    [exact ordinary_Point | reflexivity | reflexivity | reflexivity
    | vm_compute; reflexivity].
Defined.

(** ** Construction *)

Lemma for__ext_inv {A} (I : heap → Prop) (l : list A) (b1 b2 : A → M unit) :
  (∀ x h, x ∈ l → I h → b1 x h = b2 x h) →
  (∀ x h r h', x ∈ l → I h → b1 x h = (r, h') → I h') →
  ∀ h, I h → for_ l b1 h = for_ l b2 h.
Proof.
  induction l as [|x l IH]; intros Heq Hpres h HI; [done|].
  simpl. unfold bind. rewrite <- (Heq x h) by (done || left).
  destruct (b1 x h) as [[[]|e|] h1] eqn:Hb; try done.
  apply IH.
  - intros y h2 Hy. apply Heq. by right.
  - intros y h2 r h3 Hy. apply Hpres. by right.
  - eapply (Hpres x h); [left | exact HI | exact Hb].
Qed.

Lemma stable_init_body fuel E cls self (kv : string * val) :
  stable (match c_fields cls !! kv.1 with
          | None => raise (FieldError (c_name cls) (VStr kv.1))
          | Some f => Field_set E (Model_new fuel E) f self kv.1 kv.2
          end).
Proof.
  destruct (c_fields cls !! kv.1).
  - apply stable_Field_set.
  - apply grows_stable, grows_raise.
Qed.

Lemma Model_new_class fuel E cls kwargs h a h' :
  Model_new fuel E cls kwargs h = (Ok a, h') →
  a = List.length h ∧ ∃ o, h' !! a = Some o ∧ o_class o = cls.
Proof.
  destruct fuel as [|fuel]; [done|]. intros Hr.
  apply Model_new_Ok in Hr as (_ & _ & Hr).
  apply bind_Ok in Hr as (self & h0 & Hal & Hr).
  injection Hal as <- <-.
  apply bind_Ok in Hr as ([] & h1 & Hfor & Hr). injection Hr as <- <-.
  split; [done|].
  assert ((h ++ [mkObj cls ∅]) !! List.length h = Some (mkObj cls ∅)) as Ho.
  { rewrite lookup_app_r by lia. by rewrite Nat.sub_diag. }
  eapply (stable_for_ kwargs) in Hfor; [|intros kv; apply stable_init_body].
  apply (Hfor _ _ Ho).
Qed.

(** X12.  Building an instance, whether it succeeds or not, leaves every
    instance of the store as it was.  When it succeeds the new instance
    sits at the first free address and is of the class asked for. *)
Theorem construction_only_allocates (fuel : nat) (E : env) (cls : ModelClass)
    (kwargs : list (string * val)) (h h' : heap) (r : outcome addr) :
  Model_new fuel E cls kwargs h = (r, h') →
  h `prefix_of` h'
  ∧ ∀ a, r = Ok a → a = List.length h ∧ ∃ o, h' !! a = Some o ∧ o_class o = cls.
Proof.
  intros Hr. split.
  - by eapply grows_Model_new.
  - intros a ->. by eapply Model_new_class.
Qed.

Lemma construction_only_allocates_witness :
  [mkObj class_Box ∅] `prefix_of`
    (Model_new 2%nat env0 class_Box [("inner", VDict [(VStr "x", VStr "abc")])]
       [mkObj class_Box ∅]).2.
Proof.
  eapply (construction_only_allocates 2%nat env0 class_Box
            [("inner", VDict [(VStr "x", VStr "abc")])] [mkObj class_Box ∅] _
            (Raise ConversionError)).
  vm_compute. reflexivity.
Defined.

(** X13.  Building an instance with keyword arguments none of which is
    named [self] or [cls] is building it without any and then assigning
    the keywords as items, one after the other in their order. *)
Theorem construction_is_assignments (fuel : nat) (E : env) (cls : ModelClass)
    (kwargs : list (string * val)) (h : heap) :
  "cls" ∉ kwargs.*1 → "self" ∉ kwargs.*1 →
  Model_new (S fuel) E cls kwargs h
  = (self <- Model_new (S fuel) E cls [] ;;
     _ <- for_ kwargs (λ kv, Model_setitem fuel E self (VStr kv.1) kv.2) ;;
     ret self) h.
Proof.
  intros Hcls Hself. rewrite (Model_new_bound _ _ _ _ _ Hcls Hself).
  set (self := List.length h). set (h0 := h ++ [mkObj cls ∅]).
  rewrite (bind_Ok_intro _ _ _ _ _ (eq_refl : alloc cls h = (Ok self, h0))).
  rewrite (bind_Ok_intro _ _ _ _ _
             (eq_refl : Model_new (S fuel) E cls [] h = (Ok self, h0))).
  unfold bind.
  rewrite (for__ext_inv (λ h1, ∃ o, h1 !! self = Some o ∧ o_class o = cls) kwargs
             _ (λ kv, Model_setitem fuel E self (VStr kv.1) kv.2)); [done| | |].
  - intros kv h1 _ (o & Ho & Hcls'). unfold Model_setitem.
    rewrite (bind_Ok_intro _ _ _ _ _ (instance_run _ _ _ Ho)).
    unfold bind, reading. simpl. rewrite Hcls'.
    by destruct (c_fields cls !! kv.1).
  - intros kv h1 r h2 _ (o & Ho & Hcls') Hb.
    destruct (stable_init_body fuel E cls self kv _ _ _ Hb _ _ Ho) as (o' & Ho' & Hcls'').
    exists o'. split; [done|]. congruence.
  - exists (mkObj cls ∅). split; [|done].
    unfold h0, self. rewrite lookup_app_r by lia. by rewrite Nat.sub_diag.
Qed.

Lemma construction_is_assignments_witness :
  Model_new 1%nat env0 class_Point [("x", VStr "3"); ("w", VInt 1)] []
  = (Raise (FieldError "Point" (VStr "w")), [mkObj class_Point {["x" := VInt 3]}]).
Proof.
  rewrite (construction_is_assignments 0%nat env0 class_Point
             [("x", VStr "3"); ("w", VInt 1)] []); [reflexivity | not_in_list..].
Defined.

(** ** Embedded, list, dict and datetime fields on the write path *)

Lemma for__single {A} (x : A) (body : A → M unit) h : for_ [x] body h = body x h.
Proof. simpl. apply bind_ret_tt. Qed.

(** X14.  On an instance of an ordinary class, all classes of the
    environment being ordinary, assigning a mapping to an EmbeddedField
    builds a new instance of the field's model from the mapping, at the
    first free address, and stores the reference to it.  An update with a
    mapping for the field does the same when the field holds no instance
    at that moment. *)
Theorem embedded_mapping_builds_instance (fuel : nat) (E : env) (self : addr) (o : obj)
    (name : string) (f : Field) (m : string) (cls : ModelClass)
    (d : list (val * val)) (kwargs : list (string * val)) (b : addr) (h h1 : heap) :
  env_ordinary E → ordinary (o_class o) →
  h !! self = Some o → c_fields (o_class o) !! name = Some f →
  kind f = KEmbedded m → classes E !! m = Some cls →
  string_keys d = Some kwargs →
  Model_new fuel E cls kwargs h = (Ok b, h1) →
  Model_setitem fuel E self (VStr name) (VDict d) h
  = (Ok tt, <[self := mkObj (o_class o) (<[name := VObj b]> (_data o))]> h1)
  ∧ b = List.length h
  ∧ (∃ ob, h1 !! b = Some ob ∧ o_class ob = cls)
  ∧ (is_obj (Field_get f name o) = false →
     ∀ plain, Model__update (S fuel) E self [(VStr name, VDict d)] plain h
              = (Ok tt, <[self := mkObj (o_class o) (<[name := VObj b]> (_data o))]> h1)).
Proof.
  intros _ _ Ho Hf Hk Hcls Hkeys Hnew.
  destruct (Model_new_class _ _ _ _ _ _ _ Hnew) as [Hb Hob].
  assert (Model_setitem fuel E self (VStr name) (VDict d) h
          = (Ok tt, <[self := mkObj (o_class o) (<[name := VObj b]> (_data o))]> h1)) as Hset.
  { rewrite (Model_setitem_declared _ _ _ _ _ _ _ _ Ho Hf).
    unfold Field_set. rewrite Hk. unfold EmbeddedField_set, EmbeddedField_coerce. simpl.
    unfold new_model. rewrite Hcls. unfold as_kwargs. rewrite Hkeys.
    unfold bind at 1 2. unfold reading at 1. unfold bind at 1. rewrite Hnew.
    unfold bind, ret. apply store_run.
    eapply prefix_lookup_Some; [exact Ho|]. by eapply grows_Model_new. }
  split; [exact Hset|]. split; [exact Hb|]. split; [exact Hob|].
  intros Hcur plain. rewrite Model__update_S, for__single.
  unfold update_step. simpl.
  rewrite (bind_Ok_intro _ _ _ _ _ (Model_contains_declared _ _ _ _ _ Ho Hf)).
  erewrite (bind_Ok_intro _ _ h); [|].
  2:{ by rewrite (bind_Ok_intro _ _ _ _ _ (Model_getitem_declared _ _ _ _ _ Ho Hf)). }
  simpl.
  assert ((if plain
           then f0 <- Model_field self (VStr name) ;;
                x <- Field_to_python E (Model_new fuel E) f0 (VDict d) ;;
                Model_setitem fuel E self (VStr name) x
           else Model_setitem fuel E self (VStr name) (VDict d)) h
          = Model_setitem fuel E self (VStr name) (VDict d) h) as Hassign.
  { destruct plain; [|done].
    rewrite (bind_Ok_intro _ _ _ _ _ (Model_field_declared _ _ _ _ _ Ho Hf)).
    unfold Field_to_python. rewrite Hk. done. }
  destruct (Field_get f name o); try discriminate Hcur;
    simpl; try (destruct (negb _)); try (destruct b0);
    by rewrite Hassign.
Qed.

Lemma embedded_mapping_builds_instance_witness :
  Model__update 2%nat env0 0%nat [(VStr "inner", VDict [(VStr "x", VStr "7")])] true
    [mkObj class_Box ∅]
  = (Ok tt, [mkObj class_Box {["inner" := VObj 1%nat]}; mkObj class_Point {["x" := VInt 7]}]).
Proof.
  destruct (embedded_mapping_builds_instance 1%nat env0 0%nat (mkObj class_Box ∅) "inner"
              (EmbeddedField "Point" [] ∅) "Point" class_Point
              [(VStr "x", VStr "7")] [("x", VStr "7")] 1%nat [mkObj class_Box ∅]
              [mkObj class_Box ∅; mkObj class_Point {["x" := VInt 7]}])
    as (_ & _ & _ & Hup);
    [exact env0_ordinary | exact ordinary_Box
    | reflexivity | reflexivity | reflexivity | reflexivity | reflexivity
    | vm_compute; reflexivity |].
  rewrite Hup by reflexivity. reflexivity.
Defined.

Lemma Model_contains_run self o k h :
  h !! self = Some o →
  Model_contains self k h
  = match schema_lookup (o_class o) k with
    | Ok entry => (Ok (bool_decide (is_Some entry)), h)
    | Raise e => (Raise e, h)
    | OutOfFuel => (OutOfFuel, h)
    end.
Proof.
  intros Ho. unfold Model_contains.
  rewrite (bind_Ok_intro _ _ _ _ _ (instance_run _ _ _ Ho)).
  unfold bind, reading. by destruct (schema_lookup (o_class o) k).
Qed.

Lemma Model_getitem_run self o k h :
  h !! self = Some o →
  Model_getitem self k h
  = match schema_lookup (o_class o) k with
    | Ok (Some (name, f)) => (Ok (Field_get f name o), h)
    | Ok None => (Raise (FieldError (c_name (o_class o)) k), h)
    | Raise e => (Raise e, h)
    | OutOfFuel => (OutOfFuel, h)
    end.
Proof.
  intros Ho. unfold Model_getitem.
  rewrite (bind_Ok_intro _ _ _ _ _ (instance_run _ _ _ Ho)).
  unfold bind, reading. by destruct (schema_lookup (o_class o) k) as [[[??]|]|?|].
Qed.

(** X15.  An update none of whose values is a mapping never descends
    into a nested instance: it is the assignment, in the order of the
    mapping, of each value whose key is declared, the value being passed
    through the field's [to_python] first when the update is a plain
    one. *)
Theorem update_without_mappings_is_assignments (fuel : nat) (E : env) (self : addr)
    (values : list (val * val)) (plain : bool) (h : heap) :
  Forall (λ kv, is_dict kv.2 = false) values →
  Model__update (S fuel) E self values plain h
  = for_ values (λ kv,
      declared <- Model_contains self kv.1 ;;
      if (declared : bool)
      then (if plain
            then f <- Model_field self kv.1 ;;
                 x <- Field_to_python E (Model_new fuel E) f kv.2 ;;
                 Model_setitem fuel E self kv.1 x
            else Model_setitem fuel E self kv.1 kv.2)
      else ret tt) h.
Proof.
  intros Hflat. rewrite Model__update_S. rewrite Forall_forall in Hflat.
  apply (for__ext_inv (λ _, True)); [|done|done].
  intros [k v] h1 Hin _. specialize (Hflat _ Hin). simpl in Hflat.
  unfold update_step. simpl.
  destruct (h1 !! self) as [o1|] eqn:Ho1.
  2:{ unfold Model_contains, bind, instance, reading. by rewrite Ho1. }
  pose proof (Model_contains_run _ _ k _ Ho1) as Hc.
  pose proof (Model_getitem_run _ _ k _ Ho1) as Hg.
  destruct (schema_lookup (o_class o1) k) as [[[name f]|]|e|] eqn:Hs.
  - rewrite !(bind_Ok_intro _ _ _ _ _ Hc). simpl.
    erewrite (bind_Ok_intro _ _ h1); [|by rewrite (bind_Ok_intro _ _ _ _ _ Hg)].
    simpl.
    destruct (Field_get f name o1); simpl; try (destruct (negb _)); try (destruct b);
      try done.
    by destruct v.
  - by rewrite !(bind_Ok_intro _ _ _ _ _ Hc).
  - unfold bind. by rewrite Hc.
  - unfold bind. by rewrite Hc.
Qed.

Lemma update_without_mappings_is_assignments_witness :
  Model__update 1%nat env0 0%nat [(VStr "x", VStr "4"); (VStr "q", VInt 1)] false
    [mkObj class_Point ∅]
  = (Ok tt, [mkObj class_Point {["x" := VInt 4]}]).
Proof.
  rewrite (update_without_mappings_is_assignments 0%nat env0 0%nat
             [(VStr "x", VStr "4"); (VStr "q", VInt 1)] false [mkObj class_Point ∅]).
  - vm_compute. reflexivity.
  - repeat (apply Forall_cons_2; [reflexivity|]). apply Forall_nil_2.
Defined.

(** X16.  A ListField of an instance of an ordinary class looks at the
    first element only.  The value is stored as it is given when the field
    has no model, when the value is not a non-empty list or tuple, or when
    its first element is an instance of the model, whatever the other
    elements are. *)
Theorem ListField_checks_first_element (fuel : nat) (E : env) (self : addr) (o : obj)
    (name : string) (f : Field) (model : option string) (value : val) (h : heap) :
  ordinary (o_class o) →
  h !! self = Some o → c_fields (o_class o) !! name = Some f →
  kind f = KList model →
  match model, value with
  | Some m, VList (first :: _) | Some m, VTuple (first :: _) => isinstance h first m = true
  | _, _ => True
  end →
  Model_setitem fuel E self (VStr name) value h
  = (Ok tt, <[self := mkObj (o_class o) (<[name := value]> (_data o))]> h).
Proof.
  intros _ Ho Hf Hk Hfirst.
  rewrite (Model_setitem_declared _ _ _ _ _ _ _ _ Ho Hf).
  unfold Field_set. rewrite Hk. unfold ListField_set.
  assert (ListField_coerce E (Model_new fuel E) model value h = (Ok value, h)) as Hco.
  { unfold ListField_coerce.
    destruct model as [m|]; [|by destruct value as [| | | | |[|??]|[|??]| |]].
    destruct value as [| | | | |[|first rest]|[|first rest]| |]; try done;
      unfold bind, reading; by rewrite Hfirst. }
  rewrite (bind_Ok_intro _ _ _ _ _ Hco). by apply store_run.
Qed.

Lemma ListField_checks_first_element_witness :
  Model_setitem 1%nat env1 0%nat (VStr "points")
    (VList [VObj 1%nat; VDict [(VStr "x", VInt 9)]; VInt 5]) heap_bag
  = (Ok tt, <[0%nat := mkObj class_Bag
                (<["points" := VList [VObj 1%nat; VDict [(VStr "x", VInt 9)]; VInt 5]]>
                   (_data bag0))]> heap_bag).
Proof.
  apply (ListField_checks_first_element 1%nat env1 0%nat bag0 "points"
           (the_field (ListField (AOne (SClass "Point")) [] ∅)) (Some "Point"));
    [exact ordinary_Bag | reflexivity..].
Defined.

Lemma new_model_inv fuel E m s h y h1 :
  new_model E (Model_new fuel E) m s h = (Ok y, h1) →
  ∃ cls kwargs, classes E !! m = Some cls ∧ as_kwargs s = Ok kwargs
                ∧ y = VObj (List.length h)
                ∧ Model_new fuel E cls kwargs h = (Ok (List.length h), h1).
Proof.
  unfold new_model. destruct (classes E !! m) as [cls|]; [|done]. intros Hr.
  apply bind_Ok in Hr as (kwargs & h0 & Hkw & Hr).
  unfold reading in Hkw. injection Hkw as Hkw <-.
  apply bind_Ok in Hr as (self & h2 & Hnew & Hr). injection Hr as <- <-.
  destruct (Model_new_class _ _ _ _ _ _ _ Hnew) as [-> _].
  by exists cls, kwargs.
Qed.

Lemma as_kwargs_is_dict s kwargs : as_kwargs s = Ok kwargs → is_dict s = true.
Proof. by destruct s. Qed.

Lemma mapM_new_model fuel E m cls (l : list val) :
  classes E !! m = Some cls →
  ∀ h xs h', mapM (new_model E (Model_new fuel E) m) l h = (Ok xs, h') →
    h `prefix_of` h'
    ∧ ∃ addrs, xs = VObj <$> addrs
               ∧ NoDup addrs
               ∧ Forall2 (λ s a, is_dict s = true
                                 ∧ (List.length h ≤ a < List.length h')%nat
                                 ∧ ∃ o, h' !! a = Some o ∧ o_class o = cls) l addrs.
Proof.
  intros Hcls. induction l as [|s l IH]; intros h xs h' Hr.
  - injection Hr as <- <-. split; [done|]. exists []. repeat split; constructor.
  - simpl in Hr. apply bind_Ok in Hr as (y & h1 & Hnew & Hr).
    apply bind_Ok in Hr as (ys & h2 & Hrest & Hr). injection Hr as <- <-.
    apply new_model_inv in Hnew as (cls' & kwargs & Hcls' & Hkw & -> & Hnew).
    assert (cls' = cls) as -> by congruence.
    pose proof (grows_Model_new _ _ _ _ _ _ _ Hnew) as Hp1.
    destruct (Model_new_class _ _ _ _ _ _ _ Hnew) as [_ (o & Ho & Hocls)].
    destruct (IH _ _ _ Hrest) as (Hp2 & addrs & -> & Hnd & Hall).
    pose proof (lookup_lt_Some _ _ _ Ho) as Hlt.
    pose proof (prefix_length _ _ Hp1) as Hl1.
    pose proof (prefix_length _ _ Hp2) as Hl2.
    split; [by etrans|].
    exists (List.length h :: addrs). split; [done|]. split.
    + constructor; [|done]. intros Hin.
      rewrite Forall2_forall_r in Hall || idtac.
      apply list_elem_of_lookup in Hin as [i Hi].
      destruct (Forall2_lookup_r _ _ _ _ _ Hall Hi) as (s' & _ & _ & Hrange & _). lia.
    + constructor.
      * split; [by eapply as_kwargs_is_dict|]. split; [lia|].
        exists o. split; [|done]. by eapply prefix_lookup_Some.
      * eapply Forall2_impl; [exact Hall|]. intros s' a (Hd & Hrange & Hobj).
        split; [done|]. split; [lia|done].
Qed.

(** X17.  When a ListField with a model converts a list ([to_python]),
    every element has to be a mapping, and the result is a list of as many
    new instances of the model's class, pairwise distinct and all
    allocated by the conversion; the instances that existed before are
    left as they were. *)
Theorem ListField_conversion_builds_instances (fuel : nat) (E : env) (m : string)
    (l : list val) (h h' : heap) (x : val) :
  l ≠ [] →
  ListField_to_python E (Model_new fuel E) (Some m) (VList l) h = (Ok x, h') →
  h `prefix_of` h'
  ∧ ∃ cls addrs, classes E !! m = Some cls
                 ∧ x = VList (VObj <$> addrs)
                 ∧ NoDup addrs
                 ∧ Forall2 (λ s a, is_dict s = true
                                   ∧ (List.length h ≤ a < List.length h')%nat
                                   ∧ ∃ o, h' !! a = Some o ∧ o_class o = cls) l addrs.
Proof.
  intros Hl Hr. unfold ListField_to_python in Hr.
  assert (truthy (VList l) = true) as Ht by (by destruct l).
  rewrite Ht in Hr. apply bind_Ok in Hr as (items & h0 & Hit & Hr).
  unfold reading in Hit. simpl in Hit. injection Hit as <- <-.
  apply bind_Ok in Hr as (mapped & h1 & Hmap & Hr).
  destruct (classes E !! m) as [cls|] eqn:Hcls.
  2:{ destruct l as [|s l]; [done|]. simpl in Hmap.
      apply bind_Ok in Hmap as (y & h2 & Hnew & _).
      unfold new_model in Hnew. by rewrite Hcls in Hnew. }
  destruct (mapM_new_model fuel E m cls l Hcls _ _ _ Hmap) as (Hp & addrs & -> & Hnd & Hall).
  assert (addrs ≠ []) as Ha.
  { intros ->. apply Forall2_nil_inv_r in Hall. done. }
  assert (truthy (VList (VObj <$> addrs)) = true) as Ht' by (by destruct addrs).
  rewrite Ht' in Hr. injection Hr as <- <-.
  split; [done|]. by exists cls, addrs.
Qed.

Lemma ListField_conversion_builds_instances_witness :
  [mkObj class_Box ∅] `prefix_of`
    [mkObj class_Box ∅; mkObj class_Point {["x" := VInt 1]};
     mkObj class_Point {["x" := VInt 2]}]
  ∧ ∃ cls addrs, classes env0 !! "Point" = Some cls
      ∧ VList [VObj 1%nat; VObj 2%nat] = VList (VObj <$> addrs)
      ∧ NoDup addrs
      ∧ Forall2 (λ s a, is_dict s = true
                        ∧ (1 ≤ a < 3)%nat
                        ∧ ∃ o, [mkObj class_Box ∅; mkObj class_Point {["x" := VInt 1]};
                                mkObj class_Point {["x" := VInt 2]}] !! a = Some o
                               ∧ o_class o = cls)
          [VDict [(VStr "x", VInt 1)]; VDict [(VStr "x", VStr "2")]] addrs.
Proof.
  apply (ListField_conversion_builds_instances 1%nat env0 "Point"
           [VDict [(VStr "x", VInt 1)]; VDict [(VStr "x", VStr "2")]]
           [mkObj class_Box ∅]
           [mkObj class_Box ∅; mkObj class_Point {["x" := VInt 1]};
            mkObj class_Point {["x" := VInt 2]}]
           (VList [VObj 1%nat; VObj 2%nat])).
  - discriminate.
  - vm_compute. reflexivity.
Defined.

Lemma DictField_to_python_loop_plain E call items :
  ∀ result h, keys_ok result.*1 items.*1 = true →
    DictField_to_python_loop E call None None items result h = (Ok (result ++ items), h).
Proof.
  induction items as [|[k v] items IH]; intros result h Hk; simpl.
  - by rewrite app_nil_r.
  - simpl in Hk. pose proof (dict_setitem_fresh result k v _ Hk) as Hset.
    unfold bind at 1 2 3. unfold ret at 1 2. unfold reading at 1. rewrite Hset.
    apply keys_ok_cons in Hk as (_ & _ & _ & Hk).
    rewrite IH.
    + by rewrite <- app_assoc.
    + by rewrite fmap_app.
Qed.

(** X18.  A DictField without key and value models, of an instance of an
    ordinary class, stores any value as it is given.  Its [to_python]
    turns an empty dict, like any other falsy value, into [None], and
    returns a dict with hashable and pairwise different keys unchanged. *)
Theorem DictField_without_models (fuel : nat) (E : env) (self : addr) (o : obj)
    (name : string) (f : Field) (kvs vvs : list validator) (h : heap) :
  ordinary (o_class o) →
  h !! self = Some o → c_fields (o_class o) !! name = Some f →
  kind f = KDict None None kvs vvs →
  (∀ value, Model_setitem fuel E self (VStr name) value h
            = (Ok tt, <[self := mkObj (o_class o) (<[name := value]> (_data o))]> h))
  ∧ (∀ value, truthy value = false →
       Field_to_python E (Model_new fuel E) f value h = (Ok VNone, h))
  ∧ (∀ d, d ≠ [] → keys_ok [] d.*1 = true →
       Field_to_python E (Model_new fuel E) f (VDict d) h = (Ok (VDict d), h)).
Proof.
  intros _ Ho Hf Hk. split; [|split].
  - intros value. rewrite (Model_setitem_declared _ _ _ _ _ _ _ _ Ho Hf).
    unfold Field_set. rewrite Hk. unfold DictField_set.
    assert (DictField_coerce E (Model_new fuel E) None None value h = (Ok value, h)) as Hco.
    { unfold DictField_coerce. by destruct value as [| | | | | | |[|[??]?]|]. }
    rewrite (bind_Ok_intro _ _ _ _ _ Hco). by apply store_run.
  - intros value Hv. unfold Field_to_python. rewrite Hk.
    unfold DictField_to_python. by rewrite Hv.
  - intros d Hd Hkeys. unfold Field_to_python. rewrite Hk.
    unfold DictField_to_python.
    assert (truthy (VDict d) = true) as -> by (by destruct d).
    simpl. unfold bind. rewrite DictField_to_python_loop_plain by done. done.
Qed.

Lemma DictField_without_models_witness :
  Field_to_python env_clock (Model_new 0%nat env_clock)
    (the_field (DictField (AOne (SValidator builtin_validators.String)) ANone [] ∅))
    (VDict [(VStr "a", VInt 1); (VInt 2, VNone)]) [mkObj class_Doc ∅]
  = (Ok (VDict [(VStr "a", VInt 1); (VInt 2, VNone)]), [mkObj class_Doc ∅]).
Proof.
  destruct (DictField_without_models 0%nat env_clock 0%nat (mkObj class_Doc ∅) "meta"
              (the_field (DictField (AOne (SValidator builtin_validators.String))
                            ANone [] ∅)) [] [] [mkObj class_Doc ∅])
    as (_ & _ & Hpy); [exact ordinary_Doc | reflexivity | reflexivity | reflexivity |].
  apply Hpy; [discriminate | reflexivity].
Defined.

(** X19.  The plain form of a DateTimeField value reads back.  [None]
    stays [None] both ways; a datetime becomes the text [strftime] prints
    and [to_python] parses that text back, provided [strptime] inverts
    [strftime] on it whenever the text is not empty (an empty text is
    falsy, and then [to_plain] hands over the datetime itself).  And
    whatever [to_python] is given, what it returns is [None] or a
    datetime. *)
Theorem DateTimeField_round_trip (E : env) (fmt : string) (t : Z) :
  (strftime E t fmt ≠ EmptyString → strptime E (strftime E t fmt) fmt = Some t) →
  (∃ p, DateTimeField_to_plain E (VStr fmt) (VDateTime t) = Ok p
        ∧ DateTimeField_to_python E (VStr fmt) p = Ok (VDateTime t))
  ∧ DateTimeField_to_plain E (VStr fmt) VNone = Ok VNone
  ∧ DateTimeField_to_python E (VStr fmt) VNone = Ok VNone
  ∧ ∀ format value x, DateTimeField_to_python E format value = Ok x →
      x = VNone ∨ ∃ t', x = VDateTime t'.
Proof.
  intros Hinv. split; [|split; [done|split; [done|]]].
  - unfold DateTimeField_to_plain. simpl.
    destruct (String.eqb (strftime E t fmt) EmptyString) eqn:Hs; simpl.
    + by exists (VDateTime t).
    + exists (VStr (strftime E t fmt)). split; [done|].
      unfold DateTimeField_to_python. simpl. rewrite Hs. simpl.
      rewrite Hinv; [done|]. intros Heq. rewrite Heq in Hs. discriminate Hs.
  - intros format value x Hx. unfold DateTimeField_to_python in Hx.
    destruct value; simpl in Hx;
      try (injection Hx as <-; eauto; fail);
      try (destruct (negb _); [discriminate Hx | injection Hx as <-; by left]);
      try discriminate Hx.
    + destruct b; [discriminate Hx | injection Hx as <-; by left].
    + destruct (negb _); [|injection Hx as <-; by left].
      destruct format; try discriminate Hx.
      destruct (strptime E s s0); [|discriminate Hx]. injection Hx as <-. eauto.
Qed.

Lemma DateTimeField_round_trip_witness :
  ∃ p, DateTimeField_to_plain env_clock (VStr "%Y") (VDateTime 0) = Ok p
       ∧ DateTimeField_to_python env_clock (VStr "%Y") p = Ok (VDateTime 0).
Proof.
  destruct (DateTimeField_round_trip env_clock "%Y" 0) as [Hrt _]; [reflexivity|].
  exact Hrt.
Defined.

(** X29.  A DictField of an instance of an ordinary class looks at the
    first item only.  The value is stored as given when it is not a
    non-empty dict, and also when the first key and the first value are
    instances of the key model and of the value model wherever the field
    has one, whatever the other items are. *)
Theorem DictField_checks_first_item (fuel : nat) (E : env) (self : addr) (o : obj)
    (name : string) (f : Field) (key_model value_model : option string)
    (kvs vvs : list validator) (value : val) (h : heap) :
  ordinary (o_class o) →
  h !! self = Some o → c_fields (o_class o) !! name = Some f →
  kind f = KDict key_model value_model kvs vvs →
  match value with
  | VDict ((first_key, first_value) :: _) =>
      not_instance h value_model first_value = false
      ∧ not_instance h key_model first_key = false
  | _ => True
  end →
  Model_setitem fuel E self (VStr name) value h
  = (Ok tt, <[self := mkObj (o_class o) (<[name := value]> (_data o))]> h).
Proof.
  intros _ Ho Hf Hk Hfirst.
  rewrite (Model_setitem_declared _ _ _ _ _ _ _ _ Ho Hf).
  unfold Field_set. rewrite Hk. unfold DictField_set.
  assert (DictField_coerce E (Model_new fuel E) key_model value_model value h
          = (Ok value, h)) as Hco.
  { unfold DictField_coerce.
    destruct value as [| | | | | | |[|[first_key first_value] rest]|]; try done.
    destruct Hfirst as [Hv Hkey].
    destruct (_ || _)%bool; [|done].
    unfold bind, reading. by rewrite Hv, Hkey. }
  rewrite (bind_Ok_intro _ _ _ _ _ Hco). by apply store_run.
Qed.

Lemma DictField_checks_first_item_witness :
  Model_setitem 1%nat env1 0%nat (VStr "named")
    (VDict [(VStr "a", VObj 1%nat); (VStr "b", VDict [(VStr "x", VInt 9)])]) heap_bag
  = (Ok tt, <[0%nat := mkObj class_Bag
                (<["named" := VDict [(VStr "a", VObj 1%nat);
                                     (VStr "b", VDict [(VStr "x", VInt 9)])]]>
                   (_data bag0))]> heap_bag).
Proof.
  apply (DictField_checks_first_item 1%nat env1 0%nat bag0 "named"
           (the_field (DictField ANone (AOne (SClass "Point")) [] ∅))
           None (Some "Point") [] [builtin_validators.Model "Point"]);
    [exact ordinary_Bag | reflexivity | reflexivity | reflexivity | split; reflexivity].
Defined.

(** ** The mapping of an instance: [to_plain], [to_dict], [from_plain_dict] *)

Lemma mapO_Ok_keys {A} (g : A → outcome val) (key : A → val) (l : list A) res :
  mapO (λ x, p <~ g x ;; Ok (key x, p)) l = Ok res →
  res.*1 = key <$> l ∧ Forall2 (λ x kv, g x = Ok kv.2) l res.
Proof.
  revert res. induction l as [|x l IH]; intros res Hr; simpl in Hr.
  - injection Hr as <-. split; [done|constructor].
  - destruct (g x) as [p| |] eqn:Hg; simpl in Hr; try discriminate Hr.
    destruct (mapO _ l) as [ys| |] eqn:Hys; simpl in Hr; try discriminate Hr.
    injection Hr as <-. destruct (IH ys eq_refl) as [Hk Hall].
    split; [simpl; by f_equal | by constructor].
Qed.

Lemma mapO_Ok_intro {A B} (g : A → outcome B) (l : list A) (res : list B) :
  Forall2 (λ x y, g x = Ok y) l res → mapO g l = Ok res.
Proof.
  induction 1 as [|x y l res Hx _ IH]; [done|]. simpl. rewrite Hx. simpl. by rewrite IH.
Qed.

(** X20.  When [to_plain] returns, it returns a mapping with exactly one
    entry for each declared field, keyed by its name, in the order of
    [_fields]: values of undeclared names never show, and a field that was
    never assigned is there all the same. *)
Theorem to_plain_lists_declared_fields (fuel : nat) (E : env) (h : heap) (a : addr)
    (o : obj) (p : val) :
  h !! a = Some o → Model_to_plain fuel E h a = Ok p →
  ∃ d, p = VDict d
       ∧ d.*1 = (λ nf, VStr nf.1) <$> map_to_list (c_fields (o_class o))
       ∧ NoDup d.*1.
Proof.
  intros Ho Hp. destruct fuel as [|fuel]; [discriminate Hp|].
  rewrite Model_to_plain_S, Ho in Hp.
  destruct (mapO _ _) as [res| |] eqn:Hres; try discriminate Hp.
  injection Hp as <-.
  apply (mapO_Ok_keys (λ nf, Field_to_plain E h (Model_to_plain fuel E h) nf.2
                               (Field_get nf.2 nf.1 o)) (λ nf, VStr nf.1)) in Hres
    as [Hkeys _].
  exists res. split; [done|]. split; [done|]. rewrite Hkeys.
  assert (∀ L : list (string * Field), (λ nf, VStr nf.1) <$> L = VStr <$> L.*1) as ->
    by (intros L; by rewrite <- list_fmap_compose).
  apply NoDup_fmap; [by intros ?? [=]|]. apply NoDup_fst_map_to_list.
Qed.

Lemma to_plain_lists_declared_fields_witness :
  ∃ d, VDict [(VStr "y", VInt 0); (VStr "x", VInt 3)] = VDict d
       ∧ d.*1 = (λ nf, VStr nf.1) <$> map_to_list (c_fields class_Point)
       ∧ NoDup d.*1.
Proof.
  apply (to_plain_lists_declared_fields 1%nat env0
           [mkObj class_Point (<["zz" := VInt 8]> {["x" := VInt 3]})] 0%nat
           (mkObj class_Point (<["zz" := VInt 8]> {["x" := VInt 3]}))
           (VDict [(VStr "y", VInt 0); (VStr "x", VInt 3)]));
    [reflexivity | vm_compute; reflexivity].
Defined.

(** X21.  [to_plain] and [to_dict] never return on a cycle.  If every
    instance of a set holds, in one of its fields, an instance of the
    set (for [to_plain]: in one of its EmbeddedFields), then neither
    call returns a value for a member of the set, whatever the depth
    allowed to the recursion. *)
Theorem cycle_never_serialised (E : env) (h : heap) (C : addr → Prop) :
  (∀ a, C a → ∃ o name f m b,
      h !! a = Some o ∧ c_fields (o_class o) !! name = Some f
      ∧ kind f = KEmbedded m ∧ Field_get f name o = VObj b ∧ C b) →
  ∀ fuel a p, C a → Model_to_plain fuel E h a ≠ Ok p ∧ Model_to_dict fuel h a ≠ Ok p.
Proof.
  intros Hcyc. induction fuel as [|fuel IH]; intros a p Ha; [done|].
  destruct (Hcyc a Ha) as (o & name & f & m & b & Ho & Hf & Hk & Hget & Hb).
  assert ((name, f) ∈ map_to_list (c_fields (o_class o))) as Hin
    by (by apply elem_of_map_to_list).
  split.
  - rewrite Model_to_plain_S, Ho. intros Hp.
    destruct (mapO _ _) as [res| |] eqn:Hres; try discriminate Hp.
    apply (mapO_Ok_keys (λ nf, Field_to_plain E h (Model_to_plain fuel E h) nf.2
                                 (Field_get nf.2 nf.1 o)) (λ nf, VStr nf.1)) in Hres
      as [_ Hall].
    apply list_elem_of_lookup in Hin as [i Hi].
    destruct (Forall2_lookup_l _ _ _ _ _ Hall Hi) as (kv & _ & Hfp).
    simpl in Hfp. unfold Field_to_plain in Hfp. rewrite Hk, Hget in Hfp.
    unfold EmbeddedField_to_plain in Hfp. simpl in Hfp.
    destruct (Model_to_plain fuel E h b) as [pb| |] eqn:Hpb; try discriminate Hfp.
    destruct (IH b pb Hb) as [Hno _]. by apply Hno.
  - simpl. rewrite Ho. intros Hp.
    destruct (mapO _ _) as [res| |] eqn:Hres; try discriminate Hp.
    apply (mapO_Ok_keys (λ nf, match Field_get nf.2 nf.1 o with
                               | VObj a0 => Model_to_dict fuel h a0
                               | _ => Ok (Field_get nf.2 nf.1 o)
                               end) (λ nf, VStr nf.1)) in Hres as [_ Hall].
    apply list_elem_of_lookup in Hin as [i Hi].
    destruct (Forall2_lookup_l _ _ _ _ _ Hall Hi) as (kv & _ & Hfp).
    simpl in Hfp. rewrite Hget in Hfp.
    destruct (IH b kv.2 Hb) as [_ Hno]. by apply Hno.
Qed.

Lemma cycle_never_serialised_witness :
  Model_to_plain 5%nat env0 [mkObj class_Box {["inner" := VObj 0%nat]}] 0%nat
    ≠ Ok (VDict [(VStr "inner", VNone)])
  ∧ Model_to_dict 5%nat [mkObj class_Box {["inner" := VObj 0%nat]}] 0%nat
    ≠ Ok (VDict [(VStr "inner", VNone)]).
Proof.
  apply (cycle_never_serialised env0 [mkObj class_Box {["inner" := VObj 0%nat]}]
           (λ a, a = 0%nat)); [|reflexivity].
  intros a ->. exists (mkObj class_Box {["inner" := VObj 0%nat]}), "inner",
                 (EmbeddedField "Point" [] ∅), "Point", 0%nat.
  repeat split; reflexivity.
Defined.

Lemma Model_to_dict_flat fuel h a o :
  h !! a = Some o →
  map_Forall (λ name f, is_obj (Field_get f name o) = false) (c_fields (o_class o)) →
  Model_to_dict (S fuel) h a = Ok (VDict (field_items o)).
Proof.
  intros Ho Hflat. simpl. rewrite Ho.
  rewrite (mapO_Ok_intro _ _ (field_items o)); [done|].
  unfold field_items. apply Forall2_fmap_r, Forall_Forall2_diag, Forall_forall.
  intros [name f] Hin. apply elem_of_map_to_list in Hin. simpl.
  specialize (Hflat name f Hin). simpl in Hflat.
  by destruct (Field_get f name o).
Qed.

(** X22.  On an instance of an ordinary class [to_dict] hands over the
    value of every field as it is, unless the value is itself an instance:
    when no field of the instance holds an instance directly, the result
    lists each declared field with its current value or default.  Falsy
    values stay as they are, and lists and dicts are not looked into, even
    when they hold instances. *)
Theorem to_dict_keeps_values (fuel : nat) (h : heap) (a : addr) (o : obj) :
  ordinary (o_class o) →
  h !! a = Some o →
  map_Forall (λ name f, is_obj (Field_get f name o) = false) (c_fields (o_class o)) →
  Model_to_dict (S fuel) h a = Ok (VDict (field_items o)).
Proof. intros _. apply Model_to_dict_flat. Qed.

Lemma to_dict_keeps_values_witness :
  Model_to_dict 1%nat
    [mkObj class_Bag (<["points" := VList [VObj 1%nat]]> {["tags" := VList []]});
     mkObj class_Point {["x" := VInt 1]}] 0%nat
  = Ok (VDict (field_items
                 (mkObj class_Bag (<["points" := VList [VObj 1%nat]]> {["tags" := VList []]})))).
Proof.
  apply (to_dict_keeps_values 0%nat
           [mkObj class_Bag (<["points" := VList [VObj 1%nat]]> {["tags" := VList []]});
            mkObj class_Point {["x" := VInt 1]}] 0%nat
           (mkObj class_Bag (<["points" := VList [VObj 1%nat]]> {["tags" := VList []]})));
    [exact ordinary_Bag | reflexivity |].
  apply map_Forall_to_list. list_fields.
  repeat (apply Forall_cons_2; [reflexivity|]). apply Forall_nil_2.
Defined.

(** X28.  The plain form of a non-empty list keeps length and order.  An
    element that is no instance is handed over as it is; an instance is
    replaced by its plain form, unless that plain form is falsy (an
    instance of a model without fields), in which case the instance
    itself stays in the list. *)
Theorem ListField_to_plain_elements (h : heap) (to_plain : addr → outcome val)
    (l ps : list val) :
  l ≠ [] →
  Forall2 (λ x p, match x with
                  | VObj a => ∃ q, to_plain a = Ok q ∧ p = if truthy q then q else x
                  | _ => p = x
                  end) l ps →
  ListField_to_plain h to_plain (VList l) = Ok (VList ps).
Proof.
  intros Hl Hall.
  assert (ps ≠ []) as Hps.
  { intros ->. apply Forall2_nil_inv_r in Hall. done. }
  apply ListField_to_plain_run; [done | done |].
  apply mapO_Ok_intro. eapply Forall2_impl; [exact Hall|].
  intros x p Hx. destruct x; simpl in *; try (by subst).
  destruct Hx as (q & -> & ->). done.
Qed.

Lemma ListField_to_plain_elements_witness :
  ListField_to_plain heap_bag (Model_to_plain 1%nat env1 heap_bag)
    (VList [VInt 0; VObj 1%nat])
  = Ok (VList [VInt 0; VDict [(VStr "y", VInt 0); (VStr "x", VInt 1)]]).
Proof.
  apply ListField_to_plain_elements; [discriminate|].
  constructor; [reflexivity|]. constructor; [|constructor].
  eexists. split; [vm_compute; reflexivity | reflexivity].
Defined.

(** X30.  The plain form of a non-empty dict whose keys are hashable,
    pairwise different and no instances keeps the keys and their order.  A
    value that is no instance is handed over as it is; an instance is
    replaced by its plain form, unless that plain form is falsy, in which
    case the instance itself stays in the dict. *)
Theorem DictField_to_plain_items (to_plain : addr → outcome val)
    (d dp : list (val * val)) :
  d ≠ [] → keys_ok [] d.*1 = true →
  Forall2 (λ kv kp, kv.1 = kp.1
                    ∧ match kv.2 with
                      | VObj a => ∃ q, to_plain a = Ok q
                                       ∧ kp.2 = if truthy q then q else kv.2
                      | _ => kp.2 = kv.2
                      end) d dp →
  DictField_to_plain to_plain (VDict d) = Ok (VDict dp).
Proof.
  intros Hd Hkeys Hall. apply DictField_to_plain_run; [done|].
  rewrite (DictField_to_plain_loop_ok to_plain d dp []); [done | done |].
  eapply Forall2_impl; [exact Hall|].
  intros [k v] [k' p] [Hk Hv]. simpl in *. split; [done|].
  destruct v; simpl in *; try (by subst).
  destruct Hv as (q & -> & ->). done.
Qed.

Lemma DictField_to_plain_items_witness :
  DictField_to_plain (Model_to_plain 1%nat env1 heap_bag)
    (VDict [(VStr "n", VInt 0); (VStr "p", VObj 1%nat)])
  = Ok (VDict [(VStr "n", VInt 0);
               (VStr "p", VDict [(VStr "y", VInt 0); (VStr "x", VInt 1)])]).
Proof.
  apply DictField_to_plain_items; [discriminate | reflexivity |].
  constructor; [split; reflexivity|]. constructor; [|constructor].
  split; [reflexivity|]. eexists. split; [vm_compute; reflexivity | reflexivity].
Defined.

(** X23.  For an instance of an ordinary class all of whose fields are
    of class Field, StringField, IntegerField, FloatField, BooleanField or
    EmailField, [to_plain] always returns, and lists each declared field
    with its current value or default, unchanged; it is then what
    [to_dict] returns whenever no field holds an instance. *)
Theorem to_plain_of_scalar_fields (fuel : nat) (E : env) (h : heap) (a : addr) (o : obj) :
  ordinary (o_class o) →
  h !! a = Some o →
  map_Forall (λ _ f, plain_to_plain (kind f) = true) (c_fields (o_class o)) →
  Model_to_plain (S fuel) E h a = Ok (VDict (field_items o))
  ∧ (map_Forall (λ name f, is_obj (Field_get f name o) = false) (c_fields (o_class o)) →
     ∀ fuel', Model_to_dict (S fuel') h a = Model_to_plain (S fuel) E h a).
Proof.
  intros _ Ho Hk.
  assert (Model_to_plain (S fuel) E h a = Ok (VDict (field_items o))) as Hp.
  { rewrite Model_to_plain_S, Ho.
    rewrite (mapO_Ok_intro _ _ (field_items o)); [done|].
    unfold field_items. apply Forall2_fmap_r, Forall_Forall2_diag, Forall_forall.
    intros [name f] Hin. apply elem_of_map_to_list in Hin. simpl.
    specialize (Hk name f Hin). simpl in Hk. unfold Field_to_plain.
    by destruct (kind f). }
  split; [exact Hp|]. intros Hflat fuel'. rewrite Hp. by apply Model_to_dict_flat.
Qed.

Lemma to_plain_of_scalar_fields_witness :
  Model_to_plain 1%nat env0 [mkObj class_Point {["x" := VStr "a"]}] 0%nat
  = Ok (VDict (field_items (mkObj class_Point {["x" := VStr "a"]}))).
Proof.
  destruct (to_plain_of_scalar_fields 0%nat env0 [mkObj class_Point {["x" := VStr "a"]}]
              0%nat (mkObj class_Point {["x" := VStr "a"]})) as [Hp _];
    [exact ordinary_Point | reflexivity | | exact Hp].
  apply map_Forall_to_list. list_fields.
  repeat (apply Forall_cons_2; [reflexivity|]). apply Forall_nil_2.
Defined.

(** X24.  [from_plain_dict] does not refuse what it cannot use.  Given
    [None], or a mapping none of whose keys is a declared field, it
    returns a new instance with no value set, every field at its
    default. *)
Theorem from_plain_dict_without_declared_keys (fuel : nat) (E : env) (cls : ModelClass)
    (plain : val) (h : heap) :
  plain = VNone
  ∨ (∃ d, plain = VDict d ∧ Forall (λ kv, declared_key cls kv = false) d) →
  Model_from_plain_dict (S fuel) E cls plain h
  = (Ok (List.length h), h ++ [mkObj cls ∅]).
Proof.
  intros Hplain. unfold Model_from_plain_dict.
  rewrite (bind_Ok_intro _ _ _ _ _ (eq_refl : Model_new (S fuel) E cls [] h
                                               = (Ok (List.length h), h ++ [mkObj cls ∅]))).
  destruct Hplain as [-> | (d & -> & Hd)]; [done|].
  unfold Model_update. rewrite Model__update_S.
  assert ((h ++ [mkObj cls ∅]) !! List.length h = Some (mkObj cls ∅)) as Ho.
  { rewrite lookup_app_r by lia. by rewrite Nat.sub_diag. }
  assert (for_ d (update_step fuel E (List.length h) true) (h ++ [mkObj cls ∅])
          = (Ok tt, h ++ [mkObj cls ∅])) as Hfor.
  { induction Hd as [|kv d Hkv _ IH]; [done|]. simpl.
    rewrite (bind_Ok_intro _ _ _ _ _
               (update_step_undeclared fuel E _ _ true kv _ Ho Hkv)).
    exact IH. }
  by rewrite (bind_Ok_intro _ _ _ _ _ Hfor).
Qed.

Lemma from_plain_dict_without_declared_keys_witness :
  Model_from_plain_dict 1%nat env0 class_Point
    (VDict [(VStr "colour", VStr "red"); (VInt 3, VNone)]) []
  = (Ok 0%nat, [mkObj class_Point ∅]).
Proof.
  apply (from_plain_dict_without_declared_keys 0%nat env0 class_Point
           (VDict [(VStr "colour", VStr "red"); (VInt 3, VNone)]) []).
  right. eexists. split; [reflexivity|].
  repeat (apply Forall_cons_2; [reflexivity|]). apply Forall_nil_2.
Defined.

(** ** The schema a class gets from [ModelMeta] *)

Lemma collect_fields_cons k a d acc :
  collect_fields ((k, a) :: d) acc
  = collect_fields d (match a with AField f => <[k := f]> acc | AOther _ => acc end).
Proof. by destruct a. Qed.

Lemma collect_fields_absent k d acc :
  (∀ f, (k, AField f) ∉ d) → collect_fields d acc !! k = acc !! k.
Proof.
  revert acc. induction d as [|[k' a] d IH]; intros acc Hno; [done|].
  rewrite collect_fields_cons. rewrite IH.
  - destruct a as [f|v]; [|done]. rewrite lookup_insert_ne; [done|].
    intros ->. apply (Hno f). left.
  - intros f Hin. apply (Hno f). by right.
Qed.

Lemma collect_fields_present k f d acc :
  NoDup d.*1 → (k, AField f) ∈ d → collect_fields d acc !! k = Some f.
Proof.
  revert acc. induction d as [|[k' a] d IH]; intros acc Hnd Hin.
  - by apply elem_of_nil in Hin.
  - rewrite collect_fields_cons. simpl in Hnd. apply NoDup_cons in Hnd as [Hk' Hnd].
    apply elem_of_cons in Hin as [[= <- <-]|Hin].
    + rewrite collect_fields_absent; [by rewrite lookup_insert_eq|].
      intros f' Hin'. apply Hk'. apply list_elem_of_fmap. by exists (k, AField f').
    + by apply IH.
Qed.

Lemma from_bases_absent k (bases : list ModelClass) acc :
  (∀ b f, b ∈ bases → (k, AField f) ∉ c_dict b) →
  foldl (λ acc base, collect_fields (c_dict base) acc) acc bases !! k = acc !! k.
Proof.
  revert acc. induction bases as [|b bases IH]; intros acc Hno; [done|].
  simpl. rewrite IH.
  - apply collect_fields_absent. intros f. apply Hno. left.
  - intros b' f Hb'. apply Hno. by right.
Qed.

(** X25.  A field declared in the body of a class is in its [_fields]
    under its name, whatever the bases declare under that name. *)
Theorem ModelMeta_own_field (name : string) (bases : list ModelClass)
    (attrs : list (string * attr)) (k : string) (f : Field) :
  NoDup attrs.*1 → k ≠ "_fields" → (k, AField f) ∈ attrs →
  c_fields (ModelMeta_new name bases attrs) !! k = Some f.
Proof.
  intros Hnd Hk Hin. unfold ModelMeta_new. simpl.
  apply collect_fields_present.
  - clear -Hnd. induction attrs as [|[k' a] attrs IH]; [constructor|].
    simpl in Hnd. apply NoDup_cons in Hnd as [Hk' Hnd].
    rewrite filter_cons. destruct (decide _); [|by apply IH].
    simpl. apply NoDup_cons. split; [|by apply IH].
    intros Hin. apply Hk'. apply list_elem_of_fmap in Hin as ([k2 a2] & -> & Hin).
    apply list_elem_of_filter in Hin as [_ Hin].
    apply list_elem_of_fmap. by exists (k2, a2).
  - apply list_elem_of_filter. by split.
Qed.

Lemma ModelMeta_own_field_witness :
  c_fields (ModelMeta_new "B2" [class_A] [("x", AField (StringField [] ∅))]) !! "x"
  = Some (StringField [] ∅).
Proof.
  apply ModelMeta_own_field;
    [apply NoDup_singleton | discriminate | apply list_elem_of_singleton; reflexivity].
Defined.

(** X26.  A field declared in the body of a direct base is inherited
    under its name when the class body declares no field of that name and
    no later base does: of two bases that declare the name the later one
    wins, and an entry of the class body that is not a field does not
    hide the inherited field. *)
Theorem ModelMeta_inherits_from_direct_base (name : string)
    (before after : list ModelClass) (b : ModelClass)
    (attrs : list (string * attr)) (k : string) (f : Field) :
  NoDup (c_dict b).*1 → (k, AField f) ∈ c_dict b →
  (∀ b' f', b' ∈ after → (k, AField f') ∉ c_dict b') →
  (∀ f', (k, AField f') ∉ attrs) →
  c_fields (ModelMeta_new name (before ++ b :: after) attrs) !! k = Some f.
Proof.
  intros Hnd Hin Hafter Hown. unfold ModelMeta_new. simpl.
  rewrite collect_fields_absent.
  2:{ intros f' Hin'. apply list_elem_of_filter in Hin' as [_ Hin']. by apply (Hown f'). }
  rewrite foldl_app. simpl. rewrite from_bases_absent by exact Hafter.
  by apply collect_fields_present.
Qed.

Lemma ModelMeta_inherits_from_direct_base_witness :
  c_fields (ModelMeta_new "AB" [class_A; ModelMeta_new "A2" [] [("x", AField (StringField [] ∅))]]
              [("x", AOther (VInt 1))]) !! "x"
  = Some (StringField [] ∅).
Proof.
  apply (ModelMeta_inherits_from_direct_base "AB" [class_A]
           [] (ModelMeta_new "A2" [] [("x", AField (StringField [] ∅))])
           [("x", AOther (VInt 1))] "x" (StringField [] ∅)).
  - vm_compute. apply NoDup_singleton.
  - vm_compute. apply list_elem_of_singleton. reflexivity.
  - intros b' f' Hb'. by apply elem_of_nil in Hb'.
  - intros f' Hin. apply list_elem_of_singleton in Hin. discriminate Hin.
Defined.

(** ** Validation *)

Section ValidatePure.
Context (validator_validate : validator → val → M unit).
(** Validators that only look: they leave the store as it is. *)
Hypothesis validators_look :
  ∀ v x h r h', validator_validate v x h = (r, h') → h' = h.

Lemma for__looks {A} (l : list A) (body : A → M unit) :
  (∀ x h r h', body x h = (r, h') → h' = h) →
  ∀ h r h', for_ l body h = (r, h') → h' = h.
Proof.
  intros Hb. induction l as [|x l IH]; intros h r h' Hr; simpl in Hr.
  - by injection Hr as _ <-.
  - unfold bind in Hr. destruct (body x h) as [[[]|e|] h1] eqn:Hx;
      apply Hb in Hx as ->; [by eapply IH | by injection Hr as _ <- ..].
Qed.

Lemma for__accepts {A} (l : list A) (body : A → M unit) h :
  (∀ x h r h', body x h = (r, h') → h' = h) →
  for_ l body h = (Ok tt, h) ↔ Forall (λ x, body x h = (Ok tt, h)) l.
Proof.
  intros Hb. induction l as [|x l IH]; simpl.
  - split; [constructor | done].
  - unfold bind. destruct (body x h) as [[[]|e|] h1] eqn:Hx;
      pose proof (Hb _ _ _ _ Hx) as ->.
    + rewrite IH. rewrite Forall_cons. tauto.
    + rewrite Forall_cons. split; [done|]. intros [Hx' _]. congruence.
    + rewrite Forall_cons. split; [done|]. intros [Hx' _]. congruence.
Qed.

Lemma Field_validate_looks f v h r h' :
  Field_validate validator_validate f v h = (r, h') → h' = h.
Proof. apply for__looks. intros x. apply validators_look. Qed.

Lemma validate_looks f v h r h' :
  validate validator_validate f v h = (r, h') → h' = h.
Proof.
  unfold validate. destruct (kind f); try apply Field_validate_looks.
  unfold DictField_validate, bind. intros Hr.
  destruct (Field_validate validator_validate f v h) as [[[]|e|] h1] eqn:Hf;
    apply Field_validate_looks in Hf as ->; [|by injection Hr as _ <- ..].
  destruct (_ && _)%bool; [|by injection Hr as _ <-].
  unfold reading in Hr. destruct (iteritems v) as [items|e|]; [|by injection Hr as _ <- ..].
  revert Hr. apply for__looks. clear -validators_look. intros kv h r h' Hr.
  destruct (for_ key_validators (λ validator, validator_validate validator kv.1) h)
    as [[[]|e|] h1] eqn:Hk;
    (apply (for__looks key_validators) in Hk as ->;
     [|intros x; apply validators_look]);
    [|by injection Hr as _ <- ..].
  revert Hr. apply for__looks. intros x. apply validators_look.
Qed.

(** X27.  With validators that leave the store alone, [Model.validate]
    on an instance of an ordinary class leaves it alone too, and returns
    normally exactly when the [validate] of every declared field returns
    normally on the value the field currently reads: a value held, or the
    default for a field never assigned. *)
Theorem Model_validate_accepts_iff (self : addr) (o : obj) (h : heap) :
  ordinary (o_class o) →
  h !! self = Some o →
  (Model_validate validator_validate self h = (Ok tt, h)
   ↔ map_Forall (λ name f, validate validator_validate f (Field_get f name o) h = (Ok tt, h))
       (c_fields (o_class o)))
  ∧ ∀ r h', Model_validate validator_validate self h = (r, h') → h' = h.
Proof.
  intros _ Ho. unfold Model_validate.
  rewrite (bind_Ok_intro _ _ _ _ _ (instance_run _ _ _ Ho)).
  assert (∀ (nf : string * Field) h1 r h',
            (o0 <- instance self ;; validate validator_validate nf.2 (Field_get nf.2 nf.1 o0)) h1
            = (r, h') → h' = h1) as Hbody.
  { intros nf h1 r h' Hr. unfold bind, instance, reading in Hr.
    destruct (h1 !! self); [by eapply validate_looks | by injection Hr as _ <-]. }
  split; [|intros r h'; by apply for__looks].
  rewrite for__accepts by exact Hbody.
  rewrite map_Forall_to_list. apply Forall_iff. intros [name f]. simpl.
  by rewrite (bind_Ok_intro _ _ _ _ _ (instance_run _ _ _ Ho)).
Qed.
End ValidatePure.

Lemma sample_validate_looks v x h r h' : sample_validate v x h = (r, h') → h' = h.
Proof. destruct v, x; simpl; by intros [= _ <-]. Qed.

Lemma Model_validate_accepts_iff_witness :
  Model_validate sample_validate 0%nat [mkObj class_Doc {["title" := VStr "t"]}]
  = (Ok tt, [mkObj class_Doc {["title" := VStr "t"]}]).
Proof.
  destruct (Model_validate_accepts_iff sample_validate sample_validate_looks 0%nat
              (mkObj class_Doc {["title" := VStr "t"]})
              [mkObj class_Doc {["title" := VStr "t"]}] ordinary_Doc eq_refl) as [[_ Hok] _].
  apply Hok. apply map_Forall_to_list. list_fields.
  repeat (apply Forall_cons_2; [reflexivity|]). apply Forall_nil_2.
Defined.
